(** * The write-once table backend: builder, file format, reader

    A shallow embedding of the write-once table code (the builder
    [WriteOnceBuilder], the block and block-index marshalling, the
    memory-mapped reader [WriteOnceTable]) and of the varint codec
    ([ca_format_integer] / [ca_parse_integer]), followed by the theorems
    that relate the code to its specification.

    Conventions.
    - A byte ([uint8_t], [char] seen as [unsigned char]) is a [Z] in
      [0, 256); fixed-width integers are [Z] with the wrap-around written
      out ([u8], [u32], [u64]).
    - A pointer into a byte array is the list of bytes from the pointer on.
    - A file, and the mapping of a file, is the list of its bytes.
    - Exceptions ([KJ_REQUIRE], [KJ_FAIL_REQUIRE], [KJ_SYSCALL] ...) are
      [Throw]; an access outside an array or a mapping, and a division by
      zero, are [Fault]; a loop that has not finished within its fuel is
      [Diverge]. *)

From Stdlib Require Import String ZArith List Lia Bool Permutation Sorted.
Import ListNotations.
Local Open Scope Z_scope.

(** ** Outcomes of a call *)

Inductive result (A : Type) : Type :=
| Ret (a : A)
| Throw (what : string)
| Fault
| Diverge.

Arguments Ret {A} a.
Arguments Throw {A} what.
Arguments Fault {A}.
Arguments Diverge {A}.

Definition bind {A B : Type} (c : result A) (k : A -> result B) : result B :=
  match c with
  | Ret a => k a
  | Throw what => Throw what
  | Fault => Fault
  | Diverge => Diverge
  end.

Declare Scope result_scope.
Delimit Scope result_scope with result.
Notation "x <- c ;; k" := (bind c (fun x => k))
  (at level 61, c at next level, right associativity) : result_scope.
Notation "' pat <- c ;; k" := (bind c (fun x => match x with pat => k end))
  (at level 61, pat pattern, c at next level, right associativity) : result_scope.
Local Open Scope result_scope.

(** [KJ_REQUIRE (cond, what)]. *)
Definition KJ_REQUIRE (cond : bool) (what : string) : result unit :=
  if cond then Ret tt else Throw what.

(** ** Fixed-width integers *)

Definition u8 (v : Z) : Z := v mod 2 ^ 8.
Definition u16 (v : Z) : Z := v mod 2 ^ 16.
Definition u32 (v : Z) : Z := v mod 2 ^ 32.
Definition u64 (v : Z) : Z := v mod 2 ^ 64.

(** The conversion to a signed 64-bit integer ([off_t], [int64_t]): the
    number with the same 64 low bits. *)
Definition i64 (v : Z) : Z := (v + 2 ^ 63) mod 2 ^ 64 - 2 ^ 63.

Definition UINT32_MAX : Z := 2 ^ 32 - 1.

(** The [n] low bytes of [v], least significant first: the memory image of
    an [n]-byte unsigned integer on the little-endian machines the format
    is defined for. *)
Fixpoint le_bytes (n : nat) (v : Z) : list Z :=
  match n with
  | O => []
  | S n' => u8 v :: le_bytes n' (Z.shiftr v 8)
  end.

(** The unsigned integer whose little-endian memory image is [bs]. *)
Fixpoint le_value (bs : list Z) : Z :=
  match bs with
  | [] => 0
  | b :: bs' => b + 256 * le_value bs'
  end.

(** [length] as a [Z] ([size_t]). *)
Definition zlength {A : Type} (l : list A) : Z := Z.of_nat (length l).

(** [n] bytes at offset [off] of [mem]; [Fault] outside [mem]. *)
Definition load (mem : list Z) (off : Z) (n : nat) : result (list Z) :=
  if (0 <=? off) && (off + Z.of_nat n <=? zlength mem)
  then Ret (firstn n (skipn (Z.to_nat off) mem))
  else Fault.

(** The pointer [mem + off]; [Fault] outside [mem] (one past the end is
    a valid pointer, with nothing to read behind it). *)
Definition ptr_at (mem : list Z) (off : Z) : result (list Z) :=
  if (0 <=? off) && (off <=? zlength mem)
  then Ret (skipn (Z.to_nat off) mem)
  else Fault.

(** ** The varint codec (format.c, select.c) *)

Module Varint.

(** The [while (value)] loop of [ca_format_integer]: [ptr] is the index of
    the first used cell of [buffer], [buf] the cells [buffer[ptr..9]].
    Writing below cell 0 is a [Fault]. *)
Fixpoint format_loop (ptr : nat) (value : Z) (buf : list Z) : result (list Z) :=
  if value =? 0 then Ret buf
  else match ptr with
       | O => Fault
       | S ptr' =>
           format_loop ptr' (Z.shiftr value 7) (u8 (Z.lor 0x80 value) :: buf)
       end.

(** [ca_format_integer (&output, value)]: the bytes appended at [*output]. *)
Definition ca_format_integer (value : Z) : result (list Z) :=
  format_loop 9 (Z.shiftr value 7) [Z.land value 0x7f].

(** The [while (0 != ( *i & 0x80))] loop of [ca_parse_integer]: [cur] is
    [*i], [rest] the bytes behind it. *)
Fixpoint parse_loop (res cur : Z) (rest : list Z) {struct rest}
  : result (Z * list Z) :=
  if Z.land cur 0x80 =? 0 then Ret (res, rest)
  else match rest with
       | [] => Fault
       | b :: rest' =>
           parse_loop (Z.lor (u64 (Z.shiftl res 7)) (Z.land b 0x7f)) b rest'
       end.

(** [ca_parse_integer (&input)]: the value and the advanced pointer. *)
Definition ca_parse_integer (input : list Z) : result (Z * list Z) :=
  match input with
  | [] => Fault
  | b :: rest => parse_loop (Z.land b 0x7f) b rest
  end.

End Varint.

(** ** Byte strings *)

(** A [string_view]: a pointer and a length.  Nothing says that [sv_size]
    bytes are readable behind the pointer; [sv_bytes] dereferences. *)
Record string_view : Type := {
  sv_data : list Z;
  sv_size : Z
}.

(** The view of a whole byte string. *)
Definition sv_of (s : list Z) : string_view :=
  {| sv_data := s; sv_size := zlength s |}.

Definition sv_bytes (v : string_view) : result (list Z) :=
  if (0 <=? sv_size v) && (sv_size v <=? zlength (sv_data v))
  then Ret (firstn (Z.to_nat (sv_size v)) (sv_data v))
  else Fault.

(** [string_view::compare] on the bytes of two views: the sign of the
    first differing byte (as [unsigned char]), else of the lengths. *)
Fixpoint sv_compare (a b : list Z) : Z :=
  match a, b with
  | [], [] => 0
  | [], _ :: _ => -1
  | _ :: _, [] => 1
  | x :: a', y :: b' =>
      if x <? y then -1 else if y <? x then 1 else sv_compare a' b'
  end.

(** [operator<] of [string_view]. *)
Definition sv_lt (a b : list Z) : bool := sv_compare a b <? 0.

(** The NUL-terminated string at a pointer ([strlen] and the bytes). *)
Fixpoint c_str (p : list Z) : result (list Z) :=
  match p with
  | [] => Fault
  | b :: p' => if b =? 0 then Ret [] else s <- c_str p' ;; Ret (b :: s)
  end.

(** ** [std::stable_sort]

    The library routine is modelled by its contract, the stable sorted
    rearrangement, computed by insertion from the right: an element goes
    before the elements that followed it and are not smaller.  An exception
    of the comparator ends the sort. *)

Section StableSort.
Context {A : Type} (comp : A -> A -> result bool).

Fixpoint insert_sorted (x : A) (l : list A) : result (list A) :=
  match l with
  | [] => Ret [x]
  | y :: l' =>
      c <- comp y x ;;
      if (c : bool) then r <- insert_sorted x l' ;; Ret (y :: r)
      else Ret (x :: l)
  end.

Fixpoint stable_sort (l : list A) : result (list A) :=
  match l with
  | [] => Ret []
  | x :: l' => s <- stable_sort l' ;; insert_sorted x s
  end.

End StableSort.

(** ** Constants and the file header (sort.cc) *)

Definition MAGIC : Z := 0x6c6261742e692e70.
Definition MAJOR_VERSION : Z := 4.
Definition MINOR_VERSION : Z := 0.

Definition kBlockSizeMin : Z := 16 * 1024.
Definition kBlockSizeMax : Z := 2 * kBlockSizeMin - 1.
Definition kEntrySizeLimit : Z := kBlockSizeMin / 2.

Definition CA_WO_FLAG_ASCENDING : Z := 0x0001.
Definition CA_WO_FLAG_DESCENDING : Z := 0x0002.

(** Modelled from the spec: the enumeration [TableCompression] is declared
    in a header that is not among the sources; the header table of the spec
    gives [0 = none].  The other enumerators ([kTableCompressionLast],
    [kTableCompressionDefault]) are parameters where they are used. *)
Definition kTableCompressionNone : Z := 0.

Record CA_wo_header : Type := {
  magic : Z;
  major_version : Z;
  minor_version : Z;
  flags : Z;
  compression : Z;
  compression_level : Z;
  data_reserved : Z;
  index_offset : Z
}.

Definition sizeof_CA_wo_header : Z := 24.

(** The memory image of a header, as [output.write (&header, sizeof header)]
    writes it. *)
Definition header_bytes (h : CA_wo_header) : list Z :=
  le_bytes 8 (magic h) ++ le_bytes 1 (major_version h)
  ++ le_bytes 1 (minor_version h) ++ le_bytes 2 (flags h)
  ++ le_bytes 1 (compression h) ++ le_bytes 1 (compression_level h)
  ++ le_bytes 2 (data_reserved h) ++ le_bytes 8 (index_offset h).

(** The header seen through [(struct CA_wo_header* ) buffer]. *)
Definition header_at (buffer : list Z) : result CA_wo_header :=
  b <- load buffer 0 24 ;;
  Ret {| magic := le_value (firstn 8 b);
         major_version := le_value (firstn 1 (skipn 8 b));
         minor_version := le_value (firstn 1 (skipn 9 b));
         flags := le_value (firstn 2 (skipn 10 b));
         compression := le_value (firstn 1 (skipn 12 b));
         compression_level := le_value (firstn 1 (skipn 13 b));
         data_reserved := le_value (firstn 2 (skipn 14 b));
         index_offset := le_value (firstn 8 (skipn 16 b)) |}.

(** [TableOptions]: the class is declared outside the sources; these are
    the four getters the builder calls. *)
Record TableOptions : Type := {
  GetCompression : Z;
  GetCompressionLevel : Z;
  GetFileFlags : Z;
  GetFileMode : Z
}.

Definition O_CLOEXEC : Z := 0x80000.

(** ** Positional I/O *)

Module RandomIO.

(** [Read (buffer, offset, length)]: [pread] returns the bytes that exist
    from [offset] on, at most [length]; fewer than [length] is an error,
    and so is an offset that is negative as an [off_t]. *)
Definition Read (file : list Z) (offset length : Z) : result (list Z) :=
  if 2 ^ 63 <=? offset then Throw "pread"
  else
    let got := firstn (Z.to_nat length) (skipn (Z.to_nat offset) file) in
    if zlength got =? length then Ret got else Throw "pread incomplete".

End RandomIO.

(** ** The block under construction *)

Module WriteOnceBlock.

Record t : Type := {
  key_size_ : list Z;
  key_data_ : list Z;
  value_size_ : list Z;
  value_data_ : list Z
}.

Definition empty : t :=
  {| key_size_ := []; key_data_ := []; value_size_ := []; value_data_ := [] |}.

(** [Add (key, value)]: refuses, without touching the block and without
    reading the views, when the data would exceed [kBlockSizeMax]. *)
Definition Add (b : t) (key value : string_view) : result (bool * t) :=
  let kts := zlength (key_data_ b) + sv_size key in
  let vts := zlength (value_data_ b) + sv_size value in
  if kts + vts >? kBlockSizeMax then Ret (false, b)
  else
    k <- sv_bytes key ;;
    v <- sv_bytes value ;;
    Ret (true, {| key_size_ := key_size_ b ++ [u32 (sv_size key)];
                  key_data_ := key_data_ b ++ k;
                  value_size_ := value_size_ b ++ [u32 (sv_size value)];
                  value_data_ := value_data_ b ++ v |}).

Definition Clear (b : t) : t := empty.

Section Marshal.
(** [oroch::varint_codec<size_t>::value_encode] (third party, not among
    the sources): the bytes it writes for a count. *)
Variable value_encode : Z -> list Z.

(** [Marshal (buffer)]: the contents of the buffer afterwards. *)
Definition Marshal (b : t) : list Z :=
  let num := zlength (key_size_ b) in
  if num =? 0 then []
  else value_encode num
       ++ concat (map (le_bytes 4) (key_size_ b))
       ++ concat (map (le_bytes 4) (value_size_ b))
       ++ key_data_ b ++ value_data_ b.

End Marshal.

End WriteOnceBlock.

(** ** The block index under construction *)

Module WriteOnceIndex.

Record t : Type := {
  block_size_ : list Z;
  key_size_ : list Z;
  key_data_ : list Z
}.

Definition empty : t :=
  {| block_size_ := []; key_size_ := []; key_data_ := [] |}.

(** [Add (block_size, last_key)]; [block_size] is a [uint32_t]. *)
Definition Add (i : t) (block_size : Z) (last_key : list Z) : t :=
  {| block_size_ := block_size_ i ++ [u32 block_size];
     key_size_ := key_size_ i ++ [u32 (zlength last_key)];
     key_data_ := key_data_ i ++ last_key |}.

Section Marshal.
Variable value_encode : Z -> list Z.

Definition Marshal (i : t) : list Z :=
  let num := zlength (key_size_ i) in
  if num =? 0 then []
  else value_encode num
       ++ concat (map (le_bytes 4) (block_size_ i))
       ++ concat (map (le_bytes 4) (key_size_ i))
       ++ key_data_ i.

End Marshal.

End WriteOnceIndex.

(** ** The builder *)

Module WriteOnceBuilder.

Record Entry : Type := {
  offset : Z;
  value_size : Z;
  key_size : Z;
  prefix : list Z
}.

Definition sizeof_prefix : Z := 24.

(** The builder's members.  [raw_stream_] holds the bytes handed to the
    buffered stream of the spill file, [raw_fd_] the bytes that positional
    reads on its descriptor see; [fd_] is the contents of the result file.
    The statistic [read_count_], which is only logged, the path names and
    the scratch buffers are not kept. *)
Record t : Type := {
  options_ : TableOptions;
  compression_ : Z;
  no_fsync_ : bool;
  fd_ : list Z;
  raw_stream_ : list Z;
  raw_fd_ : list Z;
  index_ : list Entry;
  offset_ : Z;
  key_size_max_ : Z
}.

Definition set_index (b : t) (idx : list Entry) (off ksm : Z) : t :=
  {| options_ := options_ b; compression_ := compression_ b;
     no_fsync_ := no_fsync_ b; fd_ := fd_ b;
     raw_stream_ := raw_stream_ b; raw_fd_ := raw_fd_ b;
     index_ := idx; offset_ := off; key_size_max_ := ksm |}.

Definition set_raw (b : t) (stream file : list Z) : t :=
  {| options_ := options_ b; compression_ := compression_ b;
     no_fsync_ := no_fsync_ b; fd_ := fd_ b;
     raw_stream_ := stream; raw_fd_ := file;
     index_ := index_ b; offset_ := offset_ b;
     key_size_max_ := key_size_max_ b |}.

Definition set_fd (b : t) (out : list Z) : t :=
  {| options_ := options_ b; compression_ := compression_ b;
     no_fsync_ := no_fsync_ b; fd_ := out;
     raw_stream_ := raw_stream_ b; raw_fd_ := raw_fd_ b;
     index_ := index_ b; offset_ := offset_ b;
     key_size_max_ := key_size_max_ b |}.

Section Constructor.
Variables kTableCompressionLast kTableCompressionDefault : Z.

(** The constructor: the compression method is settled and checked, the
    spill file is created empty. *)
Definition new (options : TableOptions) : result t :=
  let c := GetCompression options in
  let c := if c =? kTableCompressionDefault then kTableCompressionNone
           else c in
  _ <- KJ_REQUIRE (c <=? kTableCompressionLast)
         "unsupported compression method" ;;
  Ret {| options_ := options; compression_ := c; no_fsync_ := false;
         fd_ := []; raw_stream_ := []; raw_fd_ := [];
         index_ := []; offset_ := 0; key_size_max_ := 0 |}.

End Constructor.

Definition NoFSync (b : t) (value : bool) : t :=
  {| options_ := options_ b; compression_ := compression_ b;
     no_fsync_ := value; fd_ := fd_ b;
     raw_stream_ := raw_stream_ b; raw_fd_ := raw_fd_ b;
     index_ := index_ b; offset_ := offset_ b;
     key_size_max_ := key_size_max_ b |}.

Definition AddEntry (b : t) (key value : string_view) : result t :=
  _ <- KJ_REQUIRE (sv_size key <=? UINT32_MAX) "too long key" ;;
  _ <- KJ_REQUIRE (sv_size value <=? UINT32_MAX) "too long value" ;;
  let count := Z.min sizeof_prefix (sv_size key) in
  p <- sv_bytes {| sv_data := sv_data key; sv_size := count |} ;;
  let entry := {| offset := offset_ b;
                  value_size := sv_size value;
                  key_size := sv_size key;
                  prefix := p |} in
  Ret (set_index b (index_ b ++ [entry])
         (u64 (offset_ b + (sv_size key + sv_size value)))
         (if key_size_max_ b <? sv_size key then sv_size key
          else key_size_max_ b)).

(** [fwrite (ptr, size, 1, stream)]: the number of items written, which is
    0 when [size] is 0. *)
Definition fwrite1 (stream : list Z) (v : string_view) : result (Z * list Z) :=
  if sv_size v =? 0 then Ret (0, stream)
  else d <- sv_bytes v ;; Ret (1, stream ++ d).

Definition WriteEntryData (b : t) (key value : string_view) : result t :=
  '(n, s) <- fwrite1 (raw_stream_ b) key ;;
  if n =? 0 then Throw "fwrite"
  else
    '(n, s) <- fwrite1 s value ;;
    if n =? 0 then Throw "fwrite"
    else Ret (set_raw b s (raw_fd_ b)).

Definition Add (b : t) (key value : string_view) : result t :=
  b <- AddEntry b key value ;;
  WriteEntryData b key value.

Definition FlushEntryData (b : t) : result t :=
  Ret (set_raw b (raw_stream_ b) (raw_stream_ b)).

(** [fd.Read (buffer, e.offset, e.key_size)] into a scratch buffer of
    [key_size_max] bytes. *)
Definition read_key (raw_fd : list Z) (key_size_max : Z) (e : Entry)
  : result (list Z) :=
  if key_size_max <? key_size e then Fault
  else RandomIO.Read raw_fd (offset e) (key_size e).

(** [Compare (lhs, rhs)], with the scratch buffers that [SortEntries]
    allocates. *)
Definition Compare (raw_fd : list Z) (key_size_max : Z) (lhs rhs : Entry)
  : result bool :=
  let lhs_count := Z.min sizeof_prefix (key_size lhs) in
  let rhs_count := Z.min sizeof_prefix (key_size rhs) in
  lhs_prefix <- sv_bytes {| sv_data := prefix lhs; sv_size := lhs_count |} ;;
  rhs_prefix <- sv_bytes {| sv_data := prefix rhs; sv_size := rhs_count |} ;;
  let fast_result := sv_compare lhs_prefix rhs_prefix in
  if negb (fast_result =? 0) then Ret (fast_result <? 0)
  else
    lhs_view <- read_key raw_fd key_size_max lhs ;;
    rhs_view <- read_key raw_fd key_size_max rhs ;;
    Ret (sv_lt lhs_view rhs_view).

Definition SortEntries (b : t) : result t :=
  idx <- stable_sort (Compare (raw_fd_ b) (key_size_max_ b)) (index_ b) ;;
  Ret (set_index b idx (offset_ b) (key_size_max_ b)).

Section Emit.
Variable value_encode : Z -> list Z.

(** [CreateFile]: the header is written at the start of the result file.
    The member [index_offset] of the local [header] is never assigned;
    [uninit] stands for the eight bytes that the stack holds there. *)
Definition CreateFile (uninit : Z) (b : t) : result t :=
  let nflags := GetFileFlags (options_ b) in
  _ <- KJ_REQUIRE (Z.land nflags (Z.lnot O_CLOEXEC) =? 0) "nflags" ;;
  let header := {| magic := MAGIC;
                   major_version := MAJOR_VERSION;
                   minor_version := MINOR_VERSION;
                   flags := CA_WO_FLAG_ASCENDING;
                   compression := compression_ b;
                   compression_level := GetCompressionLevel (options_ b);
                   data_reserved := 0;
                   index_offset := uninit |} in
  Ret (set_fd b (header_bytes header)).

(** [CommitFile]: mode, rename, fsync; the file contents are not touched.
    The result is the contents of the destination path. *)
Definition CommitFile (b : t) : result (list Z) := Ret (fd_ b).

(** [Write (buffer)]: append to the result file. *)
Definition Write (b : t) (buffer : list Z) : t := set_fd b (fd_ b ++ buffer).

(** [WriteBlock]: whether a block was written, the block index and the
    builder afterwards. *)
Definition WriteBlock (b : t) (block : WriteOnceBlock.t)
  (index : WriteOnceIndex.t) (last_key : list Z)
  : bool * WriteOnceIndex.t * t :=
  let write_buffer := WriteOnceBlock.Marshal value_encode block in
  if zlength write_buffer =? 0 then (false, index, b)
  else (true, WriteOnceIndex.Add index (zlength write_buffer) last_key,
        Write b write_buffer).

Definition WriteIndex (b : t) (index : WriteOnceIndex.t) : bool * t :=
  let write_buffer := WriteOnceIndex.Marshal value_encode index in
  if zlength write_buffer =? 0 then (false, b)
  else (true, Write b write_buffer).

(** The locals of [WriteFinalData] that live across the iterations. *)
Record locals : Type := {
  index : WriteOnceIndex.t;
  block : WriteOnceBlock.t;
  last_key : list Z;
  block_count : Z;
  large_count : Z
}.

(** One iteration of the loop over [index_]. *)
Definition emit_entry (st : locals * t) (entry : Entry) : result (locals * t) :=
  let '(l, b) := st in
  let size := u32 (key_size entry + value_size entry) in
  if size >? kEntrySizeLimit then
    Ret ({| index := index l; block := block l; last_key := last_key l;
            block_count := block_count l;
            large_count := large_count l + 1 |}, b)
  else
    buffer <- RandomIO.Read (raw_fd_ b) (offset entry) size ;;
    let key := {| sv_data := buffer; sv_size := key_size entry |} in
    let value := {| sv_data := skipn (Z.to_nat (key_size entry)) buffer;
                    sv_size := value_size entry |} in
    '(ok, blk) <- WriteOnceBlock.Add (block l) key value ;;
    '(idx, blk, count, b) <-
      (if (ok : bool) then Ret (index l, blk, block_count l, b)
       else
         let '(_, idx, b) := WriteBlock b blk (index l) (last_key l) in
         let blk := WriteOnceBlock.Clear blk in
         '(ok, blk) <- WriteOnceBlock.Add blk key value ;;
         if (ok : bool) then Ret (idx, blk, block_count l + 1, b)
         else Throw "an entry does not fit a block") ;;
    k <- sv_bytes key ;;
    Ret ({| index := idx; block := blk; last_key := k;
            block_count := count; large_count := large_count l |}, b).

Fixpoint emit_entries (st : locals * t) (entries : list Entry)
  : result (locals * t) :=
  match entries with
  | [] => Ret st
  | entry :: entries' => st <- emit_entry st entry ;; emit_entries st entries'
  end.

(** [WriteFinalData]: the builder afterwards, with the two counters that
    are logged at the end. *)
Definition WriteFinalData (b : t) : result (t * Z * Z) :=
  let l0 := {| index := WriteOnceIndex.empty; block := WriteOnceBlock.empty;
               last_key := []; block_count := 0; large_count := 0 |} in
  '(l, b) <- emit_entries (l0, b) (index_ b) ;;
  let '(written, idx, b) := WriteBlock b (block l) (index l) (last_key l) in
  let count := if (written : bool) then block_count l + 1 else block_count l in
  let '(_, b) := WriteIndex b idx in
  Ret (b, count, large_count l).

(** [Build]: the contents of the destination file.  When [WriteFinalData]
    or [CommitFile] throws, the temporary file is removed and the
    exception goes on: no destination file. *)
Definition Build (uninit : Z) (b : t) : result (list Z) :=
  b <- FlushEntryData b ;;
  b <- SortEntries b ;;
  b <- CreateFile uninit b ;;
  '(b, _, _) <- WriteFinalData b ;;
  CommitFile b.

End Emit.

End WriteOnceBuilder.

(** ** The reader *)

(** The legacy hash of format versions below 2. *)
Definition CA_wo_hash (str : list Z) : Z :=
  fold_left (fun res ch => u64 (res * 31 + ch)) str 0x2257d6803a6f1b2.

Inductive whence : Type := SEEK_SET | SEEK_CUR | SEEK_END.

Module WriteOnceTable.

(** The members of a table opened for reading.  [buffer] is the mapping;
    [header] is what the pointer [header] into the (read-only) mapping
    shows. *)
Record t : Type := {
  buffer : list Z;
  buffer_size : Z;
  buffer_fill : Z;
  header : CA_wo_header;
  index_size : Z;
  index_bits : Z;
  has_madvised_index : bool;
  compression_ : Z;
  offset_ : Z
}.

Definition set_offset (tb : t) (off : Z) : t :=
  {| buffer := buffer tb; buffer_size := buffer_size tb;
     buffer_fill := buffer_fill tb; header := header tb;
     index_size := index_size tb; index_bits := index_bits tb;
     has_madvised_index := has_madvised_index tb;
     compression_ := compression_ tb; offset_ := off |}.

Definition set_madvised (tb : t) : t :=
  {| buffer := buffer tb; buffer_size := buffer_size tb;
     buffer_fill := buffer_fill tb; header := header tb;
     index_size := index_size tb; index_bits := index_bits tb;
     has_madvised_index := true;
     compression_ := compression_ tb; offset_ := offset_ tb |}.

Definition set_compression (tb : t) (c : Z) : t :=
  {| buffer := buffer tb; buffer_size := buffer_size tb;
     buffer_fill := buffer_fill tb; header := header tb;
     index_size := index_size tb; index_bits := index_bits tb;
     has_madvised_index := has_madvised_index tb;
     compression_ := c; offset_ := offset_ tb |}.

(** [MemoryMap], on the contents of the file behind [fd]. *)
Definition MemoryMap (file : list Z) : result t :=
  let end_ := zlength file in
  _ <- KJ_REQUIRE (end_ >? sizeof_CA_wo_header) "end" ;;
  h <- header_at file ;;
  _ <- KJ_REQUIRE ((major_version h <=? MAJOR_VERSION)
                   || (major_version h >=? 2)) "major_version" ;;
  _ <- KJ_REQUIRE (magic h =? MAGIC) "magic" ;;
  let bits :=
    if major_version h >=? 3 then 64
    else if Z.land (index_offset h) (Z.lnot 0xffff) =? 0 then 16
    else if Z.land (index_offset h) (Z.lnot 0xffffffff) =? 0 then 32
    else 64 in
  Ret {| buffer := file; buffer_size := end_; buffer_fill := end_;
         header := h;
         index_size := u64 (end_ - index_offset h) / (bits / 8);
         index_bits := bits;
         has_madvised_index := false;
         compression_ := kTableCompressionNone;
         offset_ := sizeof_CA_wo_header |}.

Section Open.
Variable kTableCompressionLast : Z.

(** The constructor [WriteOnceTable (path)], on the contents of the file
    at [path]. *)
Definition open (file : list Z) : result t :=
  tb <- MemoryMap file ;;
  let c := compression (header tb) in
  _ <- KJ_REQUIRE (c <=? kTableCompressionLast)
         "unsupported compression method" ;;
  if negb (c =? kTableCompressionNone)
  then Throw "decompression is not implemented yet"
  else Ret (set_compression tb c).

End Open.

Definition IsSorted (tb : t) : bool :=
  negb (Z.land (flags (header tb)) CA_WO_FLAG_ASCENDING =? 0).

Definition Seek (tb : t) (rel_offset : Z) (w : whence) : result t :=
  new_offset <-
    match w with
    | SEEK_SET =>
        _ <- KJ_REQUIRE (rel_offset >=? 0) "rel_offset >= 0" ;;
        Ret (u64 (sizeof_CA_wo_header + rel_offset))
    | SEEK_CUR => Ret (u64 (offset_ tb + rel_offset))
    | SEEK_END =>
        _ <- KJ_REQUIRE (rel_offset <=? 0) "rel_offset <= 0" ;;
        Ret (u64 (index_offset (header tb) - rel_offset))
    end ;;
  _ <- KJ_REQUIRE (new_offset >=? sizeof_CA_wo_header)
         "attempt to seek before start of table" ;;
  _ <- KJ_REQUIRE (new_offset <=? index_offset (header tb))
         "attempt to seek past end of table" ;;
  Ret (set_offset tb new_offset).

Definition SeekToFirst (tb : t) : result t := Seek tb 0 SEEK_SET.

(** [Offset ()]: the difference is computed in [uint64_t] and returned as
    [off_t]. *)
Definition Offset (tb : t) : Z := i64 (u64 (offset_ tb - sizeof_CA_wo_header)).

(** [ReadRow (&key, &value)]: [None] for the return value [false];
    otherwise the key (the bytes [key->iov_base] points to, [key->iov_len]
    of them) and the value as pointer and length. *)
Definition ReadRow (tb : t) : result (option (list Z * string_view) * t) :=
  _ <- KJ_REQUIRE (offset_ tb >=? sizeof_CA_wo_header) "offset_" ;;
  if offset_ tb >=? index_offset (header tb) then Ret (None, tb)
  else
    b <- load (buffer tb) (offset_ tb) 1 ;;
    if le_value b =? 0 then Ret (None, tb)
    else
      p <- ptr_at (buffer tb) (offset_ tb) ;;
      '(size, p) <- Varint.ca_parse_integer p ;;
      key <- c_str p ;;
      let iov_len := zlength key in
      _ <- KJ_REQUIRE (size >? iov_len) "size > key->iov_len" ;;
      let value := {| sv_data := skipn (Z.to_nat (iov_len + 1)) p;
                      sv_size := size - iov_len - 1 |} in
      let off := u64 (zlength (buffer tb) - zlength p + size) in
      Ret (Some (key, value), set_offset tb off).

Section Lookup.
(** [Hash] (declared outside the sources): the 64-bit hash of a key. *)
Variable Hash : list Z -> Z.
(** [madvise (buffer + start, length, advice)] succeeded: the answer of
    the operating system. *)
Variable madvise : Z -> Z -> bool.

Definition MAdviseIndex (tb : t) : result t :=
  let base := Z.land (index_offset (header tb)) (Z.lnot 0xfff) in
  let end_ := buffer_fill tb in
  if madvise base (u64 (end_ - base)) then Ret (set_madvised tb)
  else Throw "madvise".

(** [index.u16[hash]], [index.u32[hash]] or [index.u64[hash]]. *)
Definition slot (tb : t) (hash : Z) : result Z :=
  let width := if index_bits tb =? 16 then 2%nat
               else if index_bits tb =? 32 then 4%nat else 8%nat in
  b <- load (buffer tb) (index_offset (header tb) + Z.of_nat width * hash) width ;;
  Ret (le_value b).

(** [while (( *data) & 0x80) ++data; ++data;] *)
Fixpoint skip_size (data : list Z) : result (list Z) :=
  match data with
  | [] => Fault
  | b :: data' => if Z.land b 0x80 =? 0 then Ret data' else skip_size data'
  end.

(** The [for (;;)] loop of [SeekToKey]; [fib0] and [fib1] are [fib[0]]
    and [fib[1]]. *)
Fixpoint probe (fuel : nat) (tb : t) (key : list Z)
  (hash min_offset max_offset fib0 fib1 collisions : Z)
  : result (bool * t) :=
  match fuel with
  | O => Diverge
  | S fuel' =>
      tmp_offset <- slot tb hash ;;
      if tmp_offset =? 0 then Ret (false, tb)
      else
        '(found, min_offset, max_offset) <-
          (if (tmp_offset >=? min_offset) && (tmp_offset <=? max_offset) then
             data <- ptr_at (buffer tb) tmp_offset ;;
             data <- skip_size data ;;
             stored <- c_str data ;;
             let cmp := sv_compare key stored in
             let ascending :=
               negb (Z.land (flags (header tb)) CA_WO_FLAG_ASCENDING =? 0) in
             if cmp =? 0 then Ret (true, min_offset, max_offset)
             else if cmp <? 0 then
               Ret (false, min_offset,
                    if ascending then tmp_offset else max_offset)
             else
               Ret (false, if ascending then tmp_offset else min_offset,
                    max_offset)
           else Ret (false, min_offset, max_offset)) ;;
        if (found : bool) then Ret (true, set_offset tb tmp_offset)
        else if major_version (header tb) >=? 3 then
          let hash := u64 (hash + 1) in
          let hash := if hash =? index_size tb then 0 else hash in
          probe fuel' tb key hash min_offset max_offset fib0 fib1 collisions
        else
          let collisions := u32 (collisions + 1) in
          if Z.land collisions 1 =? 0 then
            let hash := u64 (hash + fib0) mod index_size tb in
            probe fuel' tb key hash min_offset max_offset
              (u64 (fib0 + fib1)) fib1 collisions
          else
            let hash := u64 (hash + fib1) mod index_size tb in
            probe fuel' tb key hash min_offset max_offset
              fib0 (u64 (fib1 + fib0)) collisions
  end.

(** [SeekToKey (key)], with [fuel] turns of the probe loop. *)
Definition SeekToKey (fuel : nat) (tb : t) (key : list Z) : result (bool * t) :=
  tb <- (if has_madvised_index tb then Ret tb else MAdviseIndex tb) ;;
  let hash := if major_version (header tb) <? 2 then CA_wo_hash key
              else Hash key in
  if index_size tb =? 0 then Fault
  else
    let hash := hash mod index_size tb in
    probe fuel tb key hash 0 (buffer_fill tb) 2 1 0.

End Lookup.

(** [SeekToFirst] and then [ReadRow] until it returns [false], at most
    [fuel] rows: the keys and values read. *)
Fixpoint read_rows (fuel : nat) (tb : t) : result (list (list Z * list Z)) :=
  match fuel with
  | O => Diverge
  | S fuel' =>
      '(row, tb) <- ReadRow tb ;;
      match row with
      | None => Ret []
      | Some (key, value) =>
          v <- sv_bytes value ;;
          rows <- read_rows fuel' tb ;;
          Ret ((key, v) :: rows)
      end
  end.

Definition scan (fuel : nat) (tb : t) : result (list (list Z * list Z)) :=
  tb <- SeekToFirst tb ;;
  read_rows fuel tb.

End WriteOnceTable.

(** ** The table handle in create mode and the test scenarios *)

(** [InsertRow] on a handle that owns a builder: [builder_->Add (k, v)]. *)
Definition InsertRow (b : WriteOnceBuilder.t) (key value : list Z)
  : result WriteOnceBuilder.t :=
  WriteOnceBuilder.Add b (sv_of key) (sv_of value).

Fixpoint InsertRows (b : WriteOnceBuilder.t) (rows : list (list Z * list Z))
  : result WriteOnceBuilder.t :=
  match rows with
  | [] => Ret b
  | (key, value) :: rows' => b <- InsertRow b key value ;; InsertRows b rows'
  end.

(** [Sync] on such a handle: [builder_->Build ()]. *)
Definition Sync := WriteOnceBuilder.Build.

(** The bytes of an ASCII string. *)
Fixpoint bytes_of (s : string) : list Z :=
  match s with
  | EmptyString => []
  | String c s' => Z.of_N (Ascii.N_of_ascii c) :: bytes_of s'
  end.

(** ** Notions of the specification *)

(** Byte-wise order of keys. *)
Definition key_le (a b : list Z) : Prop := sv_compare a b <= 0.

(** The size of a row: key bytes plus value bytes. *)
Definition row_size (r : list Z * list Z) : Z :=
  zlength (fst r) + zlength (snd r).

(** A row that is within [kEntrySizeLimit]. *)
Definition small (r : list Z * list Z) : bool :=
  row_size r <=? kEntrySizeLimit.

(** Byte-wise lexicographic order, as the specification words it: at the
    first position where the keys differ the smaller byte decides; a
    proper prefix comes first. *)
Fixpoint bytes_ltb (a b : list Z) : bool :=
  match a, b with
  | _, [] => false
  | [], _ :: _ => true
  | x :: a', y :: b' => (x <? y) || ((x =? y) && bytes_ltb a' b')
  end.

(** The [n] bytes at offset [off] of a file. *)
Definition slice (file : list Z) (off n : Z) : list Z :=
  firstn (Z.to_nat n) (skipn (Z.to_nat off) file).

(** The key of an entry, as it stands on the spill file. *)
Definition entry_key (raw : list Z) (e : WriteOnceBuilder.Entry) : list Z :=
  slice raw (WriteOnceBuilder.offset e) (WriteOnceBuilder.key_size e).

(** The value of an entry, as it stands on the spill file. *)
Definition entry_value (raw : list Z) (e : WriteOnceBuilder.Entry) : list Z :=
  slice raw (WriteOnceBuilder.offset e + WriteOnceBuilder.key_size e)
        (WriteOnceBuilder.value_size e).

(** The invariant of an entry with respect to the spill file: its bytes
    lie inside the file and its prefix is the first bytes of its key. *)
Definition Entry_invariant (raw : list Z) (e : WriteOnceBuilder.Entry) : Prop :=
  0 <= WriteOnceBuilder.offset e /\
  0 <= WriteOnceBuilder.key_size e /\
  0 <= WriteOnceBuilder.value_size e /\
  WriteOnceBuilder.offset e + WriteOnceBuilder.key_size e
    + WriteOnceBuilder.value_size e <= zlength raw /\
  WriteOnceBuilder.prefix e = firstn 24 (entry_key raw e).

(** The key stored at offset [off] of a mapping: behind the bytes of the
    size field, up to the terminating NUL. *)
Definition stored_key_at (buffer : list Z) (off : Z) (key : list Z) : Prop :=
  exists p data,
    ptr_at buffer off = Ret p /\
    WriteOnceTable.skip_size p = Ret data /\
    c_str data = Ret key.

(** [buf] holds the [k] low 7-bit groups [lo] of a value: whatever has
    been accumulated before it, the decoder continues through [buf] and
    stops at its end. *)
Definition decodes (buf : list Z) (k : nat) (lo : Z) : Prop :=
  forall r cur rest,
    Z.land cur 0x80 <> 0 -> 0 <= r ->
    r * 128 ^ Z.of_nat k + lo < 2 ^ 64 ->
    Varint.parse_loop r cur (buf ++ rest)
    = Ret (r * 128 ^ Z.of_nat k + lo, rest).

(** The stable sorted rearrangement for a comparator that cannot fail. *)
Section SortBy.
Context {A : Type} (lt : A -> A -> bool).

Fixpoint insert_by (x : A) (l : list A) : list A :=
  match l with
  | [] => [x]
  | y :: l' => if lt y x then y :: insert_by x l' else x :: l
  end.

Fixpoint sort_by (l : list A) : list A :=
  match l with
  | [] => []
  | x :: l' => insert_by x (sort_by l')
  end.

End SortBy.

(** The row of an entry, as it stands on the spill file. *)
Definition entry_row (raw : list Z) (e : WriteOnceBuilder.Entry)
  : list Z * list Z :=
  (entry_key raw e, entry_value raw e).

(** The spill file of a sequence of rows. *)
Definition flat (rows : list (list Z * list Z)) : list Z :=
  concat (map (fun r => fst r ++ snd r) rows).

(** The block that holds the rows [rs], in this order. *)
Definition block_of_rows (rs : list (list Z * list Z)) : WriteOnceBlock.t :=
  {| WriteOnceBlock.key_size_ := map (fun r => zlength (fst r)) rs;
     WriteOnceBlock.key_data_ := concat (map fst rs);
     WriteOnceBlock.value_size_ := map (fun r => zlength (snd r)) rs;
     WriteOnceBlock.value_data_ := concat (map snd rs) |}.

(** The block index of a sequence of blocks, given by their rows: the
    size of each marshalled block and its last key. *)
Definition index_of_groups (value_encode : Z -> list Z)
  (groups : list (list (list Z * list Z))) : WriteOnceIndex.t :=
  fold_left
    (fun i g =>
       WriteOnceIndex.Add i
         (zlength (WriteOnceBlock.Marshal value_encode (block_of_rows g)))
         (fst (last g ([], []))))
    groups WriteOnceIndex.empty.

(** The bytes of the marshalled blocks. *)
Definition blocks_bytes (value_encode : Z -> list Z)
  (groups : list (list (list Z * list Z))) : list Z :=
  concat (map (fun g => WriteOnceBlock.Marshal value_encode (block_of_rows g))
              groups).

(** Modelled from the spec: the varint encoder of the third-party integer
    codec is not among the sources; the spec has the counts of blocks and
    of the block index serialized as varints, "big-endian 7-bit groups
    with continuation bit in the MSB of every non-terminal byte".  Used
    where a theorem needs the concrete bytes of a file. *)
Definition spec_value_encode (n : Z) : list Z :=
  match Varint.ca_format_integer n with
  | Ret bs => bs
  | _ => []
  end.

(** Options that ask for nothing: no compression, no descriptor flags. *)
Definition plain_options : TableOptions :=
  {| GetCompression := kTableCompressionNone; GetCompressionLevel := 0;
     GetFileFlags := 0; GetFileMode := 0x1b6 |}.

(** The builder of a fresh table handle with [plain_options]. *)
Definition fresh_builder : WriteOnceBuilder.t :=
  {| WriteOnceBuilder.options_ := plain_options;
     WriteOnceBuilder.compression_ := kTableCompressionNone;
     WriteOnceBuilder.no_fsync_ := false;
     WriteOnceBuilder.fd_ := [];
     WriteOnceBuilder.raw_stream_ := [];
     WriteOnceBuilder.raw_fd_ := [];
     WriteOnceBuilder.index_ := [];
     WriteOnceBuilder.offset_ := 0;
     WriteOnceBuilder.key_size_max_ := 0 |}.

(** The rows of the test scenarios. *)
Definition row (k v : string) : list Z * list Z := (bytes_of k, bytes_of v).

Definition rows_sorted : list (list Z * list Z) :=
  [row "a" "xxx"; row "b" "yyy"; row "c" "zzz"; row "d" "www"].

Definition rows_unsorted : list (list Z * list Z) :=
  [row "a" "xxx"; row "c" "zzz"; row "d" "www"; row "b" "yyy"].

(** A row of 8193 bytes: a key of one byte, a value of 8192 bytes. *)
Definition big_row : list Z * list Z := ([107], repeat 118 (Z.to_nat 8192)).

(** What a builder holds once the rows [rows] have been added to a fresh
    one: the spill stream is their concatenation, the running offset its
    length, and the entries describe the rows in order and satisfy the
    entry invariant; keys and values are within the size limits of
    [AddEntry] and the longest key is recorded. *)
Definition ingested (b : WriteOnceBuilder.t) (rows : list (list Z * list Z))
  : Prop :=
  WriteOnceBuilder.raw_stream_ b = flat rows /\
  WriteOnceBuilder.offset_ b = zlength (flat rows) /\
  map (entry_row (flat rows)) (WriteOnceBuilder.index_ b) = rows /\
  Forall (Entry_invariant (flat rows)) (WriteOnceBuilder.index_ b) /\
  Forall (fun e => WriteOnceBuilder.key_size e
                   <= WriteOnceBuilder.key_size_max_ b /\
                   WriteOnceBuilder.key_size e <= UINT32_MAX /\
                   WriteOnceBuilder.value_size e <= UINT32_MAX)
         (WriteOnceBuilder.index_ b).

(** The number of data bytes that a block holds. *)
Definition block_data_size (g : list (list Z * list Z)) : Z :=
  zlength (concat (map fst g)) + zlength (concat (map snd g)).

(** The state of the loop of [WriteFinalData] when the blocks with the
    rows [done] have been written after the header [hdr] and the block
    under construction holds the rows [cur]. *)
Definition emitting (value_encode : Z -> list Z) (hdr raw : list Z)
  (done : list (list (list Z * list Z))) (cur : list (list Z * list Z))
  (st : WriteOnceBuilder.locals * WriteOnceBuilder.t) : Prop :=
  WriteOnceBuilder.raw_fd_ (snd st) = raw /\
  WriteOnceBuilder.fd_ (snd st) = hdr ++ blocks_bytes value_encode done /\
  WriteOnceBuilder.index (fst st) = index_of_groups value_encode done /\
  WriteOnceBuilder.block (fst st) = block_of_rows cur /\
  (cur <> [] -> WriteOnceBuilder.last_key (fst st) = fst (last cur ([], []))) /\
  Forall (fun g => g <> [] /\ block_data_size g <= kBlockSizeMax) done /\
  block_data_size cur <= kBlockSizeMax.

(** A table handle opened for creation, with the rows [rows] inserted. *)
Definition create_and_fill (kTableCompressionLast kTableCompressionDefault : Z)
  (options : TableOptions) (rows : list (list Z * list Z))
  : result WriteOnceBuilder.t :=
  b <- WriteOnceBuilder.new kTableCompressionLast kTableCompressionDefault
         options ;;
  InsertRows b rows.

(** Creation, insertion of [rows] and [Sync]: the destination file. *)
Definition build_table (kTableCompressionLast kTableCompressionDefault : Z)
  (options : TableOptions) (value_encode : Z -> list Z) (uninit : Z)
  (rows : list (list Z * list Z)) : result (list Z) :=
  b <- create_and_fill kTableCompressionLast kTableCompressionDefault
         options rows ;;
  Sync value_encode uninit b.

(** The same up to the end of [WriteFinalData]: the builder and the two
    counters that [WriteFinalData] logs. *)
Definition emit_table (kTableCompressionLast kTableCompressionDefault : Z)
  (options : TableOptions) (value_encode : Z -> list Z) (uninit : Z)
  (rows : list (list Z * list Z)) : result (WriteOnceBuilder.t * Z * Z) :=
  b <- create_and_fill kTableCompressionLast kTableCompressionDefault
         options rows ;;
  b <- WriteOnceBuilder.FlushEntryData b ;;
  b <- WriteOnceBuilder.SortEntries b ;;
  b <- WriteOnceBuilder.CreateFile uninit b ;;
  WriteOnceBuilder.WriteFinalData value_encode b.

(** The header that [CreateFile] writes. *)
Definition built_header (b : WriteOnceBuilder.t) (uninit : Z) : CA_wo_header :=
  {| magic := MAGIC;
     major_version := MAJOR_VERSION;
     minor_version := MINOR_VERSION;
     flags := CA_WO_FLAG_ASCENDING;
     compression := WriteOnceBuilder.compression_ b;
     compression_level := GetCompressionLevel (WriteOnceBuilder.options_ b);
     data_reserved := 0;
     index_offset := uninit |}.

(** ** The other writers of format.c and readers of select.c *)

(** A [float] is kept as its 32-bit pattern: the code only copies floats,
    and the memory image of one is the four bytes of its pattern. *)

(** [ca_format_float (&output, value)]: the bytes appended at [*output]. *)
Definition ca_format_float (value : Z) : list Z := le_bytes 4 value.

(** [ca_format_time_float4 (&output, start_time, interval, sample_values,
    sample_count)]: the bytes appended at [*output]; [sample_count] is the
    length of [sample_values]. *)
Definition ca_format_time_float4 (start_time interval : Z)
  (sample_values : list Z) : result (list Z) :=
  t <- Varint.ca_format_integer start_time ;;
  i <- Varint.ca_format_integer interval ;;
  c <- Varint.ca_format_integer (zlength sample_values) ;;
  Ret (t ++ i ++ c ++ concat (map (le_bytes 4) sample_values)).

(** [ca_parse_string (&input)]: the string that the returned pointer
    shows, and the advanced pointer, one behind the NUL that [strchr]
    finds. *)
Fixpoint ca_parse_string (input : list Z) : result (list Z * list Z) :=
  match input with
  | [] => Fault
  | b :: input' =>
      if b =? 0 then Ret ([], input')
      else '(s, rest) <- ca_parse_string input' ;; Ret (b :: s, rest)
  end.

(** ** Further notions of the specification *)

(** The record of a row in the data region, as [ReadRow] takes it apart:
    the number of the bytes that follow, as a varint, then the key, a NUL
    and the value. *)
Definition record_bytes (r : list Z * list Z) : list Z :=
  match Varint.ca_format_integer (zlength (fst r) + 1 + zlength (snd r)) with
  | Ret size => size ++ fst r ++ [0] ++ snd r
  | _ => []
  end.

(** A row that a record can hold: no NUL in the key, and a size that a
    [uint64_t] can tell. *)
Definition record_row (r : list Z * list Z) : Prop :=
  Forall (fun b => b <> 0) (fst r) /\
  zlength (fst r) + 1 + zlength (snd r) < 2 ^ 64.

(** The rows with the key [k]. *)
Definition has_key (k : list Z) (r : list Z * list Z) : bool :=
  sv_compare k (fst r) =? 0.

(** The slot that linear probing looks at after [d] steps from slot [h]. *)
Definition probe_slot (tb : WriteOnceTable.t) (h d : Z) : Z :=
  (h + d) mod WriteOnceTable.index_size tb.

(** Every slot of the hash index holds zero or the offset of a record. *)
Definition index_well_formed (tb : WriteOnceTable.t) : Prop :=
  forall h, 0 <= h < WriteOnceTable.index_size tb ->
    exists v, WriteOnceTable.slot tb h = Ret v /\
      (v = 0 \/ exists k, stored_key_at (WriteOnceTable.buffer tb) v k).

(** The records that the slots of the hash index address have their keys
    in non-decreasing order of their offsets. *)
Definition index_ascending (tb : WriteOnceTable.t) : Prop :=
  forall h1 h2 v1 v2 k1 k2,
    0 <= h1 < WriteOnceTable.index_size tb ->
    0 <= h2 < WriteOnceTable.index_size tb ->
    WriteOnceTable.slot tb h1 = Ret v1 -> v1 <> 0 ->
    WriteOnceTable.slot tb h2 = Ret v2 -> v2 <> 0 ->
    stored_key_at (WriteOnceTable.buffer tb) v1 k1 ->
    stored_key_at (WriteOnceTable.buffer tb) v2 k2 ->
    v1 <= v2 -> key_le k1 k2.

(** The slots on the way from slot [h], [d] steps long, are all taken. *)
Definition chain_taken (tb : WriteOnceTable.t) (h d : Z) : Prop :=
  forall j, 0 <= j < d ->
    exists v, WriteOnceTable.slot tb (probe_slot tb h j) = Ret v /\ v <> 0.

(** A file in the record format: the rows (a, xyz) and (b, q) stand at
    the offsets 24 and 30, and the hash index, four 64-bit slots from
    offset 34 on, is the one of a hash function that sends both keys to
    slot 0. *)
Definition sample_rows : list (list Z * list Z) :=
  [row "a" "xyz"; row "b" "q"].

Definition sample_header : CA_wo_header :=
  {| magic := MAGIC; major_version := 4; minor_version := 0;
     flags := CA_WO_FLAG_ASCENDING; compression := 0;
     compression_level := 0; data_reserved := 0; index_offset := 34 |}.

Definition sample_file : list Z :=
  header_bytes sample_header
  ++ concat (map record_bytes sample_rows)
  ++ le_bytes 8 24 ++ le_bytes 8 30 ++ le_bytes 8 0 ++ le_bytes 8 0.

(** The table that opening [sample_file] gives. *)
Definition sample_table : WriteOnceTable.t :=
  {| WriteOnceTable.buffer := sample_file;
     WriteOnceTable.buffer_size := 66;
     WriteOnceTable.buffer_fill := 66;
     WriteOnceTable.header := sample_header;
     WriteOnceTable.index_size := 4;
     WriteOnceTable.index_bits := 64;
     WriteOnceTable.has_madvised_index := false;
     WriteOnceTable.compression_ := kTableCompressionNone;
     WriteOnceTable.offset_ := 24 |}.

(** The last key of a block, given by its rows. *)
Definition last_key_of (g : list (list Z * list Z)) : list Z :=
  fst (last g ([], [])).

(** The state of the loop of [WriteFinalData], with the counter of the
    blocks: the blocks written so far are counted, and each of them was
    closed because a row of at most [kEntrySizeLimit] bytes did not fit. *)
Definition filling (value_encode : Z -> list Z) (hdr raw : list Z)
  (done : list (list (list Z * list Z))) (cur : list (list Z * list Z))
  (st : WriteOnceBuilder.locals * WriteOnceBuilder.t) : Prop :=
  emitting value_encode hdr raw done cur st /\
  WriteOnceBuilder.block_count (fst st) = zlength done /\
  Forall (fun g => kBlockSizeMax - kEntrySizeLimit < block_data_size g) done.

(** Five rows of 8001 bytes each: four of them fill a block. *)
Definition rows_two_blocks : list (list Z * list Z) :=
  map (fun k => ([k], repeat 118 (Z.to_nat 8000))) [101; 102; 103; 104; 105].

(** ** The run-length reader and the offset/score parser with
    predictions (select.c) *)

(** The byte [mem[i]]; [Fault] outside [mem]. *)
Definition byte_at (mem : list Z) (i : Z) : result Z :=
  if (0 <=? i) && (i <? zlength mem) then Ret (nth (Z.to_nat i) mem 0)
  else Fault.

Module RLE.

(** [struct CA_rle_context] is declared in a header that is not among
    the sources; the code uses its members [data] and [run].  The pointer
    [data] is kept as the bytes from the pointer given to [InitRLE] on,
    and the number of bytes by which it has advanced since. *)
Record CA_rle_context : Type := {
  input : list Z;
  advanced : Z;
  run : Z
}.

Definition InitRLE (input : list Z) : CA_rle_context :=
  {| input := input; advanced := 0; run := 0 |}.

(** [ctx->data[i]]. *)
Definition data_at (ctx : CA_rle_context) (i : Z) : result Z :=
  byte_at (input ctx) (advanced ctx + i).

Definition ReadRLEByte (ctx : CA_rle_context) : result (Z * CA_rle_context) :=
  ctx <- (if negb (run ctx =? 0) then
            Ret {| input := input ctx; advanced := advanced ctx;
                   run := run ctx - 1 |}
          else
            b0 <- data_at ctx 0 ;;
            if Z.land 0xc0 b0 =? 0xc0 then
              Ret {| input := input ctx; advanced := advanced ctx + 2;
                     run := Z.land b0 0x3f |}
            else
              Ret {| input := input ctx; advanced := advanced ctx + 1;
                     run := run ctx |}) ;;
  b <- data_at ctx (-1) ;;
  Ret (b, ctx).

(** [rle.data], as a pointer of its own. *)
Definition data (ctx : CA_rle_context) : result (list Z) :=
  ptr_at (input ctx) (advanced ctx).

End RLE.

Module OffsetScore.
Import RLE.

(** [struct ca_offset_score] is declared in a header that is not among
    the sources; these are the members that the parser assigns.  A float
    is kept as its 32-bit pattern. *)
Record ca_offset_score : Type := {
  offset : Z;
  score : Z;
  score_pct5 : Z;
  score_pct25 : Z;
  score_pct75 : Z;
  score_pct95 : Z
}.

(** [memcpy (&f, begin, sizeof (float)); begin += sizeof (float);] *)
Definition read_float (begin : list Z) : result (Z * list Z) :=
  b <- load begin 0 4 ;;
  Ret (le_value b, skipn 4 begin).

(** [for (auto& step : steps)]: the steps are given as running sums. *)
Fixpoint parse_steps (n : nat) (prev_step : Z) (begin : list Z)
  : result (list Z * list Z) :=
  match n with
  | O => Ret ([], begin)
  | S n' =>
      '(d, begin) <- Varint.ca_parse_integer begin ;;
      let step := u64 (d + prev_step) in
      '(steps, begin) <- parse_steps n' step begin ;;
      Ret (step :: steps, begin)
  end.

(** [steps[step_index]]. *)
Definition step_at (steps : list Z) (step_index : Z) : Z :=
  nth (Z.to_nat step_index) steps 0.

(** [for (size_t i = 1; i < count; ++i)], with indexes into [steps]:
    the offsets of the elements 1 to [count - 1]. *)
Fixpoint offsets_by_index (n : nat) (steps : list Z) (prev : Z)
  (begin : list Z) : result (list Z * list Z) :=
  match n with
  | O => Ret ([], begin)
  | S n' =>
      '(step_index, begin) <- Varint.ca_parse_integer begin ;;
      _ <- KJ_REQUIRE (step_index <? zlength steps)
             "step_index < steps.size()" ;;
      let off := u64 (prev + step_at steps step_index) in
      '(offs, begin) <- offsets_by_index n' steps off begin ;;
      Ret (off :: offs, begin)
  end.

(** The same loop when there are no steps: the differences themselves. *)
Fixpoint offsets_by_delta (n : nat) (prev : Z) (begin : list Z)
  : result (list Z * list Z) :=
  match n with
  | O => Ret ([], begin)
  | S n' =>
      '(d, begin) <- Varint.ca_parse_integer begin ;;
      let off := u64 (prev + d) in
      '(offs, begin) <- offsets_by_delta n' off begin ;;
      Ret (off :: offs, begin)
  end.

(** [for (auto& b : prob_mask) b = ReadRLEByte (&rle);] *)
Fixpoint read_mask (n : nat) (rle : CA_rle_context)
  : result (list Z * CA_rle_context) :=
  match n with
  | O => Ret ([], rle)
  | S n' =>
      '(b, rle) <- ReadRLEByte rle ;;
      '(bs, rle) <- read_mask n' rle ;;
      Ret (b :: bs, rle)
  end.

(** [0 != (prob_mask[i >> 3] & (1 << (i & 7)))]. *)
Definition has_prediction (prob_mask : list Z) (i : Z) : result bool :=
  m <- byte_at prob_mask (Z.shiftr i 3) ;;
  Ret (negb (Z.land m (Z.shiftl 1 (Z.land i 7)) =? 0)).

(** The loop over the elements that reads the scores; [offsets] are the
    offsets of the elements from the [i]-th on. *)
Fixpoint read_scores (i : Z) (offsets : list Z) (prob_mask : list Z)
  (begin : list Z) : result (list ca_offset_score * list Z) :=
  match offsets with
  | [] => Ret ([], begin)
  | off :: offsets' =>
      '(s, begin) <- read_float begin ;;
      p <- has_prediction prob_mask i ;;
      '(v, begin) <-
        (if (p : bool) then
           '(p5, begin) <- read_float begin ;;
           '(p25, begin) <- read_float begin ;;
           '(p75, begin) <- read_float begin ;;
           '(p95, begin) <- read_float begin ;;
           Ret ({| offset := off; score := s; score_pct5 := p5;
                   score_pct25 := p25; score_pct75 := p75;
                   score_pct95 := p95 |}, begin)
         else
           Ret ({| offset := off; score := s; score_pct5 := 0;
                   score_pct25 := 0; score_pct75 := 0;
                   score_pct95 := 0 |}, begin)) ;;
      '(vs, begin) <- read_scores (i + 1) offsets' prob_mask begin ;;
      Ret (v :: vs, begin)
  end.

(** The steps that both functions read when [count > 1]. *)
Definition read_step_table (count : Z) (begin : list Z)
  : result (list Z * list Z) :=
  if count >? 1 then
    '(step_count, begin) <- Varint.ca_parse_integer begin ;;
    _ <- KJ_REQUIRE (step_count <=? u64 (count + 1))
           "step_count <= count + 1" ;;
    if step_count >? 0 then parse_steps (Z.to_nat step_count) 0 begin
    else Ret ([], begin)
  else Ret ([], begin).

(** [ParseOffsetScoreWithPrediction (begin, end, output)]: the advanced
    [begin] and the vector afterwards.  [end_] is what is behind [end];
    the two pointers are equal when as much is behind them.  The vector
    is taken to have room for the elements: a failed allocation is not
    modelled. *)
Definition ParseOffsetScoreWithPrediction (begin end_ : list Z)
  (output : list ca_offset_score)
  : result (list Z * list ca_offset_score) :=
  '(count, begin) <- Varint.ca_parse_integer begin ;;
  if count =? 0 then
    _ <- KJ_REQUIRE (zlength begin =? zlength end_)
           "unexpected zero-sized offset/score array" ;;
    Ret (begin, output)
  else
    '(first, begin) <- Varint.ca_parse_integer begin ;;
    '(steps, begin) <- read_step_table count begin ;;
    '(offsets, begin) <-
      (if negb (zlength steps =? 0)
       then offsets_by_index (Z.to_nat (count - 1)) steps first begin
       else offsets_by_delta (Z.to_nat (count - 1)) first begin) ;;
    '(prob_mask, rle) <-
      read_mask (Z.to_nat (u64 (count + 7) / 8)) (InitRLE begin) ;;
    _ <- KJ_REQUIRE (run rle =? 0) "rle.run == 0" ;;
    begin <- data rle ;;
    '(values, begin) <- read_scores 0 (first :: offsets) prob_mask begin ;;
    Ret (begin, output ++ values).

(** [CountOffsetScoreWithPrediction (begin, end)]. *)
Definition CountOffsetScoreWithPrediction (begin end_ : list Z)
  : result (Z * list Z) :=
  '(begin, tmp) <- ParseOffsetScoreWithPrediction begin end_ [] ;;
  Ret (zlength tmp, begin).

(** The two loops of [GetMaxOffsetWithPrediction] that add up the
    steps. *)
Fixpoint max_by_index (n : nat) (steps : list Z) (res : Z) (begin : list Z)
  : result (Z * list Z) :=
  match n with
  | O => Ret (res, begin)
  | S n' =>
      '(step_index, begin) <- Varint.ca_parse_integer begin ;;
      _ <- KJ_REQUIRE (step_index <? zlength steps)
             "step_index < steps.size()" ;;
      max_by_index n' steps (u64 (res + step_at steps step_index)) begin
  end.

Fixpoint max_by_delta (n : nat) (res : Z) (begin : list Z)
  : result (Z * list Z) :=
  match n with
  | O => Ret (res, begin)
  | S n' =>
      '(d, begin) <- Varint.ca_parse_integer begin ;;
      max_by_delta n' (u64 (res + d)) begin
  end.

(** Its last loop, which steps over the floats. *)
Fixpoint skip_scores (n : nat) (i : Z) (prob_mask : list Z) (begin : list Z)
  : result (list Z) :=
  match n with
  | O => Ret begin
  | S n' =>
      begin <- ptr_at begin 4 ;;
      p <- has_prediction prob_mask i ;;
      begin <- (if (p : bool) then ptr_at begin 16 else Ret begin) ;;
      skip_scores n' (i + 1) prob_mask begin
  end.

(** [GetMaxOffsetWithPrediction (begin, end)]: the result and the
    advanced [begin]. *)
Definition GetMaxOffsetWithPrediction (begin : list Z)
  : result (Z * list Z) :=
  '(count, begin) <- Varint.ca_parse_integer begin ;;
  _ <- KJ_REQUIRE (count >? 0) "count > 0" ;;
  '(res, begin) <- Varint.ca_parse_integer begin ;;
  '(steps, begin) <- read_step_table count begin ;;
  '(res, begin) <-
    (if negb (zlength steps =? 0)
     then max_by_index (Z.to_nat (count - 1)) steps res begin
     else max_by_delta (Z.to_nat (count - 1)) res begin) ;;
  '(prob_mask, rle) <-
    read_mask (Z.to_nat (u64 (count + 7) / 8)) (InitRLE begin) ;;
  begin <- data rle ;;
  _ <- KJ_REQUIRE (run rle =? 0) "rle.run == 0" ;;
  skipped <- skip_scores (Z.to_nat count) 0 prob_mask begin ;;
  Ret (res, skipped).

End OffsetScore.

(** ** The writer of time series (table-write.c) *)

Definition MAX_HEADER_SIZE : Z := 64.

Module TableWrite.

(** [CA_put_integer (&o, value)], the code of [ca_format_integer], with
    [o] in an array of [capacity] bytes of which [written] stand in front
    of [o]: the bytes in front of [o] afterwards.  Writing behind the
    array is a [Fault]. *)
Definition CA_put_integer (capacity : Z) (written : list Z) (value : Z)
  : result (list Z) :=
  bs <- Varint.format_loop 9 (Z.shiftr value 7) [Z.land value 0x7f] ;;
  if zlength written + zlength bs <=? capacity then Ret (written ++ bs)
  else Fault.

Section Insert.
(** [ca_table_insert_row (table, value, count)] (declared in ca-table.h,
    defined outside the sources), on the pieces of the row. *)
Variable ca_table_insert_row : list (list Z) -> result Z.

(** [ca_table_write_time_float4 (table, key, start_time, interval,
    sample_values, sample_count)]; [key] is a pointer to a C string. *)
Definition ca_table_write_time_float4 (key : list Z)
  (start_time interval : Z) (sample_values : list Z) : result Z :=
  o <- CA_put_integer MAX_HEADER_SIZE [] start_time ;;
  o <- CA_put_integer MAX_HEADER_SIZE o interval ;;
  o <- CA_put_integer MAX_HEADER_SIZE o (zlength sample_values) ;;
  k <- c_str key ;;
  ca_table_insert_row
    [k ++ [0]; o; concat (map (le_bytes 4) sample_values)].

End Insert.

End TableWrite.

(** ** [ev::StringRef] (base/stringref.h) *)

Module StringRef.

(** The members [data_] and [size_] are those of a [string_view]. *)
Definition t : Type := string_view.

(** [compare (const StringRef&)]: [memcmp] over the common length, then
    the sizes.  Of the result of [memcmp] the sign is kept. *)
Definition compare (lhs rhs : t) : result Z :=
  let m := Z.min (sv_size lhs) (sv_size rhs) in
  a <- sv_bytes {| sv_data := sv_data lhs; sv_size := m |} ;;
  b <- sv_bytes {| sv_data := sv_data rhs; sv_size := m |} ;;
  let cmp := sv_compare a b in
  if negb (cmp =? 0) then Ret cmp
  else Ret (if sv_size lhs <? sv_size rhs then -1
            else if sv_size lhs >? sv_size rhs then 1 else 0).

(** [operator== (const StringRef&)]. *)
Definition eq (lhs rhs : t) : result bool :=
  if negb (sv_size lhs =? sv_size rhs) then Ret false
  else
    a <- sv_bytes lhs ;;
    b <- sv_bytes {| sv_data := sv_data rhs; sv_size := sv_size lhs |} ;;
    Ret (sv_compare a b =? 0).

(** [operator== (const char* rhs)]: the loop over [i < size_], then the
    test of [rhs[size_]]; [rhs] is what the pointer addresses. *)
Fixpoint eq_c_str_loop (n : nat) (data rhs : list Z) : result bool :=
  match n with
  | O => match rhs with c :: _ => Ret (c =? 0) | [] => Fault end
  | S n' =>
      match rhs, data with
      | r :: rhs', d :: data' =>
          if negb (r =? d) then Ret false else eq_c_str_loop n' data' rhs'
      | _, _ => Fault
      end
  end.

Definition eq_c_str (lhs : t) (rhs : list Z) : result bool :=
  eq_c_str_loop (Z.to_nat (sv_size lhs)) (sv_data lhs) rhs.

Section Char.
(** Whether [char] is a signed type: the implementation says. *)
Variable char_is_signed : bool.

(** The value of the [char] with the bits of the byte [b]. *)
Definition char_value (b : Z) : Z :=
  if char_is_signed && (128 <=? b) then b - 256 else b.

(** [std::lexicographical_compare (first1, first1 + n1, first2,
    first2 + n2)] on [char]s. *)
Fixpoint lexicographical_compare (n1 n2 : nat) (first1 first2 : list Z)
  : result bool :=
  match n1, n2 with
  | S n1', S n2' =>
      match first1, first2 with
      | x :: first1', y :: first2' =>
          if char_value x <? char_value y then Ret true
          else if char_value y <? char_value x then Ret false
          else lexicographical_compare n1' n2' first1' first2'
      | _, _ => Fault
      end
  | O, S _ => Ret true
  | _, O => Ret false
  end.

(** [operator< (const StringRef&)]. *)
Definition lt (lhs rhs : t) : result bool :=
  lexicographical_compare (Z.to_nat (sv_size lhs)) (Z.to_nat (sv_size rhs))
    (sv_data lhs) (sv_data rhs).

End Char.

End StringRef.

(** * Theorems *)

(** ** Bit-level facts *)

Lemma land_ones_7 (x : Z) : Z.land x 0x7f = x mod 128.
Proof. change 0x7f with (Z.ones 7). now rewrite Z.land_ones by lia. Qed.

Lemma land_128_zero (x : Z) : 0 <= x < 128 -> Z.land x 0x80 = 0.
Proof.
  intros Hx. apply Z.bits_inj'. intros n Hn.
  rewrite Z.land_spec, Z.bits_0.
  destruct (Z.eq_dec n 7) as [->|Hne].
  - replace (Z.testbit x 7) with false; [reflexivity|].
    symmetry. apply Z.bits_above_log2; [lia|].
    destruct (Z.eq_dec x 0) as [->|]; [simpl; lia|].
    apply Z.log2_lt_pow2; lia.
  - replace (Z.testbit 128 n) with false; [apply andb_false_r|].
    symmetry. change 128 with (2 ^ 7). apply Z.pow2_bits_false. lia.
Qed.

Lemma lor_low_bits (r g : Z) :
  0 <= r -> 0 <= g < 128 -> Z.lor (r * 128) g = r * 128 + g.
Proof.
  intros Hr Hg.
  assert (Hdisj : Z.land (r * 128) g = 0).
  { apply Z.bits_inj'. intros n Hn. rewrite Z.land_spec, Z.bits_0.
    destruct (Z_lt_dec n 7).
    - change 128 with (2 ^ 7). rewrite Z.mul_pow2_bits_low by lia. reflexivity.
    - replace (Z.testbit g n) with false; [apply andb_false_r|].
      symmetry. destruct (Z.eq_dec g 0) as [->|]; [apply Z.bits_0|].
      apply Z.bits_above_log2; [lia|].
      apply Z.lt_le_trans with 7; [|lia]. apply Z.log2_lt_pow2; lia. }
  rewrite <- Z.lxor_lor by exact Hdisj.
  symmetry. apply Z.add_nocarry_lxor. exact Hdisj.
Qed.

Lemma continuation_byte (w : Z) :
  0 <= w ->
  Z.land (u8 (Z.lor 0x80 w)) 0x80 <> 0 /\
  Z.land (u8 (Z.lor 0x80 w)) 0x7f = w mod 128.
Proof.
  intros Hw. unfold u8. split.
  - intros H.
    assert (Hb : Z.testbit (Z.land (Z.lor 128 w mod 2 ^ 8) 128) 7 = false)
      by (rewrite H; apply Z.bits_0).
    rewrite Z.land_spec, Z.mod_pow2_bits_low, Z.lor_spec in Hb by lia.
    discriminate Hb.
  - rewrite <- (Z.land_ones _ 8) by lia.
    rewrite <- Z.land_assoc.
    change (Z.land (Z.ones 8) 0x7f) with 0x7f.
    rewrite Z.land_lor_distr_l.
    change (Z.land 0x80 0x7f) with 0.
    rewrite Z.lor_0_l. apply land_ones_7.
Qed.

(** ** The varint codec *)

Module VarintFacts.
Import Varint.

Lemma parse_loop_continue (r cur b : Z) (rest : list Z) :
  Z.land cur 0x80 <> 0 ->
  parse_loop r cur (b :: rest)
  = parse_loop (Z.lor (u64 (Z.shiftl r 7)) (Z.land b 0x7f)) b rest.
Proof.
  intros H. simpl. destruct (Z.eqb_spec (Z.land cur 128) 0); [contradiction|].
  reflexivity.
Qed.

Lemma parse_loop_stop (r cur : Z) (rest : list Z) :
  Z.land cur 0x80 = 0 -> parse_loop r cur rest = Ret (r, rest).
Proof. intros H. destruct rest; simpl; rewrite H; reflexivity. Qed.

Lemma shift_group (r : Z) :
  0 <= r -> r * 128 < 2 ^ 64 -> u64 (Z.shiftl r 7) = r * 128.
Proof.
  intros Hr Hlt. unfold u64. rewrite Z.shiftl_mul_pow2 by lia.
  change (2 ^ 7) with 128. apply Z.mod_small. lia.
Qed.

Lemma decodes_last (v : Z) :
  0 <= v -> decodes [Z.land v 0x7f] 1 (v mod 128).
Proof.
  intros Hv r cur rest Hcur Hr Hlt.
  assert (Hg : 0 <= v mod 128 < 128) by (apply Z.mod_pos_bound; lia).
  change (128 ^ Z.of_nat 1) with 128 in *.
  rewrite <- app_comm_cons. rewrite parse_loop_continue by exact Hcur.
  rewrite !land_ones_7, Z.mod_mod by lia.
  rewrite shift_group by lia.
  rewrite lor_low_bits by lia.
  apply parse_loop_stop. apply land_128_zero. exact Hg.
Qed.

Lemma decodes_cons (buf : list Z) (k : nat) (lo w : Z) :
  (0 < k)%nat -> 0 <= lo -> 0 <= w ->
  decodes buf k lo ->
  decodes (u8 (Z.lor 0x80 w) :: buf) (S k) (w mod 128 * 128 ^ Z.of_nat k + lo).
Proof.
  intros Hk Hlo Hw Hbuf r cur rest Hcur Hr Hlt.
  destruct (continuation_byte w Hw) as [Hmsb Hgrp].
  assert (Hg : 0 <= w mod 128 < 128) by (apply Z.mod_pos_bound; lia).
  assert (Hp : 0 < 128 ^ Z.of_nat k) by (apply Z.pow_pos_nonneg; lia).
  rewrite Nat2Z.inj_succ, Z.pow_succ_r in * by lia.
  rewrite <- app_comm_cons. rewrite parse_loop_continue by exact Hcur.
  rewrite Hgrp.
  rewrite shift_group; [|lia|nia].
  rewrite lor_low_bits by lia.
  rewrite Hbuf; [f_equal; f_equal; ring|exact Hmsb|lia|].
  nia.
Qed.

Lemma format_loop_decodes (ptr : nat) :
  forall (w : Z) (buf : list Z) (k : nat) (lo : Z),
    0 <= w < 128 ^ Z.of_nat ptr ->
    (0 < k)%nat -> 0 <= lo ->
    w * 128 ^ Z.of_nat k + lo < 2 ^ 64 ->
    decodes buf k lo ->
    exists bs,
      format_loop ptr w buf = Ret bs /\
      forall rest,
        parse_loop 0 0x80 (bs ++ rest)
        = Ret (w * 128 ^ Z.of_nat k + lo, rest).
Proof.
  induction ptr as [|ptr IH]; intros w buf k lo Hw Hk Hlo Hlt Hbuf.
  - assert (w = 0) by (change (128 ^ Z.of_nat 0) with 1 in Hw; lia).
    subst w. exists buf. split; [reflexivity|].
    intros rest. rewrite (Hbuf 0 0x80 rest); [reflexivity|discriminate|lia|lia].
  - cbn [format_loop]. destruct (Z.eqb_spec w 0) as [->|Hnz].
    + exists buf. split; [reflexivity|].
      intros rest.
      rewrite (Hbuf 0 0x80 rest); [reflexivity|discriminate|lia|lia].
    + assert (Hp : 0 < 128 ^ Z.of_nat k) by (apply Z.pow_pos_nonneg; lia).
      assert (Hdm : w = 128 * (w / 128) + w mod 128)
        by (apply Z.div_mod; lia).
      assert (Hg : 0 <= w mod 128 < 128) by (apply Z.mod_pos_bound; lia).
      assert (Hq : 0 <= w / 128) by (apply Z.div_pos; lia).
      rewrite Z.shiftr_div_pow2 by lia. change (2 ^ 7) with 128.
      destruct (IH (w / 128) (u8 (Z.lor 0x80 w) :: buf) (S k)
                  (w mod 128 * 128 ^ Z.of_nat k + lo)) as (bs & Hfmt & Hdec).
      * split; [exact Hq|].
        apply Z.div_lt_upper_bound; [lia|].
        rewrite Nat2Z.inj_succ, Z.pow_succ_r in Hw by lia. lia.
      * lia.
      * nia.
      * rewrite Nat2Z.inj_succ, Z.pow_succ_r by lia. nia.
      * apply decodes_cons; [exact Hk|exact Hlo|lia|exact Hbuf].
      * exists bs. split; [exact Hfmt|].
        intros rest. rewrite Hdec. f_equal. f_equal.
        rewrite Nat2Z.inj_succ, Z.pow_succ_r by lia. nia.
Qed.

Lemma ca_parse_integer_loop (input : list Z) :
  ca_parse_integer input = parse_loop 0 0x80 input.
Proof.
  destruct input as [|b rest]; [reflexivity|].
  rewrite parse_loop_continue by discriminate.
  reflexivity.
Qed.

(** The bytes that the loop puts in front of the buffer all carry the
    continuation bit, and there are at most [ptr] of them. *)
Lemma format_loop_shape (ptr : nat) :
  forall (w : Z) (buf bs : list Z),
    0 <= w ->
    format_loop ptr w buf = Ret bs ->
    exists front,
      bs = front ++ buf /\
      Forall (fun b => 0x80 <= b < 0x100) front /\
      (length front <= ptr)%nat.
Proof.
  induction ptr as [|ptr IH]; intros w buf bs Hw H.
  - simpl in H. destruct (w =? 0); [|discriminate H].
    injection H as <-. exists [].
    split; [reflexivity|]. split; [constructor|simpl; lia].
  - cbn [format_loop] in H. destruct (Z.eqb_spec w 0) as [->|Hnz].
    + injection H as <-. exists [].
      split; [reflexivity|]. split; [constructor|simpl; lia].
    + apply IH in H; [|apply Z.shiftr_nonneg; exact Hw].
      destruct H as (front & -> & Hall & Hlen).
      exists (front ++ [u8 (Z.lor 0x80 w)]).
      rewrite <- app_assoc. split; [reflexivity|]. split.
      * apply Forall_app. split; [exact Hall|].
        constructor; [|constructor].
        destruct (continuation_byte w Hw) as [Hmsb _].
        assert (Hrange : 0 <= u8 (Z.lor 0x80 w) < 256)
          by (apply Z.mod_pos_bound; lia).
        destruct (Z_lt_dec (u8 (Z.lor 0x80 w)) 128) as [Hlow|]; [|lia].
        exfalso. apply Hmsb. apply land_128_zero. lia.
      * rewrite length_app. simpl. lia.
Qed.

End VarintFacts.

(** C9. For every 64-bit value [v], [ca_format_integer] writes some bytes
    [bs] (it never runs out of its ten-byte buffer), every byte of [bs]
    but the last carries the continuation bit and the last does not, and
    [ca_parse_integer], started on [bs] followed by anything, returns [v]
    and leaves the pointer exactly behind [bs]. *)
Theorem varint_roundtrip (v : Z) (rest : list Z) :
  0 <= v < 2 ^ 64 ->
  exists bs,
    Varint.ca_format_integer v = Ret bs /\
    Varint.ca_parse_integer (bs ++ rest) = Ret (v, rest) /\
    (length bs <= 10)%nat /\
    exists front terminal,
      bs = front ++ [terminal] /\
      Forall (fun b => 0x80 <= b < 0x100) front /\
      0 <= terminal < 0x80.
Proof.
  intros Hv. unfold Varint.ca_format_integer.
  assert (Hdm : v = 128 * (v / 128) + v mod 128) by (apply Z.div_mod; lia).
  assert (Hg : 0 <= v mod 128 < 128) by (apply Z.mod_pos_bound; lia).
  destruct (VarintFacts.format_loop_decodes 9 (Z.shiftr v 7)
              [Z.land v 0x7f] 1 (v mod 128)) as (bs & Hfmt & Hdec).
  - rewrite Z.shiftr_div_pow2 by lia. change (2 ^ 7) with 128.
    split; [apply Z.div_pos; lia|].
    apply Z.div_lt_upper_bound; [lia|].
    change (128 ^ Z.of_nat 9) with (2 ^ 63). lia.
  - lia.
  - lia.
  - rewrite Z.shiftr_div_pow2 by lia. change (2 ^ 7) with 128.
    change (128 ^ Z.of_nat 1) with 128. lia.
  - apply VarintFacts.decodes_last. lia.
  - exists bs. split; [exact Hfmt|]. split.
    { rewrite VarintFacts.ca_parse_integer_loop, Hdec.
      rewrite Z.shiftr_div_pow2 by lia. change (2 ^ 7) with 128.
      change (128 ^ Z.of_nat 1) with 128.
      f_equal. f_equal. lia. }
    assert (Hs : 0 <= Z.shiftr v 7) by (apply Z.shiftr_nonneg; lia).
    destruct (VarintFacts.format_loop_shape 9 _ _ _ Hs Hfmt)
      as (front & -> & Hall & Hlen).
    split; [rewrite length_app; simpl; lia|].
    exists front, (Z.land v 0x7f).
    rewrite land_ones_7. auto.
Qed.

Lemma varint_roundtrip_witness :
  0 <= 300 < 2 ^ 64 /\
  exists bs,
    Varint.ca_format_integer 300 = Ret bs /\
    Varint.ca_parse_integer (bs ++ [7]) = Ret (300, [7]).
Proof.
  split; [lia|].
  destruct (varint_roundtrip 300 [7]) as (bs & Hfmt & Hparse & _); [lia|].
  exists bs. auto.
Defined.

(** ** Lists seen with [Z] lengths *)

Lemma zlength_nonneg {A : Type} (l : list A) : 0 <= zlength l.
Proof. unfold zlength. lia. Qed.

Lemma zlength_app {A : Type} (l1 l2 : list A) :
  zlength (l1 ++ l2) = zlength l1 + zlength l2.
Proof. unfold zlength. rewrite length_app. lia. Qed.

Lemma zlength_nil {A : Type} : zlength (@nil A) = 0.
Proof. reflexivity. Qed.

Lemma zlength_cons {A : Type} (x : A) (l : list A) :
  zlength (x :: l) = zlength l + 1.
Proof. unfold zlength. simpl length. lia. Qed.

Lemma zlength_firstn {A : Type} (n : Z) (l : list A) :
  0 <= n -> zlength (firstn (Z.to_nat n) l) = Z.min n (zlength l).
Proof. intros Hn. unfold zlength. rewrite length_firstn. lia. Qed.

Lemma zlength_skipn {A : Type} (n : Z) (l : list A) :
  0 <= n <= zlength l -> zlength (skipn (Z.to_nat n) l) = zlength l - n.
Proof. intros Hn. unfold zlength in *. rewrite length_skipn. lia. Qed.

Lemma zlength_zero_nil {A : Type} (l : list A) : zlength l = 0 -> l = [].
Proof. destruct l; [reflexivity|]. rewrite zlength_cons. pose proof (zlength_nonneg l). lia. Qed.

Lemma sv_bytes_of (s : list Z) : sv_bytes (sv_of s) = Ret s.
Proof.
  unfold sv_bytes, sv_of. simpl.
  pose proof (zlength_nonneg s) as H.
  destruct (Z.leb_spec 0 (zlength s)); [|lia].
  rewrite Z.leb_refl. simpl.
  unfold zlength. rewrite Nat2Z.id, firstn_all. reflexivity.
Qed.

(** ** The comparator of the builder *)

Lemma sv_lt_bytes_ltb (a : list Z) :
  forall b, sv_lt a b = bytes_ltb a b.
Proof.
  unfold sv_lt.
  induction a as [|x a IH]; intros [|y b]; simpl; try reflexivity.
  destruct (Z.ltb_spec x y); [reflexivity|].
  destruct (Z.ltb_spec y x).
  - destruct (Z.eqb_spec x y); [lia|reflexivity].
  - destruct (Z.eqb_spec x y); [|lia]. simpl. apply IH.
Qed.

Lemma sv_compare_sign (a : list Z) :
  forall b, sv_compare a b = -1 \/ sv_compare a b = 0 \/ sv_compare a b = 1.
Proof.
  induction a as [|x a IH]; intros [|y b]; simpl; auto.
  destruct (x <? y); auto. destruct (y <? x); auto.
Qed.

(** A difference found in the prefixes is the difference of the keys. *)
Lemma sv_compare_firstn (n : nat) :
  forall a b,
    sv_compare (firstn n a) (firstn n b) <> 0 ->
    sv_compare (firstn n a) (firstn n b) = sv_compare a b.
Proof.
  induction n as [|n IH]; intros a b Hne.
  - simpl in Hne. contradiction.
  - destruct a as [|x a], b as [|y b]; simpl in *; try reflexivity.
    destruct (x <? y); [reflexivity|].
    destruct (y <? x); [reflexivity|].
    apply IH. exact Hne.
Qed.

Section CompareFacts.
Import WriteOnceBuilder.
Variable raw : list Z.
Variable key_size_max : Z.
Hypothesis raw_small : zlength raw < 2 ^ 63.

Lemma entry_key_length (e : Entry) :
  Entry_invariant raw e -> zlength (entry_key raw e) = key_size e.
Proof.
  intros (Ho & Hk & Hv & Hlen & _). unfold entry_key, slice.
  rewrite zlength_firstn, zlength_skipn by lia. lia.
Qed.

Lemma prefix_bytes (e : Entry) :
  Entry_invariant raw e ->
  sv_bytes {| sv_data := prefix e;
              sv_size := Z.min sizeof_prefix (key_size e) |}
  = Ret (firstn 24 (entry_key raw e)).
Proof.
  intros Hinv. pose proof (entry_key_length e Hinv) as Hlen.
  destruct Hinv as (Ho & Hk & Hv & _ & Hpre).
  unfold sv_bytes, sizeof_prefix. cbn [sv_data sv_size].
  assert (Hz : zlength (prefix e) = Z.min 24 (key_size e)).
  { rewrite Hpre. change 24%nat with (Z.to_nat 24).
    rewrite zlength_firstn by lia. now rewrite Hlen. }
  rewrite Hz.
  destruct (Z.leb_spec 0 (Z.min 24 (key_size e))); [|lia].
  rewrite Z.leb_refl. cbn [andb].
  f_equal. rewrite <- Hz. unfold zlength.
  rewrite Nat2Z.id, firstn_all. exact Hpre.
Qed.

Lemma read_key_ok (e : Entry) :
  Entry_invariant raw e -> key_size e <= key_size_max ->
  read_key raw key_size_max e = Ret (entry_key raw e).
Proof.
  intros Hinv Hmax. pose proof (entry_key_length e Hinv) as Hlen.
  destruct Hinv as (Ho & Hk & Hv & Hin & _).
  unfold read_key, RandomIO.Read.
  destruct (Z.ltb_spec key_size_max (key_size e)); [lia|].
  destruct (Z.leb_spec (2 ^ 63) (offset e)); [lia|].
  fold (slice raw (offset e) (key_size e)). fold (entry_key raw e).
  rewrite Hlen, Z.eqb_refl. reflexivity.
Qed.

Lemma Compare_sv_lt (lhs rhs : Entry) :
  Entry_invariant raw lhs -> Entry_invariant raw rhs ->
  key_size lhs <= key_size_max -> key_size rhs <= key_size_max ->
  Compare raw key_size_max lhs rhs
  = Ret (sv_lt (entry_key raw lhs) (entry_key raw rhs)).
Proof.
  intros Hl Hr Hlm Hrm. unfold Compare.
  rewrite (prefix_bytes lhs Hl), (prefix_bytes rhs Hr). cbn [bind].
  destruct (Z.eqb_spec
              (sv_compare (firstn 24 (entry_key raw lhs))
                          (firstn 24 (entry_key raw rhs))) 0) as [Heq|Hne];
    cbn [negb].
  - rewrite (read_key_ok lhs Hl Hlm), (read_key_ok rhs Hr Hrm). reflexivity.
  - unfold sv_lt. rewrite (sv_compare_firstn 24 _ _ Hne). reflexivity.
Qed.

End CompareFacts.

(** C8. For two entries that satisfy the entry invariant on the spill
    file (which, like any file, is shorter than 2^63 bytes) and whose keys
    fit the comparison buffers, the hybrid comparator [Compare] returns,
    without failing, exactly the byte-wise lexicographic "less than" of the
    two full keys. *)
Theorem Compare_is_bytewise_order
  (raw : list Z) (key_size_max : Z) (lhs rhs : WriteOnceBuilder.Entry) :
  zlength raw < 2 ^ 63 ->
  Entry_invariant raw lhs -> Entry_invariant raw rhs ->
  WriteOnceBuilder.key_size lhs <= key_size_max ->
  WriteOnceBuilder.key_size rhs <= key_size_max ->
  WriteOnceBuilder.Compare raw key_size_max lhs rhs
  = Ret (bytes_ltb (entry_key raw lhs) (entry_key raw rhs)).
Proof.
  intros Hraw Hl Hr Hlm Hrm.
  rewrite (Compare_sv_lt raw key_size_max Hraw lhs rhs Hl Hr Hlm Hrm).
  f_equal. apply sv_lt_bytes_ltb.
Qed.

(** Two keys of 26 bytes that agree on their first 25 bytes: the inline
    prefixes are equal and the spill file decides. *)
Lemma Compare_is_bytewise_order_witness :
  let k1 := repeat 97 25 ++ [98] in
  let k2 := repeat 97 25 ++ [99] in
  let raw := k1 ++ [118] ++ k2 ++ [119] in
  let lhs := {| WriteOnceBuilder.offset := 0;
                WriteOnceBuilder.value_size := 1;
                WriteOnceBuilder.key_size := 26;
                WriteOnceBuilder.prefix := repeat 97 24 |} in
  let rhs := {| WriteOnceBuilder.offset := 27;
                WriteOnceBuilder.value_size := 1;
                WriteOnceBuilder.key_size := 26;
                WriteOnceBuilder.prefix := repeat 97 24 |} in
  WriteOnceBuilder.Compare raw 26 lhs rhs = Ret (bytes_ltb k1 k2) /\
  WriteOnceBuilder.Compare raw 26 rhs lhs = Ret (bytes_ltb k2 k1).
Proof.
  intros k1 k2 raw lhs rhs.
  assert (Hraw : zlength raw < 2 ^ 63) by (vm_compute; reflexivity).
  assert (Hl : Entry_invariant raw lhs)
    by (unfold Entry_invariant; vm_compute; repeat split; congruence).
  assert (Hr : Entry_invariant raw rhs)
    by (unfold Entry_invariant; vm_compute; repeat split; congruence).
  split.
  - apply (Compare_is_bytewise_order raw 26 lhs rhs Hraw Hl Hr);
      vm_compute; congruence.
  - apply (Compare_is_bytewise_order raw 26 rhs lhs Hraw Hr Hl);
      vm_compute; congruence.
Defined.

(** ** The reader: opening a file *)

Lemma version_check_always_passes (v : Z) :
  (v <=? MAJOR_VERSION) || (v >=? 2) = true.
Proof.
  unfold MAJOR_VERSION.
  destruct (Z.leb_spec v 4); [reflexivity|].
  destruct (Z.geb_spec v 2); [reflexivity|lia].
Qed.

Lemma MemoryMap_any_version (file : list Z) (h : CA_wo_header) :
  zlength file > sizeof_CA_wo_header ->
  header_at file = Ret h ->
  magic h = MAGIC ->
  exists tb,
    WriteOnceTable.MemoryMap file = Ret tb /\ WriteOnceTable.header tb = h.
Proof.
  intros Hlen Hhdr Hmagic. unfold WriteOnceTable.MemoryMap.
  destruct (Z.gtb_spec (zlength file) sizeof_CA_wo_header); [|lia].
  cbn [KJ_REQUIRE bind]. rewrite Hhdr. cbn [bind].
  rewrite version_check_always_passes. cbn [KJ_REQUIRE bind].
  rewrite Hmagic, Z.eqb_refl. cbn [KJ_REQUIRE bind].
  eexists. split; reflexivity.
Qed.

(** C6. Opening a file never fails for its [major_version]: a file that
    is longer than the header, carries the magic number and is not
    compressed is opened whatever its version byte is, because the check
    in [MemoryMap] is a disjunction that every number satisfies.  Versions
    2, 3 and 4 are accepted, and so are all others. *)
Theorem open_accepts_every_major_version
  (kTableCompressionLast : Z) (file : list Z) (h : CA_wo_header) :
  zlength file > sizeof_CA_wo_header ->
  header_at file = Ret h ->
  magic h = MAGIC ->
  compression h = kTableCompressionNone ->
  kTableCompressionNone <= kTableCompressionLast ->
  exists tb,
    WriteOnceTable.open kTableCompressionLast file = Ret tb /\
    WriteOnceTable.header tb = h.
Proof.
  intros Hlen Hhdr Hmagic Hcomp Hlast.
  destruct (MemoryMap_any_version file h Hlen Hhdr Hmagic) as (tb & Hmap & <-).
  unfold WriteOnceTable.open. rewrite Hmap. cbn [bind]. rewrite Hcomp.
  destruct (Z.leb_spec kTableCompressionNone kTableCompressionLast); [|lia].
  cbn [KJ_REQUIRE bind]. rewrite Z.eqb_refl. cbn [negb].
  eexists. split; reflexivity.
Qed.

(** A file of format version 5, and one of version 1, are opened. *)
Lemma open_accepts_every_major_version_witness :
  let hdr v := {| magic := MAGIC; major_version := v; minor_version := 0;
                  flags := 0; compression := 0; compression_level := 0;
                  data_reserved := 0; index_offset := 24 |} in
  (exists tb, WriteOnceTable.open 1 (header_bytes (hdr 5) ++ [0])
              = Ret tb /\ WriteOnceTable.header tb = hdr 5) /\
  (exists tb, WriteOnceTable.open 1 (header_bytes (hdr 1) ++ [0])
              = Ret tb /\ WriteOnceTable.header tb = hdr 1).
Proof.
  intros hdr. split.
  - apply (open_accepts_every_major_version 1
             (header_bytes (hdr 5) ++ [0]) (hdr 5));
      vm_compute; congruence.
  - apply (open_accepts_every_major_version 1
             (header_bytes (hdr 1) ++ [0]) (hdr 1));
      vm_compute; congruence.
Defined.

(** ** The reader: point lookup *)

Lemma sv_compare_eq (a : list Z) :
  forall b, sv_compare a b = 0 -> a = b.
Proof.
  induction a as [|x a IH]; intros [|y b]; simpl; intros H;
    try reflexivity; try discriminate.
  destruct (Z.ltb_spec x y); [discriminate|].
  destruct (Z.ltb_spec y x); [discriminate|].
  f_equal; [lia|apply IH; exact H].
Qed.

Lemma sv_compare_refl (a : list Z) : sv_compare a a = 0.
Proof.
  induction a as [|x a IH]; simpl; [reflexivity|].
  rewrite Z.ltb_irrefl. exact IH.
Qed.

Section LookupFacts.
Import WriteOnceTable.
Variable Hash : list Z -> Z.
Variable madvise : Z -> Z -> bool.

Lemma probe_true (fuel : nat) :
  forall tb key hash min_offset max_offset fib0 fib1 collisions tb',
    probe fuel tb key hash min_offset max_offset fib0 fib1 collisions
    = Ret (true, tb') ->
    buffer tb' = buffer tb /\ header tb' = header tb /\
    stored_key_at (buffer tb) (offset_ tb') key.
Proof.
  induction fuel as [|fuel IH];
    intros tb key hash min_offset max_offset fib0 fib1 collisions tb' H.
  - discriminate H.
  - cbn [probe] in H.
    destruct (slot tb hash) as [tmp_offset| | |] eqn:Hslot;
      cbn [bind] in H; try discriminate H.
    destruct (tmp_offset =? 0); [discriminate H|].
    destruct ((tmp_offset >=? min_offset) && (tmp_offset <=? max_offset)).
    + destruct (ptr_at (buffer tb) tmp_offset) as [p| | |] eqn:Hp;
        cbn [bind] in H; try discriminate H.
      destruct (skip_size p) as [data| | |] eqn:Hdata;
        cbn [bind] in H; try discriminate H.
      destruct (c_str data) as [stored| | |] eqn:Hstored;
        cbn [bind] in H; try discriminate H.
      destruct (Z.eqb_spec (sv_compare key stored) 0) as [Hcmp|Hcmp].
      * cbn [bind] in H. injection H as <-.
        apply sv_compare_eq in Hcmp. subst stored.
        cbn [set_offset buffer header offset_].
        repeat split. exists p, data. auto.
      * destruct (sv_compare key stored <? 0); cbn [bind] in H;
          destruct (major_version (header tb) >=? 3);
          try (apply IH in H; exact H);
          destruct (Z.land (u32 (collisions + 1)) 1 =? 0);
          apply IH in H; exact H.
    + cbn [bind] in H.
      destruct (major_version (header tb) >=? 3);
        try (apply IH in H; exact H).
      destruct (Z.land (u32 (collisions + 1)) 1 =? 0);
        apply IH in H; exact H.
Qed.

Lemma SeekToKey_true (fuel : nat) (tb : t) (key : list Z) (tb' : t) :
  SeekToKey Hash madvise fuel tb key = Ret (true, tb') ->
  buffer tb' = buffer tb /\ stored_key_at (buffer tb') (offset_ tb') key.
Proof.
  unfold SeekToKey. intros H.
  assert (Hadv : exists tb1,
             (if has_madvised_index tb then Ret tb else MAdviseIndex madvise tb)
             = Ret tb1 /\ buffer tb1 = buffer tb).
  { destruct (has_madvised_index tb); [eauto|].
    unfold MAdviseIndex in *.
    destruct (madvise _ _); [eauto|discriminate H]. }
  destruct Hadv as (tb1 & Heq & Hbuf). rewrite Heq in H. cbn [bind] in H.
  destruct (index_size tb1 =? 0); [discriminate H|].
  apply probe_true in H. destruct H as (Hb & _ & Hkey).
  rewrite Hb. rewrite <- Hbuf. auto.
Qed.

End LookupFacts.

(** C10. Whenever [SeekToKey (k)] returns true, on any table, with any
    contents of the mapping and of its index region, the cursor stands at
    an offset where, behind the size field, the NUL-terminated stored key
    is byte for byte [k]; the mapping is unchanged. *)
Theorem SeekToKey_true_means_key_found
  (Hash : list Z -> Z) (madvise : Z -> Z -> bool)
  (fuel : nat) (tb : WriteOnceTable.t) (k : list Z) (tb' : WriteOnceTable.t) :
  WriteOnceTable.SeekToKey Hash madvise fuel tb k = Ret (true, tb') ->
  WriteOnceTable.buffer tb' = WriteOnceTable.buffer tb /\
  stored_key_at (WriteOnceTable.buffer tb') (WriteOnceTable.offset_ tb') k.
Proof. apply SeekToKey_true. Qed.

(** A file with one record, key "a" and value "xyz", at offset 24, and an
    index of one slot that holds 24. *)
Lemma SeekToKey_true_means_key_found_witness :
  let file :=
    header_bytes {| magic := MAGIC; major_version := 4; minor_version := 0;
                    flags := 1; compression := 0; compression_level := 0;
                    data_reserved := 0; index_offset := 30 |}
    ++ [5; 97; 0; 120; 121; 122] ++ le_bytes 8 24 in
  exists tb tb',
    WriteOnceTable.open 1 file = Ret tb /\
    WriteOnceTable.SeekToKey (fun _ => 0) (fun _ _ => true) 1 tb [97]
    = Ret (true, tb') /\
    WriteOnceTable.offset_ tb' = 24 /\
    stored_key_at (WriteOnceTable.buffer tb') (WriteOnceTable.offset_ tb') [97].
Proof.
  intros file.
  destruct (WriteOnceTable.open 1 file) as [tb| | |] eqn:Hopen;
    try (vm_compute in Hopen; discriminate Hopen).
  destruct (WriteOnceTable.SeekToKey (fun _ => 0) (fun _ _ => true) 1 tb [97])
    as [[found tb']| | |] eqn:Hseek;
    try (vm_compute in Hopen; injection Hopen as <-;
         vm_compute in Hseek; discriminate Hseek).
  destruct found;
    [|vm_compute in Hopen; injection Hopen as <-;
      vm_compute in Hseek; discriminate Hseek].
  exists tb, tb'. split; [reflexivity|]. split; [exact Hseek|].
  pose proof (SeekToKey_true_means_key_found _ _ _ _ _ _ Hseek) as [_ Hkey].
  split; [|exact Hkey].
  vm_compute in Hopen. injection Hopen as <-.
  vm_compute in Hseek. injection Hseek as <-. reflexivity.
Defined.

(** ** Slices of files *)

Lemma slice_app_l (file more : list Z) (off n : Z) :
  0 <= off -> 0 <= n -> off + n <= zlength file ->
  slice (file ++ more) off n = slice file off n.
Proof.
  intros Hoff Hn Hle. unfold slice, zlength in *.
  rewrite skipn_app, firstn_app, length_skipn.
  replace (Z.to_nat n - (length file - Z.to_nat off))%nat with 0%nat by lia.
  rewrite firstn_O, app_nil_r. reflexivity.
Qed.

Lemma slice_app_r (file s more : list Z) :
  slice (file ++ s ++ more) (zlength file) (zlength s) = s.
Proof.
  unfold slice, zlength. rewrite !Nat2Z.id.
  rewrite skipn_app, skipn_all, Nat.sub_diag. simpl.
  rewrite firstn_app, firstn_all, Nat.sub_diag, firstn_O.
  apply app_nil_r.
Qed.

Lemma slice_length (file : list Z) (off n : Z) :
  0 <= off -> 0 <= n -> off + n <= zlength file ->
  zlength (slice file off n) = n.
Proof.
  intros Hoff Hn Hle. unfold slice.
  rewrite zlength_firstn, zlength_skipn by lia. lia.
Qed.

Lemma firstn_add {A : Type} (n m : nat) :
  forall l : list A, firstn (n + m) l = firstn n l ++ firstn m (skipn n l).
Proof.
  induction n as [|n IH]; intros [|x l]; simpl; try reflexivity.
  - now rewrite firstn_nil.
  - f_equal. apply IH.
Qed.

Lemma slice_split (file : list Z) (off n m : Z) :
  0 <= off -> 0 <= n -> 0 <= m ->
  slice file off (n + m) = slice file off n ++ slice file (off + n) m.
Proof.
  intros Hoff Hn Hm. unfold slice.
  rewrite !Z2Nat.inj_add by lia.
  rewrite firstn_add, skipn_skipn, Nat.add_comm. reflexivity.
Qed.

(** ** Ingestion *)

Lemma flat_app (r1 r2 : list (list Z * list Z)) :
  flat (r1 ++ r2) = flat r1 ++ flat r2.
Proof. unfold flat. now rewrite map_app, concat_app. Qed.

Lemma flat_snoc (rows : list (list Z * list Z)) (k v : list Z) :
  flat (rows ++ [(k, v)]) = flat rows ++ k ++ v.
Proof. rewrite flat_app. unfold flat. simpl. now rewrite app_nil_r. Qed.

Lemma Entry_invariant_app (raw more : list Z) (e : WriteOnceBuilder.Entry) :
  Entry_invariant raw e ->
  Entry_invariant (raw ++ more) e /\
  entry_row (raw ++ more) e = entry_row raw e.
Proof.
  intros (Ho & Hk & Hv & Hle & Hpre).
  assert (Hkey : entry_key (raw ++ more) e = entry_key raw e)
    by (apply slice_app_l; lia).
  assert (Hval : entry_value (raw ++ more) e = entry_value raw e)
    by (apply slice_app_l; lia).
  split.
  - unfold Entry_invariant. rewrite Hkey, zlength_app.
    pose proof (zlength_nonneg more). repeat split; try lia. exact Hpre.
  - unfold entry_row. now rewrite Hkey, Hval.
Qed.

Ltac inv_bind H :=
  match type of H with
  | bind ?c _ = Ret _ =>
      let E := fresh "E" in
      destruct c eqn:E; cbn [bind] in H; try discriminate H
  end.

Section IngestFacts.
Import WriteOnceBuilder.

Lemma firstn_prefix (k : list Z) :
  sv_bytes {| sv_data := k; sv_size := Z.min sizeof_prefix (zlength k) |}
  = Ret (firstn 24 k).
Proof.
  unfold sv_bytes, sizeof_prefix. cbn [sv_data sv_size].
  pose proof (zlength_nonneg k).
  destruct (Z.leb_spec 0 (Z.min 24 (zlength k))); [|lia].
  destruct (Z.leb_spec (Z.min 24 (zlength k)) (zlength k)); [|lia].
  cbn [andb]. f_equal.
  destruct (Z.le_gt_cases 24 (zlength k)).
  - rewrite Z.min_l by lia. reflexivity.
  - rewrite Z.min_r by lia. unfold zlength in *.
    rewrite Nat2Z.id, firstn_all. symmetry. apply firstn_all2. lia.
Qed.

(** What a successful [InsertRow] has checked and done. *)
Lemma InsertRow_inv (b b' : t) (k v : list Z) :
  InsertRow b k v = Ret b' ->
  0 < zlength k <= UINT32_MAX /\ 0 < zlength v <= UINT32_MAX /\
  b' = set_raw
         (set_index b
            (index_ b ++ [{| offset := offset_ b; value_size := zlength v;
                             key_size := zlength k; prefix := firstn 24 k |}])
            (u64 (offset_ b + (zlength k + zlength v)))
            (if key_size_max_ b <? zlength k then zlength k
             else key_size_max_ b))
         ((raw_stream_ b ++ k) ++ v) (raw_fd_ b).
Proof.
  unfold InsertRow, Add, AddEntry. intros H.
  cbn [sv_of sv_size sv_data] in H.
  destruct (Z.leb_spec (zlength k) UINT32_MAX) as [Hku|];
    cbn [KJ_REQUIRE bind] in H; [|discriminate H].
  destruct (Z.leb_spec (zlength v) UINT32_MAX) as [Hvu|];
    cbn [KJ_REQUIRE bind] in H; [|discriminate H].
  rewrite firstn_prefix in H. cbn [bind] in H.
  unfold WriteEntryData, fwrite1 in H.
  cbn [sv_of sv_size sv_data set_index raw_stream_ raw_fd_] in H.
  pose proof (zlength_nonneg k). pose proof (zlength_nonneg v).
  destruct (Z.eqb_spec (zlength k) 0) as [Hk0|Hk0];
    [cbn [bind] in H; rewrite Z.eqb_refl in H; discriminate H|].
  fold (sv_of k) in H. rewrite sv_bytes_of in H. cbn [bind] in H.
  change (1 =? 0) with false in H. cbv iota in H.
  destruct (Z.eqb_spec (zlength v) 0) as [Hv0|Hv0];
    [cbn [bind] in H; rewrite Z.eqb_refl in H; discriminate H|].
  fold (sv_of v) in H. rewrite sv_bytes_of in H. cbn [bind] in H.
  change (1 =? 0) with false in H. cbv iota in H.
  injection H as <-.
  repeat split; try lia.
Qed.

(** [InsertRow] succeeds on keys and values that are not empty and not
    longer than a [uint32_t] can tell. *)
Lemma InsertRow_total (b : t) (k v : list Z) :
  0 < zlength k <= UINT32_MAX -> 0 < zlength v <= UINT32_MAX ->
  exists b', InsertRow b k v = Ret b'.
Proof.
  intros Hk Hv. unfold InsertRow, Add, AddEntry.
  cbn [sv_of sv_size sv_data].
  destruct (Z.leb_spec (zlength k) UINT32_MAX); [|lia].
  destruct (Z.leb_spec (zlength v) UINT32_MAX); [|lia].
  cbn [KJ_REQUIRE bind]. rewrite firstn_prefix. cbn [bind].
  unfold WriteEntryData, fwrite1.
  cbn [sv_of sv_size sv_data set_index raw_stream_ raw_fd_].
  destruct (Z.eqb_spec (zlength k) 0); [lia|].
  fold (sv_of k). rewrite sv_bytes_of. cbn [bind].
  change (1 =? 0) with false. cbv iota.
  destruct (Z.eqb_spec (zlength v) 0); [lia|].
  fold (sv_of v). rewrite sv_bytes_of. cbn [bind].
  change (1 =? 0) with false. cbv iota.
  eexists. reflexivity.
Qed.

Lemma InsertRows_total (rows : list (list Z * list Z)) :
  Forall (fun r => 0 < zlength (fst r) <= UINT32_MAX /\
                   0 < zlength (snd r) <= UINT32_MAX) rows ->
  forall b, exists b', InsertRows b rows = Ret b'.
Proof.
  induction 1 as [|[k v] rows [Hk Hv] _ IH]; intros b.
  - exists b. reflexivity.
  - cbn [InsertRows]. cbn [fst snd] in Hk, Hv.
    destruct (InsertRow_total b k v Hk Hv) as (b1 & ->). cbn [bind]. apply IH.
Qed.

Lemma InsertRow_ingested (b b' : t) (rows : list (list Z * list Z))
  (k v : list Z) :
  ingested b rows ->
  zlength (flat (rows ++ [(k, v)])) < 2 ^ 64 ->
  InsertRow b k v = Ret b' ->
  ingested b' (rows ++ [(k, v)]) /\
  options_ b' = options_ b /\ compression_ b' = compression_ b.
Proof.
  intros (Hraw & Hoff & Hrows & Hinv & Hmax) Hlt H.
  apply InsertRow_inv in H. destruct H as (Hk & Hv & ->).
  rewrite flat_snoc in *. rewrite !zlength_app in Hlt.
  pose proof (zlength_nonneg (flat rows)) as Hnn.
  split; [|split; reflexivity].
  unfold ingested. rewrite !flat_snoc.
  cbn [set_raw set_index raw_stream_ offset_ index_ key_size_max_].
  rewrite Hraw, Hoff, <- app_assoc.
  set (raw := flat rows) in *.
  set (e := {| offset := zlength raw; value_size := zlength v;
               key_size := zlength k; prefix := firstn 24 k |}).
  assert (Hekey : entry_key (raw ++ k ++ v) e = k)
    by (apply slice_app_r).
  assert (Heval : entry_value (raw ++ k ++ v) e = v).
  { unfold entry_value, e. cbn [offset key_size value_size].
    replace (raw ++ k ++ v) with ((raw ++ k) ++ v ++ [])
      by (rewrite app_nil_r, app_assoc; reflexivity).
    rewrite <- zlength_app. apply slice_app_r. }
  split; [reflexivity|]. split.
  { unfold u64. rewrite Z.mod_small by lia. rewrite !zlength_app. lia. }
  split.
  { rewrite map_app. f_equal.
    - transitivity (map (entry_row raw) (index_ b)); [|exact Hrows].
      apply map_ext_in. intros e' Hin.
      rewrite Forall_forall in Hinv.
      apply (Entry_invariant_app raw (k ++ v) e' (Hinv e' Hin)).
    - simpl. unfold entry_row. now rewrite Hekey, Heval. }
  split.
  { apply Forall_app. split.
    - eapply Forall_impl; [|exact Hinv].
      intros e' He'. apply (Entry_invariant_app raw (k ++ v) e' He').
    - constructor; [|constructor].
      unfold Entry_invariant. rewrite Hekey. unfold e.
      cbn [offset key_size value_size prefix].
      rewrite !zlength_app. repeat split; lia. }
  apply Forall_app. split.
  - eapply Forall_impl; [|exact Hmax].
    cbv beta. intros e' (H1 & H2 & H3).
    destruct (Z.ltb_spec (key_size_max_ b) (zlength k)); repeat split; lia.
  - constructor; [|constructor]. unfold e. cbn [key_size value_size].
    destruct (Z.ltb_spec (key_size_max_ b) (zlength k)); repeat split; lia.
Qed.

Lemma InsertRows_ingested (rows : list (list Z * list Z)) :
  forall (b b' : t) (rows0 : list (list Z * list Z)),
    ingested b rows0 ->
    zlength (flat (rows0 ++ rows)) < 2 ^ 64 ->
    InsertRows b rows = Ret b' ->
    ingested b' (rows0 ++ rows) /\
    options_ b' = options_ b /\ compression_ b' = compression_ b.
Proof.
  induction rows as [|[k v] rows IH]; intros b b' rows0 Hing Hlt H.
  - simpl in H. injection H as <-. rewrite app_nil_r. auto.
  - cbn [InsertRows] in H. inv_bind H.
    replace (rows0 ++ (k, v) :: rows) with ((rows0 ++ [(k, v)]) ++ rows) in *
      by (rewrite <- app_assoc; reflexivity).
    destruct (InsertRow_ingested b a rows0 k v Hing) as (Hing' & Ho & Hc);
      [|exact E|].
    { rewrite flat_app, zlength_app in Hlt.
      pose proof (zlength_nonneg (flat rows)). lia. }
    destruct (IH a b' (rows0 ++ [(k, v)]) Hing' Hlt H) as (Hfin & Ho' & Hc').
    split; [exact Hfin|]. split; congruence.
Qed.

Lemma ingested_nil (b : t) :
  raw_stream_ b = [] -> offset_ b = 0 -> index_ b = [] -> ingested b [].
Proof.
  intros Hr Ho Hi. unfold ingested. rewrite Hr, Ho, Hi.
  repeat split; constructor.
Qed.

End IngestFacts.

(** ** The stable sort *)

Section SortFacts.
Context {A : Type}.
Variable lt : A -> A -> bool.

Lemma insert_by_perm (x : A) (l : list A) :
  Permutation (insert_by lt x l) (x :: l).
Proof.
  induction l as [|y l IH]; simpl; [reflexivity|].
  destruct (lt y x); [|reflexivity].
  rewrite IH. apply perm_swap.
Qed.

Lemma sort_by_perm (l : list A) : Permutation (sort_by lt l) l.
Proof.
  induction l as [|x l IH]; simpl; [reflexivity|].
  rewrite insert_by_perm. now constructor.
Qed.

Lemma insert_sorted_pure (comp : A -> A -> result bool) (x : A) (l : list A) :
  (forall y, In y l -> comp y x = Ret (lt y x)) ->
  insert_sorted comp x l = Ret (insert_by lt x l).
Proof.
  induction l as [|y l IH]; intros Hc; simpl; [reflexivity|].
  rewrite (Hc y (or_introl eq_refl)). cbn [bind].
  destruct (lt y x); [|reflexivity].
  rewrite IH by (intros z Hz; apply Hc; now right). reflexivity.
Qed.

Lemma stable_sort_pure (comp : A -> A -> result bool) (l : list A) :
  (forall a b, In a l -> In b l -> comp a b = Ret (lt a b)) ->
  stable_sort comp l = Ret (sort_by lt l).
Proof.
  induction l as [|x l IH]; intros Hc; simpl; [reflexivity|].
  rewrite IH by (intros a b Ha Hb; apply Hc; now right). cbn [bind].
  apply insert_sorted_pure. intros y Hy. apply Hc; [right|now left].
  eapply Permutation_in; [apply sort_by_perm|exact Hy].
Qed.

Hypothesis lt_asym : forall a b, lt a b = true -> lt b a = false.

Lemma insert_by_sorted (x : A) (l : list A) :
  Sorted (fun a b => lt b a = false) l ->
  Sorted (fun a b => lt b a = false) (insert_by lt x l).
Proof.
  induction l as [|y l IH]; intros Hs; simpl.
  - repeat constructor.
  - destruct (lt y x) eqn:Hyx.
    + inversion Hs as [|? ? Hs' Hhd]; subst.
      constructor; [apply IH; exact Hs'|].
      destruct l as [|z l]; simpl.
      * constructor. apply lt_asym. exact Hyx.
      * destruct (lt z x).
        -- inversion Hhd; subst. now constructor.
        -- constructor. apply lt_asym. exact Hyx.
    + constructor; [exact Hs|]. constructor. exact Hyx.
Qed.

Lemma sort_by_sorted (l : list A) :
  Sorted (fun a b => lt b a = false) (sort_by lt l).
Proof.
  induction l as [|x l IH]; simpl; [constructor|].
  apply insert_by_sorted. exact IH.
Qed.

End SortFacts.

(** ** The order of keys *)

Lemma sv_compare_antisym (a : list Z) :
  forall b, sv_compare b a = - sv_compare a b.
Proof.
  induction a as [|x a IH]; intros [|y b]; simpl; try reflexivity.
  destruct (Z.ltb_spec x y), (Z.ltb_spec y x); try reflexivity; try lia.
  apply IH.
Qed.

Lemma sv_lt_asym (a b : list Z) : sv_lt a b = true -> sv_lt b a = false.
Proof.
  unfold sv_lt. rewrite (sv_compare_antisym a b).
  intros H. apply Z.ltb_lt in H. apply Z.ltb_ge. lia.
Qed.

Lemma sv_lt_false_key_le (a b : list Z) : sv_lt b a = false -> key_le a b.
Proof.
  unfold sv_lt, key_le. rewrite (sv_compare_antisym a b).
  intros H. apply Z.ltb_ge in H. lia.
Qed.

Lemma key_le_trans (a : list Z) :
  forall b c, key_le a b -> key_le b c -> key_le a c.
Proof.
  unfold key_le.
  induction a as [|x a IH]; intros [|y b] [|z c]; simpl; try lia.
  destruct (Z.ltb_spec x y), (Z.ltb_spec y x), (Z.ltb_spec y z),
    (Z.ltb_spec z y), (Z.ltb_spec x z), (Z.ltb_spec z x);
    try lia; apply IH.
Qed.

Lemma Sorted_map_filter {A : Type} (key : A -> list Z) (keep : A -> bool)
  (l : list A) :
  Sorted (fun a b => key_le (key a) (key b)) l ->
  Sorted key_le (map key (filter keep l)).
Proof.
  intros Hs. apply Sorted_StronglySorted in Hs;
    [|intros a b c; apply key_le_trans].
  apply StronglySorted_Sorted.
  induction Hs as [|x l Hs IH Hall]; simpl; [constructor|].
  destruct (keep x); [|exact IH].
  simpl. constructor; [exact IH|].
  apply Forall_map. apply Forall_forall. intros y Hy.
  apply filter_In in Hy. rewrite Forall_forall in Hall.
  apply Hall. tauto.
Qed.

Lemma Permutation_filter {A : Type} (keep : A -> bool) (l l' : list A) :
  Permutation l l' -> Permutation (filter keep l) (filter keep l').
Proof.
  induction 1 as [|x l l' _ IH|x y l|l l' l'' _ IH1 _ IH2]; simpl.
  - constructor.
  - destruct (keep x); [now constructor|exact IH].
  - destruct (keep x), (keep y); try reflexivity. apply perm_swap.
  - now transitivity (filter keep l').
Qed.

(** [SortEntries] on a builder that holds the rows [rows], once the spill
    stream has been flushed. *)
Lemma SortEntries_ingested (b : WriteOnceBuilder.t)
  (rows : list (list Z * list Z)) :
  ingested b rows ->
  WriteOnceBuilder.raw_fd_ b = flat rows ->
  zlength (flat rows) < 2 ^ 63 ->
  exists sorted,
    WriteOnceBuilder.SortEntries b
    = Ret (WriteOnceBuilder.set_index b sorted (WriteOnceBuilder.offset_ b)
             (WriteOnceBuilder.key_size_max_ b)) /\
    Permutation sorted (WriteOnceBuilder.index_ b) /\
    Sorted (fun e1 e2 => key_le (entry_key (flat rows) e1)
                                (entry_key (flat rows) e2)) sorted.
Proof.
  intros (_ & _ & _ & Hinv & Hmax) Hfd Hlt.
  set (raw := flat rows) in *.
  set (lt := fun e1 e2 => sv_lt (entry_key raw e1) (entry_key raw e2)).
  exists (sort_by lt (WriteOnceBuilder.index_ b)).
  split; [|split].
  - unfold WriteOnceBuilder.SortEntries. rewrite Hfd.
    rewrite (stable_sort_pure lt); [reflexivity|].
    intros e1 e2 H1 H2. rewrite Forall_forall in Hinv, Hmax.
    apply Compare_sv_lt; auto; apply Hmax; assumption.
  - apply sort_by_perm.
  - eapply Sorted_ind with
      (P := fun l => Sorted (fun e1 e2 => key_le (entry_key raw e1)
                                                  (entry_key raw e2)) l);
      [constructor| |apply (sort_by_sorted lt)].
    + intros e l _ IH Hhd. constructor; [exact IH|].
      destruct Hhd; constructor. apply sv_lt_false_key_le. assumption.
    + intros e1 e2. apply sv_lt_asym.
Qed.

(** ** Emission of the blocks *)

Lemma u32_small (n : Z) : 0 <= n < 2 ^ 32 -> u32 n = n.
Proof. intros H. unfold u32. apply Z.mod_small. exact H. Qed.

Lemma firstn_app_exact {A : Type} (l1 l2 : list A) (n : Z) :
  zlength l1 = n -> firstn (Z.to_nat n) (l1 ++ l2) = l1.
Proof.
  intros <-. unfold zlength. rewrite Nat2Z.id.
  rewrite firstn_app, firstn_all, Nat.sub_diag, firstn_O. apply app_nil_r.
Qed.

Lemma skipn_app_exact {A : Type} (l1 l2 : list A) (n : Z) :
  zlength l1 = n -> skipn (Z.to_nat n) (l1 ++ l2) = l2.
Proof.
  intros <-. unfold zlength. rewrite Nat2Z.id.
  rewrite skipn_app, skipn_all, Nat.sub_diag. reflexivity.
Qed.

Lemma sv_bytes_exact (data s more : list Z) (n : Z) :
  data = s ++ more -> zlength s = n ->
  sv_bytes {| sv_data := data; sv_size := n |} = Ret s.
Proof.
  intros -> Hn. unfold sv_bytes. cbn [sv_data sv_size].
  pose proof (zlength_nonneg s). pose proof (zlength_nonneg more).
  rewrite zlength_app.
  destruct (Z.leb_spec 0 n); [|lia].
  destruct (Z.leb_spec n (zlength s + zlength more)); [|lia].
  cbn [andb]. now rewrite firstn_app_exact.
Qed.

Lemma block_data_size_snoc (g : list (list Z * list Z)) (k v : list Z) :
  block_data_size (g ++ [(k, v)]) = block_data_size g + zlength k + zlength v.
Proof.
  unfold block_data_size. rewrite !map_app, !concat_app, !zlength_app.
  simpl. rewrite !app_nil_r. lia.
Qed.

Lemma block_data_size_nonneg (g : list (list Z * list Z)) :
  0 <= block_data_size g.
Proof.
  unfold block_data_size.
  pose proof (zlength_nonneg (concat (map fst g))).
  pose proof (zlength_nonneg (concat (map snd g))). lia.
Qed.

Lemma block_of_rows_snoc (g : list (list Z * list Z)) (k v : list Z) :
  block_of_rows (g ++ [(k, v)])
  = {| WriteOnceBlock.key_size_ :=
         WriteOnceBlock.key_size_ (block_of_rows g) ++ [zlength k];
       WriteOnceBlock.key_data_ :=
         WriteOnceBlock.key_data_ (block_of_rows g) ++ k;
       WriteOnceBlock.value_size_ :=
         WriteOnceBlock.value_size_ (block_of_rows g) ++ [zlength v];
       WriteOnceBlock.value_data_ :=
         WriteOnceBlock.value_data_ (block_of_rows g) ++ v |}.
Proof.
  unfold block_of_rows. cbn [WriteOnceBlock.key_size_ WriteOnceBlock.key_data_
    WriteOnceBlock.value_size_ WriteOnceBlock.value_data_].
  rewrite !map_app, !concat_app. simpl. rewrite !app_nil_r. reflexivity.
Qed.

(** [Add] on a block that holds the rows [g], for views of the key [k]
    and the value [v]. *)
Lemma Block_Add_rows (g : list (list Z * list Z)) (key value : string_view)
  (k v : list Z) :
  sv_bytes key = Ret k -> sv_bytes value = Ret v ->
  sv_size key = zlength k -> sv_size value = zlength v ->
  WriteOnceBlock.Add (block_of_rows g) key value
  = if block_data_size g + zlength k + zlength v >? kBlockSizeMax
    then Ret (false, block_of_rows g)
    else Ret (true, block_of_rows (g ++ [(k, v)])).
Proof.
  intros Hk Hv Hks Hvs. unfold WriteOnceBlock.Add.
  rewrite Hks, Hvs.
  replace (zlength (WriteOnceBlock.key_data_ (block_of_rows g)) + zlength k
           + (zlength (WriteOnceBlock.value_data_ (block_of_rows g))
              + zlength v))
    with (block_data_size g + zlength k + zlength v)
    by (unfold block_data_size, block_of_rows; simpl; lia).
  destruct (Z.gtb_spec (block_data_size g + zlength k + zlength v)
              kBlockSizeMax) as [Hgt|Hle]; [reflexivity|].
  rewrite Hk, Hv. cbn [bind].
  pose proof (block_data_size_nonneg g).
  pose proof (zlength_nonneg k). pose proof (zlength_nonneg v).
  assert (kBlockSizeMax < 2 ^ 32) by (vm_compute; reflexivity).
  rewrite !u32_small by lia.
  now rewrite block_of_rows_snoc.
Qed.

(** [Add] refuses a pair of views whose sizes exceed a block, whatever
    is behind the views. *)
Lemma Block_Add_too_big (blk : WriteOnceBlock.t) (key value : string_view) :
  sv_size key + sv_size value > kBlockSizeMax ->
  WriteOnceBlock.Add blk key value = Ret (false, blk).
Proof.
  intros Hbig. unfold WriteOnceBlock.Add.
  pose proof (zlength_nonneg (WriteOnceBlock.key_data_ blk)).
  pose proof (zlength_nonneg (WriteOnceBlock.value_data_ blk)).
  destruct (Z.gtb_spec
              (zlength (WriteOnceBlock.key_data_ blk) + sv_size key
               + (zlength (WriteOnceBlock.value_data_ blk) + sv_size value))
              kBlockSizeMax); [reflexivity|lia].
Qed.

Section EmitFacts.
Import WriteOnceBuilder.
Variable value_encode : Z -> list Z.

Lemma Marshal_nil : WriteOnceBlock.Marshal value_encode (block_of_rows []) = [].
Proof. reflexivity. Qed.

Lemma Marshal_nonempty (g : list (list Z * list Z)) :
  g <> [] ->
  (zlength (WriteOnceBlock.Marshal value_encode (block_of_rows g)) =? 0)
  = false.
Proof.
  destruct g as [|r g]; [congruence|]. intros _.
  unfold WriteOnceBlock.Marshal, block_of_rows.
  cbn [WriteOnceBlock.key_size_ map].
  rewrite zlength_cons.
  pose proof (zlength_nonneg (map (fun r0 => zlength (fst r0)) g)).
  destruct (Z.eqb_spec
              (zlength (map (fun r0 => zlength (fst r0)) g) + 1) 0); [lia|].
  apply Z.eqb_neq. unfold zlength.
  rewrite !length_app. cbn [concat le_bytes map].
  rewrite !length_app. cbn [length]. lia.
Qed.

Lemma index_of_groups_snoc (done : list (list (list Z * list Z)))
  (g : list (list Z * list Z)) :
  index_of_groups value_encode (done ++ [g])
  = WriteOnceIndex.Add (index_of_groups value_encode done)
      (zlength (WriteOnceBlock.Marshal value_encode (block_of_rows g)))
      (fst (last g ([], []))).
Proof. unfold index_of_groups. now rewrite fold_left_app. Qed.

Lemma blocks_bytes_snoc (done : list (list (list Z * list Z)))
  (g : list (list Z * list Z)) :
  blocks_bytes value_encode (done ++ [g])
  = blocks_bytes value_encode done
    ++ WriteOnceBlock.Marshal value_encode (block_of_rows g).
Proof.
  unfold blocks_bytes. rewrite map_app, concat_app. simpl.
  now rewrite app_nil_r.
Qed.

End EmitFacts.

Section EmitLoop.
Import WriteOnceBuilder.
Variable value_encode : Z -> list Z.
Variables hdr raw : list Z.

Lemma entry_row_sizes (e : Entry) :
  Entry_invariant raw e ->
  zlength (entry_key raw e) = key_size e /\
  zlength (entry_value raw e) = value_size e /\
  row_size (entry_row raw e) = key_size e + value_size e /\
  slice raw (offset e) (key_size e + value_size e)
  = entry_key raw e ++ entry_value raw e.
Proof.
  intros (Ho & Hk & Hv & Hle & _).
  assert (H1 : zlength (entry_key raw e) = key_size e)
    by (apply slice_length; lia).
  assert (H2 : zlength (entry_value raw e) = value_size e)
    by (apply slice_length; lia).
  repeat split; try assumption.
  - unfold row_size, entry_row. cbn [fst snd]. lia.
  - apply slice_split; lia.
Qed.

Lemma Read_slice (off n : Z) (buffer : list Z) :
  RandomIO.Read raw off n = Ret buffer ->
  buffer = slice raw off n /\ zlength buffer = n.
Proof.
  unfold RandomIO.Read. destruct (2 ^ 63 <=? off); [discriminate|].
  fold (slice raw off n).
  destruct (Z.eqb_spec (zlength (slice raw off n)) n); [|discriminate].
  intros H. injection H as <-. auto.
Qed.

Lemma emit_entry_step (done : list (list (list Z * list Z)))
  (cur : list (list Z * list Z)) (l l' : locals) (b b' : t) (e : Entry) :
  emitting value_encode hdr raw done cur (l, b) ->
  Entry_invariant raw e ->
  key_size e <= UINT32_MAX -> value_size e <= UINT32_MAX ->
  emit_entry value_encode (l, b) e = Ret (l', b') ->
  exists done' cur',
    emitting value_encode hdr raw done' cur' (l', b') /\
    concat done' ++ cur'
    = concat done ++ cur
      ++ (if small (entry_row raw e) then [entry_row raw e] else []) /\
    large_count l'
    = large_count l + (if small (entry_row raw e) then 0 else 1).
Proof.
  intros Hinv He Hku Hvu H.
  destruct (entry_row_sizes e He) as (Hklen & Hvlen & Hsize & Hsplit).
  pose proof He as (Ho & Hk & Hv & Hle & _).
  destruct Hinv as (Hraw & Hfd & Hidx & Hblk & Hlast & Hdone & Hcur).
  cbn [fst snd] in *.
  assert (Hlimit : kEntrySizeLimit <= kBlockSizeMax)
    by (vm_compute; discriminate).
  assert (Hmax32 : kBlockSizeMax < 2 ^ 32) by (vm_compute; reflexivity).
  unfold emit_entry in H.
  destruct (Z.gtb_spec (u32 (key_size e + value_size e)) kEntrySizeLimit)
    as [Hlarge|Hsmall].
  - (* counted as large *)
    injection H as <- <-. exists done, cur.
    assert (Hns : small (entry_row raw e) = false).
    { unfold small. rewrite Hsize. apply Z.leb_gt.
      pose proof (Z.mod_le (key_size e + value_size e) (2 ^ 32)).
      unfold u32 in Hlarge. lia. }
    rewrite Hns, app_nil_r. split; [|split; reflexivity].
    unfold emitting. cbn [fst snd index block last_key]. auto 10.
  - rewrite Hraw in H.
    destruct (RandomIO.Read raw (offset e) (u32 (key_size e + value_size e)))
      as [buffer| | |] eqn:Hread; cbn [bind] in H; try discriminate H.
    destruct (Z_lt_dec (key_size e + value_size e) (2 ^ 32)) as [Hnowrap|Hwrap].
    + (* the entry goes into a block *)
      rewrite u32_small in Hread, Hsmall by lia.
      apply Read_slice in Hread. destruct Hread as (Hbuf & _).
      rewrite Hsplit in Hbuf.
      set (k := entry_key raw e) in *. set (v := entry_value raw e) in *.
      assert (Hkey : sv_bytes {| sv_data := buffer; sv_size := key_size e |}
                     = Ret k)
        by (apply (sv_bytes_exact buffer k v); assumption).
      assert (Hval : sv_bytes
                       {| sv_data := skipn (Z.to_nat (key_size e)) buffer;
                          sv_size := value_size e |} = Ret v).
      { apply (sv_bytes_exact _ v []); [|assumption].
        rewrite Hbuf, skipn_app_exact by assumption.
        now rewrite app_nil_r. }
      assert (Hs : small (entry_row raw e) = true)
        by (unfold small; rewrite Hsize; apply Z.leb_le; lia).
      rewrite Hs, Hblk in *.
      rewrite (Block_Add_rows cur _ _ k v Hkey Hval) in H
        by (cbn [sv_size]; congruence).
      destruct (Z.gtb_spec (block_data_size cur + zlength k + zlength v)
                  kBlockSizeMax) as [Hfull|Hfits]; cbn [bind] in H.
      * (* the block is full: it is written and a new one is begun *)
        assert (Hne : cur <> []).
        { intros ->. unfold block_data_size in Hfull. simpl in Hfull.
          change (zlength (@nil Z)) with 0 in Hfull. lia. }
        unfold WriteBlock in H. rewrite (Marshal_nonempty _ cur Hne) in H.
        unfold WriteOnceBlock.Clear in H.
        change WriteOnceBlock.empty with (block_of_rows []) in H.
        rewrite (Block_Add_rows [] _ _ k v Hkey Hval) in H
          by (cbn [sv_size]; congruence).
        change (block_data_size []) with 0 in H.
        destruct (Z.gtb_spec (0 + zlength k + zlength v) kBlockSizeMax);
          [lia|].
        cbn [bind app] in H. rewrite Hkey in H. cbn [bind] in H.
        injection H as <- <-.
        exists (done ++ [cur]), [(k, v)].
        split; [|split].
        -- unfold emitting.
           cbn [fst snd index block last_key Write set_fd fd_ raw_fd_ last].
           rewrite index_of_groups_snoc, blocks_bytes_snoc, Hfd, Hidx.
           rewrite (Hlast Hne), app_assoc.
           repeat split; try assumption; try reflexivity.
           ++ apply Forall_app. split; [exact Hdone|].
              constructor; [split; assumption|constructor].
           ++ unfold block_data_size. cbn [map concat fst snd].
              rewrite !app_nil_r. lia.
        -- rewrite concat_app. simpl. now rewrite app_nil_r, <- app_assoc.
        -- cbn [large_count]. lia.
      * (* the entry joins the block under construction *)
        rewrite Hkey in H. cbn [bind] in H. injection H as <- <-.
        exists done, (cur ++ [(k, v)]).
        split; [|split].
        -- unfold emitting. cbn [fst snd index block last_key].
           rewrite last_last, block_data_size_snoc.
           repeat split; try assumption; try reflexivity.
        -- reflexivity.
        -- cbn [large_count]. lia.
    + (* sizes that wrap around: no block takes the entry *)
      rewrite Block_Add_too_big in H by (cbn [sv_size]; lia).
      cbn [bind] in H.
      destruct (WriteBlock value_encode b (block l) (index l) (last_key l))
        as [[w i] b1].
      rewrite Block_Add_too_big in H by (cbn [sv_size]; lia).
      cbn [bind] in H. discriminate H.
Qed.

(** An entry whose sizes do not wrap around is either skipped or taken
    by a block: the iteration does not fail. *)
Lemma emit_entry_total (done : list (list (list Z * list Z)))
  (cur : list (list Z * list Z)) (l : locals) (b : t) (e : Entry) :
  emitting value_encode hdr raw done cur (l, b) ->
  Entry_invariant raw e ->
  zlength raw < 2 ^ 63 ->
  key_size e + value_size e < 2 ^ 32 ->
  exists l' b', emit_entry value_encode (l, b) e = Ret (l', b').
Proof.
  intros Hinv He Hraw63 Hnowrap.
  destruct (entry_row_sizes e He) as (Hklen & Hvlen & Hsize & Hsplit).
  pose proof He as (Ho & Hk & Hv & Hle & _).
  destruct Hinv as (Hraw & _ & _ & Hblk & _ & _ & Hcur).
  cbn [fst snd] in *.
  assert (Hlimit : kEntrySizeLimit <= kBlockSizeMax)
    by (vm_compute; discriminate).
  unfold emit_entry. rewrite u32_small by lia.
  destruct (Z.gtb_spec (key_size e + value_size e) kEntrySizeLimit);
    [eexists; eexists; reflexivity|].
  rewrite Hraw.
  assert (Hread : RandomIO.Read raw (offset e) (key_size e + value_size e)
                  = Ret (entry_key raw e ++ entry_value raw e)).
  { unfold RandomIO.Read.
    destruct (Z.leb_spec (2 ^ 63) (offset e)); [lia|].
    fold (slice raw (offset e) (key_size e + value_size e)).
    rewrite slice_length by lia. rewrite Z.eqb_refl, Hsplit. reflexivity. }
  rewrite Hread. cbn [bind].
  set (k := entry_key raw e) in *. set (v := entry_value raw e) in *.
  assert (Hkey : sv_bytes {| sv_data := k ++ v; sv_size := key_size e |}
                 = Ret k)
    by (apply (sv_bytes_exact (k ++ v) k v); auto).
  assert (Hval : sv_bytes
                   {| sv_data := skipn (Z.to_nat (key_size e)) (k ++ v);
                      sv_size := value_size e |} = Ret v).
  { apply (sv_bytes_exact _ v []); [|assumption].
    rewrite skipn_app_exact by assumption. now rewrite app_nil_r. }
  rewrite Hblk.
  rewrite (Block_Add_rows cur _ _ k v Hkey Hval) by (cbn [sv_size]; congruence).
  destruct (Z.gtb_spec (block_data_size cur + zlength k + zlength v)
              kBlockSizeMax); cbn [bind].
  - destruct (WriteBlock value_encode b (block_of_rows cur) (index l)
                (last_key l)) as [[w i] b1].
    unfold WriteOnceBlock.Clear.
    change WriteOnceBlock.empty with (block_of_rows []).
    rewrite (Block_Add_rows [] _ _ k v Hkey Hval)
      by (cbn [sv_size]; congruence).
    change (block_data_size []) with 0.
    destruct (Z.gtb_spec (0 + zlength k + zlength v) kBlockSizeMax); [lia|].
    cbn [bind]. rewrite Hkey. cbn [bind]. eexists. eexists. reflexivity.
  - rewrite Hkey. cbn [bind]. eexists. eexists. reflexivity.
Qed.

Lemma emit_entries_total (entries : list Entry) :
  forall done cur l b,
    emitting value_encode hdr raw done cur (l, b) ->
    Forall (Entry_invariant raw) entries ->
    Forall (fun e => key_size e + value_size e < 2 ^ 32) entries ->
    zlength raw < 2 ^ 63 ->
    exists l' b', emit_entries value_encode (l, b) entries = Ret (l', b').
Proof.
  induction entries as [|e entries IH]; intros done cur l b Hinv Hok Hsz Hraw.
  - exists l, b. reflexivity.
  - inversion Hok as [|? ? He Hok']; subst.
    inversion Hsz as [|? ? Hnowrap Hsz']; subst.
    destruct (emit_entry_total done cur l b e Hinv He Hraw Hnowrap)
      as (l1 & b1 & Hstep).
    cbn [emit_entries]. rewrite Hstep. cbn [bind].
    pose proof He as (_ & Hk & Hv & _).
    assert (Hu : UINT32_MAX = 2 ^ 32 - 1) by reflexivity.
    destruct (emit_entry_step done cur l l1 b b1 e Hinv He
                ltac:(lia) ltac:(lia) Hstep) as (done1 & cur1 & Hinv1 & _).
    apply (IH done1 cur1 l1 b1 Hinv1 Hok' Hsz' Hraw).
Qed.

Lemma emit_entries_inv (entries : list Entry) :
  forall done cur l b l' b',
    emitting value_encode hdr raw done cur (l, b) ->
    Forall (Entry_invariant raw) entries ->
    Forall (fun e => key_size e <= UINT32_MAX /\ value_size e <= UINT32_MAX)
           entries ->
    emit_entries value_encode (l, b) entries = Ret (l', b') ->
    exists done' cur',
      emitting value_encode hdr raw done' cur' (l', b') /\
      concat done' ++ cur'
      = concat done ++ cur
        ++ filter small (map (entry_row raw) entries) /\
      large_count l'
      = large_count l
        + zlength (filter (fun r => negb (small r))
                          (map (entry_row raw) entries)).
Proof.
  induction entries as [|e entries IH];
    intros done cur l b l' b' Hinv Hok Hsz H.
  - simpl in H. injection H as <- <-. exists done, cur.
    simpl. rewrite app_nil_r. change (zlength (@nil (list Z * list Z))) with 0.
    split; [exact Hinv|]. split; [reflexivity|lia].
  - cbn [emit_entries] in H.
    destruct (emit_entry value_encode (l, b) e) as [[l1 b1]| | |] eqn:Hstep;
      cbn [bind] in H; try discriminate H.
    inversion Hok as [|? ? He Hok']; subst.
    inversion Hsz as [|? ? [Hku Hvu] Hsz']; subst.
    destruct (emit_entry_step done cur l l1 b b1 e Hinv He Hku Hvu Hstep)
      as (done1 & cur1 & Hinv1 & Hrows1 & Hlarge1).
    destruct (IH done1 cur1 l1 b1 l' b' Hinv1 Hok' Hsz' H)
      as (done2 & cur2 & Hinv2 & Hrows2 & Hlarge2).
    exists done2, cur2. split; [exact Hinv2|]. split.
    + rewrite Hrows2, app_assoc, Hrows1. cbn [map filter].
      destruct (small (entry_row raw e)); simpl;
        rewrite <- ?app_assoc; reflexivity.
    + rewrite Hlarge2, Hlarge1. cbn [map filter].
      destruct (small (entry_row raw e)); cbn [negb];
        rewrite ?zlength_cons; lia.
Qed.

End EmitLoop.

Section BuildFacts.
Import WriteOnceBuilder.
Variable value_encode : Z -> list Z.

Lemma emitting_start (b : t) :
  emitting value_encode (fd_ b) (raw_fd_ b) [] []
    ({| index := WriteOnceIndex.empty; block := WriteOnceBlock.empty;
        last_key := []; block_count := 0; large_count := 0 |}, b).
Proof.
  unfold emitting. cbn [fst snd index block last_key].
  repeat split; try reflexivity.
  - unfold blocks_bytes. simpl. now rewrite app_nil_r.
  - constructor.
  - vm_compute. discriminate.
Qed.

(** What [WriteFinalData] appends to the result file: the blocks of the
    small rows of the entries, in the order of the entries, and the block
    index; the rows that are not small are counted. *)
Lemma WriteFinalData_inv (b b' : t) (count large : Z) :
  Forall (Entry_invariant (raw_fd_ b)) (index_ b) ->
  Forall (fun e => key_size e <= UINT32_MAX /\ value_size e <= UINT32_MAX)
         (index_ b) ->
  WriteFinalData value_encode b = Ret (b', count, large) ->
  exists groups,
    fd_ b' = fd_ b ++ blocks_bytes value_encode groups
             ++ WriteOnceIndex.Marshal value_encode
                  (index_of_groups value_encode groups) /\
    concat groups
    = filter small (map (entry_row (raw_fd_ b)) (index_ b)) /\
    Forall (fun g => g <> [] /\ block_data_size g <= kBlockSizeMax) groups /\
    large = zlength (filter (fun r => negb (small r))
                            (map (entry_row (raw_fd_ b)) (index_ b))).
Proof.
  intros Hok Hsz H. unfold WriteFinalData in H.
  destruct (emit_entries value_encode _ (index_ b)) as [[l b1]| | |] eqn:Hloop;
    cbn [bind] in H; try discriminate H.
  destruct (emit_entries_inv value_encode (fd_ b) (raw_fd_ b) (index_ b)
              [] [] _ b l b1 (emitting_start b) Hok Hsz Hloop)
    as (done & cur & Hinv & Hrows & Hlarge).
  destruct Hinv as (Hraw & Hfd & Hidx & Hblk & Hlast & Hdone & Hcur).
  cbn [fst snd large_count concat app] in *.
  assert (Hwi : forall bb i,
             fd_ (snd (WriteIndex value_encode bb i))
             = fd_ bb ++ WriteOnceIndex.Marshal value_encode i).
  { intros bb i. unfold WriteIndex.
    destruct (Z.eqb_spec (zlength (WriteOnceIndex.Marshal value_encode i)) 0)
      as [Hz|Hz]; cbn [snd].
    - apply zlength_zero_nil in Hz. rewrite Hz. now rewrite app_nil_r.
    - reflexivity. }
  unfold WriteBlock in H. rewrite Hblk in H.
  destruct cur as [|r cur].
  - (* nothing is left to write *)
    rewrite Marshal_nil in H. change (zlength (@nil Z) =? 0) with true in H.
    cbv iota in H.
    destruct (WriteIndex value_encode b1 (index l)) as [w b2] eqn:Hw.
    injection H as <- <- <-.
    exists done. rewrite app_nil_r in Hrows.
    pose proof (Hwi b1 (index l)) as Hfd2. rewrite Hw in Hfd2. cbn [snd] in Hfd2.
    rewrite Hfd2, Hfd, Hidx, <- app_assoc.
    repeat split; try assumption.
  - (* the last block is written *)
    rewrite Marshal_nonempty in H by discriminate.
    destruct (WriteIndex value_encode _ _) as [w b2] eqn:Hw in H.
    injection H as <- <- <-.
    exists (done ++ [r :: cur]).
    match type of Hw with
    | WriteIndex _ ?bb ?i = _ => pose proof (Hwi bb i) as Hfd2
    end.
    rewrite Hw in Hfd2. cbn [snd] in Hfd2.
    rewrite Hfd2. cbn [Write set_fd fd_].
    rewrite Hfd, Hidx, (Hlast ltac:(discriminate)).
    rewrite index_of_groups_snoc, blocks_bytes_snoc, <- !app_assoc.
    repeat split.
    + rewrite concat_app. simpl. now rewrite app_nil_r.
    + apply Forall_app. split; [exact Hdone|].
      constructor; [split; [discriminate|assumption]|constructor].
    + lia.
Qed.

Lemma WriteFinalData_total (b : t) :
  Forall (Entry_invariant (raw_fd_ b)) (index_ b) ->
  Forall (fun e => key_size e + value_size e < 2 ^ 32) (index_ b) ->
  zlength (raw_fd_ b) < 2 ^ 63 ->
  exists r, WriteFinalData value_encode b = Ret r.
Proof.
  intros Hok Hsz Hraw. unfold WriteFinalData.
  destruct (emit_entries_total value_encode (fd_ b) (raw_fd_ b) (index_ b)
              [] [] _ b (emitting_start b) Hok Hsz Hraw) as (l & b1 & ->).
  cbn [bind].
  destruct (WriteBlock value_encode b1 (block l) (index l) (last_key l))
    as [[w i] b2].
  destruct (WriteIndex value_encode b2 i) as [w' b3].
  eexists. reflexivity.
Qed.

End BuildFacts.

(** ** The build pipeline *)

Lemma Sorted_map {A B : Type} (f : A -> B) (R : B -> B -> Prop) (l : list A) :
  Sorted (fun a b => R (f a) (f b)) l -> Sorted R (map f l).
Proof.
  induction 1 as [|x l _ IH Hhd]; simpl; constructor; [exact IH|].
  destruct Hhd; simpl; constructor. assumption.
Qed.

Section PipelineFacts.
Import WriteOnceBuilder.
Variable value_encode : Z -> list Z.

(** The four steps of [Build] before the commit, on a builder that holds
    the rows [rows]. *)
Lemma emit_steps (b b1 b2 b3 b4 : t) (rows : list (list Z * list Z))
  (uninit count large : Z) :
  ingested b rows ->
  zlength (flat rows) < 2 ^ 63 ->
  FlushEntryData b = Ret b1 ->
  SortEntries b1 = Ret b2 ->
  CreateFile uninit b2 = Ret b3 ->
  WriteFinalData value_encode b3 = Ret (b4, count, large) ->
  exists groups sorted,
    fd_ b4 = header_bytes (built_header b uninit)
             ++ blocks_bytes value_encode groups
             ++ WriteOnceIndex.Marshal value_encode
                  (index_of_groups value_encode groups) /\
    Permutation sorted rows /\
    Sorted (fun r1 r2 => key_le (fst r1) (fst r2)) sorted /\
    concat groups = filter small sorted /\
    Forall (fun g => g <> [] /\ block_data_size g <= kBlockSizeMax) groups /\
    large = zlength (filter (fun r => negb (small r)) sorted).
Proof.
  intros Hing Hlt Hflush Hsort Hcreate Hfinal.
  unfold FlushEntryData in Hflush. injection Hflush as <-.
  pose proof Hing as (Hraw & Hoff & Hrows & Hinv & Hmax).
  set (b1 := set_raw b (raw_stream_ b) (raw_stream_ b)) in *.
  assert (Hing1 : ingested b1 rows) by exact Hing.
  assert (Hfd1 : raw_fd_ b1 = flat rows) by exact Hraw.
  destruct (SortEntries_ingested b1 rows Hing1 Hfd1 Hlt)
    as (se & Hsort' & Hperm & Hsorted).
  rewrite Hsort' in Hsort. injection Hsort as <-.
  unfold CreateFile in Hcreate.
  destruct (Z.land (GetFileFlags (options_ _)) (Z.lnot O_CLOEXEC) =? 0);
    cbn [KJ_REQUIRE bind] in Hcreate; [|discriminate Hcreate].
  injection Hcreate as <-.
  apply WriteFinalData_inv in Hfinal.
  - cbn [set_fd set_index set_raw fd_ raw_fd_ index_ options_ compression_ b1]
      in Hfinal.
    destruct Hfinal as (groups & Hfile & Hcat & Hgroups & Hlarge).
    rewrite Hraw in *.
    exists groups, (map (entry_row (flat rows)) se).
    split; [exact Hfile|]. split.
    { rewrite <- Hrows at 2. apply Permutation_map. exact Hperm. }
    split.
    { apply Sorted_map. exact Hsorted. }
    auto.
  - cbn [set_fd set_index set_raw raw_fd_ index_ b1].
    rewrite Hraw. eapply Permutation_Forall; [|exact Hinv].
    symmetry. exact Hperm.
  - cbn [set_fd set_index set_raw raw_fd_ index_ b1].
    eapply Permutation_Forall; [symmetry; exact Hperm|].
    eapply Forall_impl; [|exact Hmax]. cbv beta. tauto.
Qed.

(** [Build] on a builder that holds the rows [rows]. *)
Lemma Build_ingested (b : t) (rows : list (list Z * list Z))
  (uninit : Z) (file : list Z) :
  ingested b rows ->
  zlength (flat rows) < 2 ^ 63 ->
  Build value_encode uninit b = Ret file ->
  exists groups sorted,
    file = header_bytes (built_header b uninit)
           ++ blocks_bytes value_encode groups
           ++ WriteOnceIndex.Marshal value_encode
                (index_of_groups value_encode groups) /\
    Permutation sorted rows /\
    Sorted (fun r1 r2 => key_le (fst r1) (fst r2)) sorted /\
    concat groups = filter small sorted /\
    Forall (fun g => g <> [] /\ block_data_size g <= kBlockSizeMax) groups.
Proof.
  intros Hing Hlt H. unfold Build in H.
  destruct (FlushEntryData b) as [b1| | |] eqn:H1;
    cbn [bind] in H; try discriminate H.
  destruct (SortEntries b1) as [b2| | |] eqn:H2;
    cbn [bind] in H; try discriminate H.
  destruct (CreateFile uninit b2) as [b3| | |] eqn:H3;
    cbn [bind] in H; try discriminate H.
  destruct (WriteFinalData value_encode b3) as [[[b4 count] large]| | |] eqn:H4;
    cbn [bind] in H; try discriminate H.
  unfold CommitFile in H. injection H as <-.
  destruct (emit_steps b b1 b2 b3 b4 rows uninit count large
              Hing Hlt H1 H2 H3 H4)
    as (groups & sorted & Hfile & Hperm & Hsorted & Hcat & Hgroups & _).
  exists groups, sorted. auto.
Qed.

(** [Build] succeeds on a builder that holds rows whose sizes do not
    wrap around, when [CreateFile] accepts the descriptor flags. *)
Lemma Build_total (b : t) (rows : list (list Z * list Z)) (uninit : Z) :
  ingested b rows ->
  zlength (flat rows) < 2 ^ 63 ->
  Z.land (GetFileFlags (options_ b)) (Z.lnot O_CLOEXEC) = 0 ->
  Forall (fun r => row_size r < 2 ^ 32) rows ->
  exists file, Build value_encode uninit b = Ret file.
Proof.
  intros Hing Hlt Hflags Hrows32.
  pose proof Hing as (Hraw & Hoff & Hrows & Hinv & Hmax).
  unfold Build, FlushEntryData. cbn [bind].
  set (b1 := set_raw b (raw_stream_ b) (raw_stream_ b)).
  assert (Hing1 : ingested b1 rows) by exact Hing.
  assert (Hfd1 : raw_fd_ b1 = flat rows) by exact Hraw.
  destruct (SortEntries_ingested b1 rows Hing1 Hfd1 Hlt)
    as (se & -> & Hperm & _).
  cbn [bind]. unfold CreateFile.
  cbn [set_index set_raw options_ b1]. rewrite Hflags.
  cbn [Z.eqb KJ_REQUIRE bind].
  match goal with
  | |- exists file, bind (WriteFinalData _ ?b3) _ = _ =>
      destruct (WriteFinalData_total value_encode b3) as ([[b4 c] lg] & ->)
  end.
  - cbn [set_fd set_index set_raw raw_fd_ index_ b1]. rewrite Hraw.
    eapply Permutation_Forall; [symmetry; exact Hperm|exact Hinv].
  - cbn [set_fd set_index set_raw raw_fd_ index_ b1].
    eapply Permutation_Forall; [symmetry; exact Hperm|].
    rewrite Forall_forall in *. intros e He.
    destruct (entry_row_sizes (flat rows) e (Hinv e He))
      as (_ & _ & <- & _).
    apply Hrows32. change (index_ b1) with (index_ b) in He.
    pose proof (in_map (entry_row (flat rows)) _ _ He) as Hin.
    rewrite Hrows in Hin. exact Hin.
  - cbn [set_fd set_index set_raw raw_fd_ b1]. rewrite Hraw. exact Hlt.
  - cbn [bind]. unfold CommitFile. eexists. reflexivity.
Qed.

End PipelineFacts.

Lemma new_ingested (kLast kDefault : Z) (options : TableOptions)
  (b : WriteOnceBuilder.t) :
  WriteOnceBuilder.new kLast kDefault options = Ret b ->
  ingested b [] /\ WriteOnceBuilder.options_ b = options /\
  WriteOnceBuilder.compression_ b
  = (if GetCompression options =? kDefault then kTableCompressionNone
     else GetCompression options) /\
  WriteOnceBuilder.compression_ b <= kLast.
Proof.
  unfold WriteOnceBuilder.new. intros H.
  destruct (Z.leb_spec
              (if GetCompression options =? kDefault
               then kTableCompressionNone else GetCompression options) kLast);
    cbn [KJ_REQUIRE bind] in H; [|discriminate H].
  injection H as <-. cbn [WriteOnceBuilder.options_ WriteOnceBuilder.compression_].
  split; [apply ingested_nil; reflexivity|]. auto.
Qed.

Lemma create_and_fill_ingested (kLast kDefault : Z) (options : TableOptions)
  (rows : list (list Z * list Z)) (b : WriteOnceBuilder.t) :
  zlength (flat rows) < 2 ^ 63 ->
  create_and_fill kLast kDefault options rows = Ret b ->
  ingested b rows /\ WriteOnceBuilder.options_ b = options /\
  WriteOnceBuilder.compression_ b
  = (if GetCompression options =? kDefault then kTableCompressionNone
     else GetCompression options) /\
  WriteOnceBuilder.compression_ b <= kLast.
Proof.
  intros Hlt H. unfold create_and_fill in H.
  destruct (WriteOnceBuilder.new kLast kDefault options) as [b0| | |] eqn:Hnew;
    cbn [bind] in H; try discriminate H.
  apply new_ingested in Hnew. destruct Hnew as (Hing & Ho & Hc & Hl).
  destruct (InsertRows_ingested rows b0 b [] Hing) as (Hing' & Ho' & Hc');
    [simpl; lia|exact H|].
  split; [exact Hing'|]. rewrite Ho', Hc'. auto.
Qed.

(** A table handle that is created, filled with rows that [InsertRow]
    accepts and whose sizes do not wrap around, and synced: the build
    succeeds. *)
Lemma build_table_succeeds (kLast kDefault : Z) (options : TableOptions)
  (value_encode : Z -> list Z) (uninit : Z)
  (rows : list (list Z * list Z)) (b0 : WriteOnceBuilder.t) :
  WriteOnceBuilder.new kLast kDefault options = Ret b0 ->
  Z.land (GetFileFlags options) (Z.lnot O_CLOEXEC) = 0 ->
  Forall (fun r => 0 < zlength (fst r) /\ 0 < zlength (snd r) /\
                   row_size r < 2 ^ 32) rows ->
  zlength (flat rows) < 2 ^ 63 ->
  exists file,
    build_table kLast kDefault options value_encode uninit rows = Ret file.
Proof.
  intros Hnew Hflags Hrows Hlt.
  assert (Hb : exists b, create_and_fill kLast kDefault options rows = Ret b).
  { unfold create_and_fill. rewrite Hnew. cbn [bind].
    apply InsertRows_total. eapply Forall_impl; [|exact Hrows].
    intros [k v]. unfold row_size, UINT32_MAX. cbn [fst snd]. lia. }
  destruct Hb as (b & Hb). unfold build_table. rewrite Hb. cbn [bind].
  destruct (create_and_fill_ingested _ _ _ _ _ Hlt Hb) as (Hing & Ho & _).
  apply (Build_total value_encode b rows uninit Hing Hlt).
  - rewrite Ho. exact Hflags.
  - eapply Forall_impl; [|exact Hrows]. cbv beta. tauto.
Qed.

(** ** What a build writes *)

Lemma le_value_le_bytes (n : nat) :
  forall v, le_value (le_bytes n v) = v mod 2 ^ (8 * Z.of_nat n).
Proof.
  induction n as [|n IH]; intros v.
  - simpl. now rewrite Z.mod_1_r.
  - cbn [le_bytes le_value]. rewrite IH. unfold u8.
    rewrite Z.shiftr_div_pow2 by lia.
    replace (8 * Z.of_nat (S n)) with (8 + 8 * Z.of_nat n) by lia.
    rewrite Z.pow_add_r by lia.
    rewrite Z.rem_mul_r by (try apply Z.pow_nonzero; lia).
    change (2 ^ 8) with 256. lia.
Qed.

Lemma header_at_header_bytes (h : CA_wo_header) (rest : list Z) :
  header_at (header_bytes h ++ rest)
  = Ret {| magic := u64 (magic h);
           major_version := u8 (major_version h);
           minor_version := u8 (minor_version h);
           flags := u16 (flags h);
           compression := u8 (compression h);
           compression_level := u8 (compression_level h);
           data_reserved := u16 (data_reserved h);
           index_offset := u64 (index_offset h) |}.
Proof.
  unfold header_at, load.
  assert (Hlen : zlength (header_bytes h ++ rest) = 24 + zlength rest)
    by (rewrite zlength_app; reflexivity).
  rewrite Hlen. pose proof (zlength_nonneg rest).
  replace ((0 <=? 0) && (0 + Z.of_nat 24 <=? 24 + zlength rest)) with true
    by (symmetry; apply andb_true_intro; split; apply Z.leb_le; lia).
  cbn [bind Z.to_nat skipn].
  change (firstn 24 (header_bytes h ++ rest)) with (header_bytes h).
  unfold header_bytes. cbn [le_bytes app firstn skipn].
  f_equal. f_equal.
  - exact (le_value_le_bytes 8 (magic h)).
  - exact (le_value_le_bytes 1 (major_version h)).
  - exact (le_value_le_bytes 1 (minor_version h)).
  - exact (le_value_le_bytes 2 (flags h)).
  - exact (le_value_le_bytes 1 (compression h)).
  - exact (le_value_le_bytes 1 (compression_level h)).
  - exact (le_value_le_bytes 2 (data_reserved h)).
  - exact (le_value_le_bytes 8 (index_offset h)).
Qed.

(** The file that [build_table] returns. *)
Lemma build_table_inv (kLast kDefault : Z) (options : TableOptions)
  (value_encode : Z -> list Z) (uninit : Z)
  (rows : list (list Z * list Z)) (file : list Z) :
  zlength (flat rows) < 2 ^ 63 ->
  build_table kLast kDefault options value_encode uninit rows = Ret file ->
  exists b groups sorted,
    create_and_fill kLast kDefault options rows = Ret b /\
    file = header_bytes (built_header b uninit)
           ++ blocks_bytes value_encode groups
           ++ WriteOnceIndex.Marshal value_encode
                (index_of_groups value_encode groups) /\
    Permutation sorted rows /\
    Sorted (fun r1 r2 => key_le (fst r1) (fst r2)) sorted /\
    concat groups = filter small sorted /\
    Forall (fun g => g <> [] /\ block_data_size g <= kBlockSizeMax) groups.
Proof.
  intros Hlt H. unfold build_table in H.
  destruct (create_and_fill kLast kDefault options rows) as [b| | |] eqn:Hb;
    cbn [bind] in H; try discriminate H.
  destruct (create_and_fill_ingested _ _ _ _ _ Hlt Hb) as (Hing & _).
  destruct (Build_ingested value_encode b rows uninit file Hing Hlt H)
    as (groups & sorted & Hrest).
  exists b, groups, sorted. auto.
Qed.

(** The builder's half of a round trip.  When the rows [rows] have been
    added and [Build] has succeeded, the file consists of the header, of
    blocks and of the block index; no block is empty or holds more than
    [kBlockSizeMax] bytes of data, and the rows of the blocks, in file
    order, are the added rows of at most [kEntrySizeLimit] bytes (as a
    multiset), with keys in non-decreasing byte-wise order. *)
Lemma build_emits_small_rows_sorted
  (kLast kDefault : Z) (options : TableOptions)
  (value_encode : Z -> list Z) (uninit : Z)
  (rows : list (list Z * list Z)) (file : list Z) :
  zlength (flat rows) < 2 ^ 63 ->
  build_table kLast kDefault options value_encode uninit rows = Ret file ->
  exists header groups,
    file = header_bytes header
           ++ blocks_bytes value_encode groups
           ++ WriteOnceIndex.Marshal value_encode
                (index_of_groups value_encode groups) /\
    Forall (fun g => g <> [] /\ block_data_size g <= kBlockSizeMax) groups /\
    Permutation (concat groups) (filter small rows) /\
    Sorted key_le (map fst (concat groups)).
Proof.
  intros Hlt H.
  destruct (build_table_inv _ _ _ _ _ _ _ Hlt H)
    as (b & groups & sorted & _ & Hfile & Hperm & Hsorted & Hcat & Hgroups).
  exists (built_header b uninit), groups.
  split; [exact Hfile|]. split; [exact Hgroups|].
  rewrite Hcat. split.
  - apply Permutation_filter. exact Hperm.
  - apply Sorted_map_filter. exact Hsorted.
Qed.

Lemma open_requires_more_than_header (kLast : Z) (file : list Z) :
  zlength file = 24 -> WriteOnceTable.open kLast file = Throw "end".
Proof.
  intros Hlen. unfold WriteOnceTable.open, WriteOnceTable.MemoryMap.
  rewrite Hlen. reflexivity.
Qed.

Lemma zlength_header_bytes (h : CA_wo_header) :
  zlength (header_bytes h) = sizeof_CA_wo_header.
Proof. reflexivity. Qed.

(** The file built from the four rows of the test [CanWriteThenRead],
    whatever the stack holds where [index_offset] lies: the header, one
    block with the four rows and the block index. *)
Lemma build_rows_sorted (uninit : Z) :
  build_table 1 255 plain_options spec_value_encode uninit rows_sorted
  = Ret (header_bytes (built_header fresh_builder uninit)
         ++ blocks_bytes spec_value_encode [rows_sorted]
         ++ WriteOnceIndex.Marshal spec_value_encode
              (index_of_groups spec_value_encode [rows_sorted])).
Proof. vm_compute. reflexivity. Qed.

(** The same for the single row ("a", "xxx"). *)
Lemma build_single_row (uninit : Z) :
  build_table 1 255 plain_options spec_value_encode uninit [row "a" "xxx"]
  = Ret (header_bytes (built_header fresh_builder uninit)
         ++ blocks_bytes spec_value_encode [[row "a" "xxx"]]
         ++ WriteOnceIndex.Marshal spec_value_encode
              (index_of_groups spec_value_encode [[row "a" "xxx"]])).
Proof. vm_compute. reflexivity. Qed.

(** A built file whose header asks for no compression and that is longer
    than the header can be opened; the table has the file as its mapping
    and, as [index_offset], what [CreateFile] found on the stack. *)
Lemma open_built_file (b : WriteOnceBuilder.t) (uninit : Z) (body : list Z) :
  WriteOnceBuilder.compression_ b = kTableCompressionNone ->
  0 < zlength body ->
  exists tb,
    WriteOnceTable.open 1 (header_bytes (built_header b uninit) ++ body)
    = Ret tb /\
    WriteOnceTable.buffer tb = header_bytes (built_header b uninit) ++ body /\
    index_offset (WriteOnceTable.header tb) = u64 uninit.
Proof.
  intros Hc Hbody.
  unfold WriteOnceTable.open, WriteOnceTable.MemoryMap.
  rewrite header_at_header_bytes, zlength_app, zlength_header_bytes.
  destruct (Z.gtb_spec (sizeof_CA_wo_header + zlength body)
              sizeof_CA_wo_header); [|lia].
  cbn [KJ_REQUIRE bind built_header magic major_version compression
       index_offset WriteOnceTable.header].
  rewrite Hc.
  change (u8 MAJOR_VERSION <=? MAJOR_VERSION) with true.
  change (u64 MAGIC =? MAGIC) with true.
  change (u8 kTableCompressionNone) with 0.
  cbn [orb KJ_REQUIRE bind Z.leb Z.compare Z.eqb negb
       kTableCompressionNone WriteOnceTable.header compression].
  eexists. split; [reflexivity|]. split; reflexivity.
Qed.

(** ** Large entries *)

(** C7 (as amended). With [kEntrySizeLimit] = [kBlockSizeMin / 2] = 8192:
    when the rows have been added and the emission of the blocks has
    succeeded, the rows that the blocks of the file hold are, as a
    multiset, the added rows of at most 8192 bytes: every such row is in
    the blocks as often as it was added, and nothing else is.  So every
    row of more than 8192 bytes is in no block and every row of at most
    8192 bytes is in some block, and the counter of large entries is the
    number of rows of more than 8192 bytes. *)
Theorem emit_skips_rows_above_entry_size_limit
  (kLast kDefault : Z) (options : TableOptions)
  (value_encode : Z -> list Z) (uninit : Z)
  (rows : list (list Z * list Z))
  (b : WriteOnceBuilder.t) (block_count large_count : Z) :
  zlength (flat rows) < 2 ^ 63 ->
  emit_table kLast kDefault options value_encode uninit rows
  = Ret (b, block_count, large_count) ->
  kEntrySizeLimit = 8192 /\
  exists header groups,
    WriteOnceBuilder.fd_ b
    = header_bytes header
      ++ blocks_bytes value_encode groups
      ++ WriteOnceIndex.Marshal value_encode
           (index_of_groups value_encode groups) /\
    Permutation (concat groups)
      (filter (fun r => row_size r <=? kEntrySizeLimit) rows) /\
    (forall r, In r rows ->
       (row_size r > kEntrySizeLimit -> ~ In r (concat groups)) /\
       (row_size r <= kEntrySizeLimit -> exists g, In g groups /\ In r g)) /\
    large_count = zlength (filter (fun r => negb (small r)) rows).
Proof.
  intros Hlt H. split; [reflexivity|].
  unfold emit_table in H.
  destruct (create_and_fill kLast kDefault options rows) as [b0| | |] eqn:Hb;
    cbn [bind] in H; try discriminate H.
  destruct (create_and_fill_ingested _ _ _ _ _ Hlt Hb) as (Hing & _).
  destruct (WriteOnceBuilder.FlushEntryData b0) as [b1| | |] eqn:H1;
    cbn [bind] in H; try discriminate H.
  destruct (WriteOnceBuilder.SortEntries b1) as [b2| | |] eqn:H2;
    cbn [bind] in H; try discriminate H.
  destruct (WriteOnceBuilder.CreateFile uninit b2) as [b3| | |] eqn:H3;
    cbn [bind] in H; try discriminate H.
  destruct (emit_steps value_encode b0 b1 b2 b3 b rows uninit
              block_count large_count Hing Hlt H1 H2 H3 H)
    as (groups & sorted & Hfile & Hperm & _ & Hcat & _ & Hlarge).
  exists (built_header b0 uninit), groups.
  split; [exact Hfile|]. split; [|split].
  - rewrite Hcat. apply (Permutation_filter small). exact Hperm.
  - intros r Hr. rewrite Hcat. split.
    + intros Hbig Hin. apply filter_In in Hin. destruct Hin as [_ Hs].
      unfold small in Hs. apply Z.leb_le in Hs. lia.
    + intros Hsmall.
      assert (Hin : In r (concat groups)).
      { rewrite Hcat. apply filter_In. split.
        - eapply Permutation_in; [symmetry; exact Hperm|exact Hr].
        - unfold small. apply Z.leb_le. exact Hsmall. }
      apply in_concat in Hin. destruct Hin as (g & Hg & Hrg). eauto.
  - rewrite Hlarge. unfold zlength. f_equal.
    apply Permutation_length. apply Permutation_filter. exact Hperm.
Qed.

(** The unsorted scenario with a row of 8193 bytes added: the blocks hold
    the four small rows and not the large one. *)
Lemma emit_skips_rows_above_entry_size_limit_witness :
  exists b block_count header groups,
    emit_table 1 255 plain_options spec_value_encode 0
      (rows_unsorted ++ [big_row]) = Ret (b, block_count, 1) /\
    WriteOnceBuilder.fd_ b
    = header_bytes header
      ++ blocks_bytes spec_value_encode groups
      ++ WriteOnceIndex.Marshal spec_value_encode
           (index_of_groups spec_value_encode groups) /\
    Permutation (concat groups) rows_unsorted /\
    ~ In big_row (concat groups) /\
    (exists g, In g groups /\ In (row "b" "yyy") g).
Proof.
  destruct (emit_table 1 255 plain_options spec_value_encode 0
              (rows_unsorted ++ [big_row]))
    as [[[b block_count] large_count]| | |] eqn:Hemit;
    try (vm_compute in Hemit; discriminate Hemit).
  assert (Hlt : zlength (flat (rows_unsorted ++ [big_row])) < 2 ^ 63)
    by (vm_compute; reflexivity).
  destruct (emit_skips_rows_above_entry_size_limit _ _ _ _ _ _ _ _ _
              Hlt Hemit)
    as (_ & header & groups & Hfile & Hperm & Hrows & Hlarge).
  assert (Hcount : zlength (filter (fun r => negb (small r))
                                   (rows_unsorted ++ [big_row])) = 1)
    by (vm_compute; reflexivity).
  assert (Hkeep : filter (fun r => row_size r <=? kEntrySizeLimit)
                         (rows_unsorted ++ [big_row]) = rows_unsorted)
    by (vm_compute; reflexivity).
  rewrite Hkeep in Hperm.
  rewrite Hcount in Hlarge. subst large_count.
  exists b, block_count, header, groups.
  split; [reflexivity|].
  split; [exact Hfile|]. split; [exact Hperm|]. split.
  - apply (Hrows big_row); [apply in_or_app; right; now left|].
    vm_compute. reflexivity.
  - apply (Hrows (row "b" "yyy")).
    + apply in_or_app. left. simpl. tauto.
    + vm_compute. discriminate.
Defined.

(** C7, counterexample. A row of 8193 bytes, which is less than 16 KiB,
    is in no block: the result file is the 24 bytes of the header, and the
    row has been counted as large. *)
Lemma emit_skips_row_below_16k_counterexample :
  row_size big_row = 8193 /\ 8193 <= 16 * 1024 /\
  exists b,
    emit_table 1 255 plain_options spec_value_encode 0 [big_row]
    = Ret (b, 0, 1) /\
    WriteOnceBuilder.fd_ b
    = header_bytes (built_header fresh_builder 0).
Proof.
  split; [vm_compute; reflexivity|]. split; [lia|].
  destruct (emit_table 1 255 plain_options spec_value_encode 0 [big_row])
    as [[[b block_count] large_count]| | |] eqn:Hemit;
    try (vm_compute in Hemit; discriminate Hemit).
  destruct b as [opts comp nofsync fd stream raw idx off ksm].
  pose proof (f_equal (fun r => match r with
                                | Ret (b, c, l) =>
                                    (WriteOnceBuilder.fd_ b, c, l)
                                | _ => ([], 0, 0)
                                end) Hemit) as Hobs.
  vm_compute in Hobs. injection Hobs as <- <- <-.
  eexists. split; [reflexivity|]. vm_compute. reflexivity.
Qed.

(** ** The header of a built file *)

(** The header at the start of a built file. *)
Lemma build_table_header
  (kLast kDefault : Z) (options : TableOptions)
  (value_encode : Z -> list Z) (uninit : Z)
  (rows : list (list Z * list Z)) (file : list Z) :
  zlength (flat rows) < 2 ^ 63 ->
  build_table kLast kDefault options value_encode uninit rows = Ret file ->
  exists h,
    header_at file = Ret h /\
    magic h = MAGIC /\
    major_version h = 4 /\
    minor_version h = 0 /\
    flags h = CA_WO_FLAG_ASCENDING /\
    data_reserved h = 0 /\
    compression h
    = u8 (if GetCompression options =? kDefault then kTableCompressionNone
          else GetCompression options) /\
    index_offset h = u64 uninit.
Proof.
  intros Hlt H.
  destruct (build_table_inv _ _ _ _ _ _ _ Hlt H)
    as (b & groups & sorted & Hb & Hfile & _).
  destruct (create_and_fill_ingested _ _ _ _ _ Hlt Hb) as (_ & _ & Hc & _).
  rewrite Hfile, header_at_header_bytes.
  eexists. split; [reflexivity|].
  cbn [magic major_version minor_version flags data_reserved compression
       index_offset built_header].
  rewrite Hc. repeat split; reflexivity.
Qed.

(** C3. The rows of the test [CanWriteThenRead] are added and the table
    is built, whatever the stack held where [index_offset] lies.  The
    header of the file has the magic number, major version 4 and
    compression 0, and the file has 83 bytes, of which the block index
    is the last ten, from offset 73 on.  The field [index_offset],
    however, is not 73 but what the stack held: [CreateFile] writes the
    header without assigning the field (the assignment is commented out)
    and nothing writes the header again.  A file built from the single
    row ("a", "xxx"), whose block index begins at offset 37, carries the
    same [index_offset], so the field is wrong in at least one of the two
    files whatever the stack held. *)
Theorem build_never_assigns_index_offset (uninit : Z) :
  exists file h file' h',
    build_table 1 255 plain_options spec_value_encode uninit rows_sorted
    = Ret file /\
    header_at file = Ret h /\
    magic h = MAGIC /\ major_version h = 4 /\ compression h = 0 /\
    zlength file = 83 /\
    skipn 73 file
    = WriteOnceIndex.Marshal spec_value_encode
        (index_of_groups spec_value_encode [rows_sorted]) /\
    build_table 1 255 plain_options spec_value_encode uninit [row "a" "xxx"]
    = Ret file' /\
    header_at file' = Ret h' /\
    zlength file' = 47 /\
    skipn 37 file'
    = WriteOnceIndex.Marshal spec_value_encode
        (index_of_groups spec_value_encode [[row "a" "xxx"]]) /\
    index_offset h = u64 uninit /\
    index_offset h' = u64 uninit /\
    (index_offset h <> 73 \/ index_offset h' <> 37).
Proof.
  eexists. eexists. eexists. eexists.
  split; [apply build_rows_sorted|].
  split; [apply header_at_header_bytes|].
  split; [reflexivity|]. split; [reflexivity|]. split; [reflexivity|].
  split; [reflexivity|]. split; [reflexivity|].
  split; [apply build_single_row|].
  split; [apply header_at_header_bytes|].
  split; [reflexivity|]. split; [reflexivity|].
  split; [reflexivity|]. split; [reflexivity|].
  cbn [index_offset built_header].
  destruct (Z.eq_dec (u64 uninit) 73) as [->|Hne];
    [right; discriminate|left; exact Hne].
Qed.

(** The compression byte is the configured method: if the enumeration
    has a method 1, a builder configured with it writes 1. *)
Lemma built_header_compression_configured :
  exists file h,
    build_table 1 255
      {| GetCompression := 1; GetCompressionLevel := 0;
         GetFileFlags := 0; GetFileMode := 0x1b6 |}
      spec_value_encode 0 [row "a" "xxx"] = Ret file /\
    header_at file = Ret h /\ compression h = 1.
Proof.
  eexists. eexists. split; [vm_compute; reflexivity|].
  split; vm_compute; reflexivity.
Qed.

(** ** Reopening a built file *)

Lemma MemoryMap_header (file : list Z) (tb : WriteOnceTable.t) :
  WriteOnceTable.MemoryMap file = Ret tb ->
  header_at file = Ret (WriteOnceTable.header tb).
Proof.
  unfold WriteOnceTable.MemoryMap. intros H.
  destruct (zlength file >? sizeof_CA_wo_header);
    cbn [KJ_REQUIRE bind] in H; [|discriminate H].
  destruct (header_at file) as [h| | |]; cbn [bind] in H; try discriminate H.
  destruct ((major_version h <=? MAJOR_VERSION) || (major_version h >=? 2));
    cbn [KJ_REQUIRE bind] in H; [|discriminate H].
  destruct (magic h =? MAGIC); cbn [KJ_REQUIRE bind] in H; [|discriminate H].
  injection H as <-. reflexivity.
Qed.

Lemma open_header (kLast : Z) (file : list Z) (tb : WriteOnceTable.t) :
  WriteOnceTable.open kLast file = Ret tb ->
  header_at file = Ret (WriteOnceTable.header tb).
Proof.
  unfold WriteOnceTable.open. intros H.
  destruct (WriteOnceTable.MemoryMap file) as [tb0| | |] eqn:Hmap;
    cbn [bind] in H; try discriminate H.
  apply MemoryMap_header in Hmap.
  destruct (compression (WriteOnceTable.header tb0) <=? kLast);
    cbn [KJ_REQUIRE bind] in H; [|discriminate H].
  destruct (negb (compression (WriteOnceTable.header tb0)
                  =? kTableCompressionNone)); [discriminate H|].
  injection H as <-. exact Hmap.
Qed.

(** C4. A table built with no row at all: the build succeeds (for
    options that the constructor and [CreateFile] accept), the file is the
    24 bytes of the header, and opening it fails, because [MemoryMap]
    requires a file that is longer than the header. *)
Theorem empty_table_cannot_be_reopened
  (kLast kDefault kLast' : Z) (options : TableOptions)
  (value_encode : Z -> list Z) (uninit : Z) (b : WriteOnceBuilder.t) :
  WriteOnceBuilder.new kLast kDefault options = Ret b ->
  Z.land (GetFileFlags options) (Z.lnot O_CLOEXEC) = 0 ->
  exists file,
    build_table kLast kDefault options value_encode uninit [] = Ret file /\
    zlength file = 24 /\
    WriteOnceTable.open kLast' file = Throw "end".
Proof.
  intros Hnew Hflags.
  assert (Hbuild : build_table kLast kDefault options value_encode uninit []
                   = Ret (header_bytes (built_header b uninit))).
  { unfold build_table, create_and_fill. rewrite Hnew. cbn [bind InsertRows].
    unfold WriteOnceBuilder.new in Hnew.
    destruct (_ <=? kLast); cbn [KJ_REQUIRE bind] in Hnew;
      [|discriminate Hnew].
    injection Hnew as <-.
    unfold Sync, WriteOnceBuilder.Build, WriteOnceBuilder.FlushEntryData,
      WriteOnceBuilder.SortEntries, WriteOnceBuilder.CreateFile.
    cbn [bind WriteOnceBuilder.set_raw WriteOnceBuilder.set_index
         WriteOnceBuilder.index_ WriteOnceBuilder.options_ stable_sort].
    rewrite Hflags. reflexivity. }
  exists (header_bytes (built_header b uninit)).
  split; [exact Hbuild|]. split; [reflexivity|].
  apply open_requires_more_than_header. reflexivity.
Qed.

Lemma empty_table_cannot_be_reopened_witness :
  exists file,
    build_table 1 255 plain_options spec_value_encode 0 [] = Ret file /\
    zlength file = 24 /\ WriteOnceTable.open 1 file = Throw "end".
Proof.
  exact (empty_table_cannot_be_reopened 1 255 1 plain_options
           spec_value_encode 0 fresh_builder eq_refl eq_refl).
Defined.

(** C5. Whatever the order in which the rows were added, a built file
    that can be opened reports itself sorted: the builder always sets the
    ascending flag, and [IsSorted] only reads it. *)
Theorem built_table_reports_sorted
  (kLast kDefault kLast' : Z) (options : TableOptions)
  (value_encode : Z -> list Z) (uninit : Z)
  (rows : list (list Z * list Z)) (file : list Z) (tb : WriteOnceTable.t) :
  zlength (flat rows) < 2 ^ 63 ->
  build_table kLast kDefault options value_encode uninit rows = Ret file ->
  WriteOnceTable.open kLast' file = Ret tb ->
  WriteOnceTable.IsSorted tb = true.
Proof.
  intros Hlt Hbuild Hopen.
  destruct (build_table_header _ _ _ _ _ _ _ Hlt Hbuild)
    as (h & Hh & _ & _ & _ & Hflags & _).
  apply open_header in Hopen. rewrite Hh in Hopen. injection Hopen as ->.
  unfold WriteOnceTable.IsSorted. rewrite Hflags. reflexivity.
Qed.

(** The scenario of the unsorted insertions "a", "c", "d", "b". *)
Lemma built_table_reports_sorted_witness :
  exists file tb,
    build_table 1 255 plain_options spec_value_encode 0 rows_unsorted
    = Ret file /\
    WriteOnceTable.open 1 file = Ret tb /\
    WriteOnceTable.IsSorted tb = true.
Proof.
  destruct (build_table 1 255 plain_options spec_value_encode 0 rows_unsorted)
    as [file| | |] eqn:Hbuild;
    try (vm_compute in Hbuild; discriminate Hbuild).
  destruct (WriteOnceTable.open 1 file) as [tb| | |] eqn:Hopen;
    try (vm_compute in Hbuild; injection Hbuild as <-;
         vm_compute in Hopen; discriminate Hopen).
  exists file, tb. split; [reflexivity|]. split; [exact Hopen|].
  assert (Hlt : zlength (flat rows_unsorted) < 2 ^ 63)
    by (vm_compute; reflexivity).
  exact (built_table_reports_sorted 1 255 1 plain_options spec_value_encode 0
           rows_unsorted file tb Hlt Hbuild Hopen).
Defined.

(** ** Point lookup in a built file *)

Lemma SeekToKey_first_probe (Hash : list Z -> Z) (madvise : Z -> Z -> bool)
  (fuel : nat) (tb : WriteOnceTable.t) (key : list Z) :
  WriteOnceTable.has_madvised_index tb = false ->
  (forall start len, madvise start len = true) ->
  2 <= major_version (WriteOnceTable.header tb) ->
  WriteOnceTable.index_size tb <> 0 ->
  WriteOnceTable.SeekToKey Hash madvise fuel tb key
  = WriteOnceTable.probe fuel (WriteOnceTable.set_madvised tb) key
      (Hash key mod WriteOnceTable.index_size tb)
      0 (WriteOnceTable.buffer_fill tb) 2 1 0.
Proof.
  intros Hadv Hmadv Hmajor Hsize.
  unfold WriteOnceTable.SeekToKey, WriteOnceTable.MAdviseIndex.
  rewrite Hadv, Hmadv. cbn [bind].
  cbn [WriteOnceTable.set_madvised WriteOnceTable.header
       WriteOnceTable.index_size WriteOnceTable.buffer_fill].
  destruct (Z.ltb_spec (major_version (WriteOnceTable.header tb)) 2); [lia|].
  destruct (Z.eqb_spec (WriteOnceTable.index_size tb) 0); [contradiction|].
  reflexivity.
Qed.

(** C2. The scenario of the four sorted insertions, built (with zero
    bytes on the stack where [index_offset] is) and reopened: the builder
    has written no hash index and no [index_offset], the reader takes the
    file from offset 0 on as ten 64-bit slots, and every probe sequence
    runs over slots that hold no offset of the file until it reaches the
    zero of slot 2.  So [SeekToKey] returns false for every key and every
    hash function, the inserted key "a" included. *)
Theorem lookup_in_built_table_finds_nothing :
  exists file tb,
    build_table 1 255 plain_options spec_value_encode 0 rows_sorted
    = Ret file /\
    WriteOnceTable.open 1 file = Ret tb /\
    forall (Hash : list Z -> Z) (key : list Z),
      WriteOnceTable.SeekToKey Hash (fun _ _ => true) 10 tb key
      = Ret (false, WriteOnceTable.set_madvised tb).
Proof.
  destruct (build_table 1 255 plain_options spec_value_encode 0 rows_sorted)
    as [file| | |] eqn:Hbuild;
    try (vm_compute in Hbuild; discriminate Hbuild).
  destruct (WriteOnceTable.open 1 file) as [tb| | |] eqn:Hopen;
    try (vm_compute in Hbuild; injection Hbuild as <-;
         vm_compute in Hopen; discriminate Hopen).
  exists file, tb. split; [reflexivity|]. split; [exact Hopen|].
  vm_compute in Hbuild. injection Hbuild as <-.
  vm_compute in Hopen. injection Hopen as <-.
  intros Hash key.
  rewrite SeekToKey_first_probe;
    [|reflexivity|reflexivity|vm_compute; discriminate|vm_compute; discriminate].
  cbn [WriteOnceTable.index_size WriteOnceTable.buffer_fill].
  assert (Hh : 0 <= Hash key mod 10 < 10) by (apply Z.mod_pos_bound; lia).
  generalize dependent (Hash key mod 10). intros h Hh.
  assert (Hcases : h = 0 \/ h = 1 \/ h = 2 \/ h = 3 \/ h = 4 \/ h = 5
                   \/ h = 6 \/ h = 7 \/ h = 8 \/ h = 9) by lia.
  repeat (destruct Hcases as [->|Hcases]; [vm_compute; reflexivity|]).
  subst h. vm_compute. reflexivity.
Qed.

(** * Further properties of the code *)

(** ** The varint codec: size, unique decoding, malformed input *)

Module VarintMore.
Import Varint.

(** Encoding and decoding again, for every rest of the input. *)
Lemma format_parse (v : Z) :
  0 <= v < 2 ^ 64 ->
  exists bs,
    ca_format_integer v = Ret bs /\
    forall rest, ca_parse_integer (bs ++ rest) = Ret (v, rest).
Proof.
  intros Hv. unfold ca_format_integer.
  assert (Hdm : v = 128 * (v / 128) + v mod 128) by (apply Z.div_mod; lia).
  assert (Hg : 0 <= v mod 128 < 128) by (apply Z.mod_pos_bound; lia).
  destruct (VarintFacts.format_loop_decodes 9 (Z.shiftr v 7)
              [Z.land v 0x7f] 1 (v mod 128)) as (bs & Hfmt & Hdec).
  - rewrite Z.shiftr_div_pow2 by lia. change (2 ^ 7) with 128.
    split; [apply Z.div_pos; lia|].
    apply Z.div_lt_upper_bound; [lia|].
    change (128 ^ Z.of_nat 9) with (2 ^ 63). lia.
  - lia.
  - lia.
  - rewrite Z.shiftr_div_pow2 by lia. change (2 ^ 7) with 128.
    change (128 ^ Z.of_nat 1) with 128. lia.
  - apply VarintFacts.decodes_last. lia.
  - exists bs. split; [exact Hfmt|]. intros rest.
    rewrite VarintFacts.ca_parse_integer_loop, Hdec.
    rewrite Z.shiftr_div_pow2 by lia. change (2 ^ 7) with 128.
    change (128 ^ Z.of_nat 1) with 128.
    f_equal. f_equal. lia.
Qed.

(** The loop of the encoder puts one byte in front of the buffer for
    every 7-bit group up to the highest one that is not zero. *)
Lemma format_loop_length (ptr : nat) :
  forall (w : Z) (buf bs : list Z) (m : nat),
    0 <= w ->
    format_loop ptr w buf = Ret bs ->
    ((length bs <= length buf + m)%nat <-> w < 128 ^ Z.of_nat m).
Proof.
  induction ptr as [|ptr IH]; intros w buf bs m Hw H.
  - simpl in H. destruct (Z.eqb_spec w 0) as [->|]; [|discriminate H].
    injection H as <-.
    split; [intros _; apply Z.pow_pos_nonneg; lia|lia].
  - cbn [format_loop] in H. destruct (Z.eqb_spec w 0) as [->|Hnz].
    + injection H as <-.
      split; [intros _; apply Z.pow_pos_nonneg; lia|lia].
    + assert (Hs : 0 <= Z.shiftr w 7) by (apply Z.shiftr_nonneg; exact Hw).
      destruct m as [|m].
      * split.
        -- intros Hlen.
           destruct (VarintFacts.format_loop_shape _ _ _ _ Hs H)
             as (front & -> & _).
           rewrite length_app in Hlen. simpl in Hlen. lia.
        -- simpl. lia.
      * specialize (IH _ _ _ m Hs H). simpl length in IH.
        rewrite Z.shiftr_div_pow2 in IH by lia. change (2 ^ 7) with 128 in IH.
        rewrite Nat2Z.inj_succ, Z.pow_succ_r by lia.
        assert (Hp : 0 < 128 ^ Z.of_nat m) by (apply Z.pow_pos_nonneg; lia).
        pose proof (Z.div_mod w 128 ltac:(lia)) as Hdm.
        pose proof (Z.mod_pos_bound w 128 ltac:(lia)) as Hmod.
        split; intros Hx.
        -- assert (Hq : w / 128 < 128 ^ Z.of_nat m) by (apply IH; lia).
           lia.
        -- assert (Hq : w / 128 < 128 ^ Z.of_nat m) by lia.
           apply IH in Hq. lia.
Qed.

(** The decoder on bytes that all carry the continuation bit. *)
Lemma parse_loop_runs_off (input : list Z) :
  forall r cur,
    Z.land cur 0x80 <> 0 ->
    Forall (fun b => Z.land b 0x80 <> 0) input ->
    parse_loop r cur input = Fault.
Proof.
  induction input as [|b input IH]; intros r cur Hcur Hall.
  - simpl. destruct (Z.eqb_spec (Z.land cur 128) 0); [contradiction|].
    reflexivity.
  - inversion Hall as [|? ? Hb Hall']; subst.
    rewrite VarintFacts.parse_loop_continue by exact Hcur.
    apply IH; assumption.
Qed.

Lemma accumulate_range (r b : Z) :
  0 <= Z.lor (u64 (Z.shiftl r 7)) (Z.land b 0x7f) < 2 ^ 64.
Proof.
  unfold u64. rewrite Z.shiftl_mul_pow2 by lia. change (2 ^ 7) with 128.
  rewrite land_ones_7.
  assert (Hg : 0 <= b mod 128 < 128) by (apply Z.mod_pos_bound; lia).
  assert (Hm : 0 <= (r * 128) mod 2 ^ 64 < 2 ^ 64)
    by (apply Z.mod_pos_bound; lia).
  assert (Hdiv : ((r * 128) mod 2 ^ 64) mod 128 = 0).
  { change (2 ^ 64) with (128 * 2 ^ 57).
    rewrite Z.rem_mul_r by lia.
    rewrite Z.mod_mul by lia. rewrite Z.add_0_l.
    rewrite Z.mul_comm, Z.mod_mul by lia. reflexivity. }
  pose proof (Z.div_mod ((r * 128) mod 2 ^ 64) 128 ltac:(lia)) as Hdm.
  rewrite Hdiv, Z.add_0_r in Hdm.
  set (q := (r * 128) mod 2 ^ 64 / 128) in *.
  rewrite Hdm. replace (128 * q) with (q * 128) by ring.
  rewrite lor_low_bits by lia. lia.
Qed.

(** The decoder stops behind the first byte without continuation bit. *)
Lemma parse_loop_stops_at_terminal (front : list Z) :
  forall r cur t rest,
    0 <= r < 2 ^ 64 ->
    Z.land cur 0x80 <> 0 ->
    Forall (fun b => Z.land b 0x80 <> 0) front ->
    Z.land t 0x80 = 0 ->
    exists v,
      parse_loop r cur (front ++ t :: rest) = Ret (v, rest) /\
      0 <= v < 2 ^ 64.
Proof.
  induction front as [|b front IH]; intros r cur t rest Hr Hcur Hall Ht.
  - cbn [app]. rewrite VarintFacts.parse_loop_continue by exact Hcur.
    rewrite VarintFacts.parse_loop_stop by exact Ht.
    eexists. split; [reflexivity|]. apply accumulate_range.
  - inversion Hall as [|? ? Hb Hall']; subst.
    rewrite <- app_comm_cons.
    rewrite VarintFacts.parse_loop_continue by exact Hcur.
    apply IH; try assumption. apply accumulate_range.
Qed.

End VarintMore.

(** X1. The encoding that [ca_format_integer] writes is as short as the
    value allows: for every [n >= 1] it takes at most [n] bytes exactly
    when the value is below [128 ^ n].  So values below 128 take one
    byte, values below 16384 at most two, and no encoding begins with a
    group that is zero. *)
Theorem varint_length_is_minimal (v : Z) (bs : list Z) (n : nat) :
  0 <= v < 2 ^ 64 ->
  Varint.ca_format_integer v = Ret bs ->
  (1 <= n)%nat ->
  ((length bs <= n)%nat <-> v < 128 ^ Z.of_nat n).
Proof.
  intros Hv H Hn. unfold Varint.ca_format_integer in H.
  destruct n as [|m]; [lia|].
  assert (Hs : 0 <= Z.shiftr v 7) by (apply Z.shiftr_nonneg; lia).
  pose proof (VarintMore.format_loop_length 9 _ _ _ m Hs H) as Hl.
  simpl length in Hl.
  rewrite Z.shiftr_div_pow2 in Hl by lia. change (2 ^ 7) with 128 in Hl.
  rewrite Nat2Z.inj_succ, Z.pow_succ_r by lia.
  assert (Hp : 0 < 128 ^ Z.of_nat m) by (apply Z.pow_pos_nonneg; lia).
  pose proof (Z.div_mod v 128 ltac:(lia)) as Hdm.
  pose proof (Z.mod_pos_bound v 128 ltac:(lia)) as Hmod.
  split; intros Hx.
  - assert (Hq : v / 128 < 128 ^ Z.of_nat m) by (apply Hl; lia).
    lia.
  - assert (Hq : v / 128 < 128 ^ Z.of_nat m) by lia.
    apply Hl in Hq. lia.
Qed.

(** 300 takes two bytes and not one. *)
Lemma varint_length_is_minimal_witness :
  ((length [130; 44] <= 2)%nat <-> 300 < 128 ^ Z.of_nat 2) /\
  ((length [130; 44] <= 1)%nat <-> 300 < 128 ^ Z.of_nat 1).
Proof.
  split.
  - apply (varint_length_is_minimal 300 [130; 44] 2);
      [lia|reflexivity|lia].
  - apply (varint_length_is_minimal 300 [130; 44] 1);
      [lia|reflexivity|lia].
Defined.

(** X2. Encodings are uniquely decodable: when the bytes written for
    [v1], followed by anything, are the bytes written for [v2], followed
    by anything, then the values, the encodings and what follows agree.
    No encoding is a proper prefix of another one. *)
Theorem varint_uniquely_decodable (v1 v2 : Z) (b1 b2 r1 r2 : list Z) :
  0 <= v1 < 2 ^ 64 -> 0 <= v2 < 2 ^ 64 ->
  Varint.ca_format_integer v1 = Ret b1 ->
  Varint.ca_format_integer v2 = Ret b2 ->
  b1 ++ r1 = b2 ++ r2 ->
  v1 = v2 /\ b1 = b2 /\ r1 = r2.
Proof.
  intros H1 H2 F1 F2 Heq.
  destruct (VarintMore.format_parse v1 H1) as (b1' & F1' & P1).
  destruct (VarintMore.format_parse v2 H2) as (b2' & F2' & P2).
  rewrite F1 in F1'. injection F1' as <-.
  rewrite F2 in F2'. injection F2' as <-.
  specialize (P1 r1). specialize (P2 r2).
  rewrite Heq, P2 in P1. injection P1 as Hv Hr.
  subst v2 r2. split; [reflexivity|]. split; [|reflexivity].
  rewrite F1 in F2. injection F2 as ->. reflexivity.
Qed.

Lemma varint_uniquely_decodable_witness :
  300 = 300 /\ [130; 44] = [130; 44] /\ [7; 8] = [7; 8].
Proof.
  apply (varint_uniquely_decodable 300 300 [130; 44] [130; 44] [7; 8] [7; 8]);
    try lia; reflexivity.
Defined.

(** X3. What [ca_parse_integer] consumes: it reads on while the bytes
    carry the continuation bit and stops behind the first byte that does
    not, with a value below 2^64, however many bytes it has read; when
    every byte of the input carries the continuation bit (an empty input
    included) it runs off the end of the input. *)
Theorem ca_parse_integer_consumes_to_terminal (input : list Z) :
  (forall front t rest,
      input = front ++ t :: rest ->
      Forall (fun b => Z.land b 0x80 <> 0) front ->
      Z.land t 0x80 = 0 ->
      exists v,
        Varint.ca_parse_integer input = Ret (v, rest) /\ 0 <= v < 2 ^ 64) /\
  (Forall (fun b => Z.land b 0x80 <> 0) input ->
   Varint.ca_parse_integer input = Fault).
Proof.
  split.
  - intros front t rest -> Hall Ht.
    rewrite VarintFacts.ca_parse_integer_loop.
    apply VarintMore.parse_loop_stops_at_terminal; try assumption.
    + lia.
    + discriminate.
  - intros Hall. rewrite VarintFacts.ca_parse_integer_loop.
    apply VarintMore.parse_loop_runs_off; [discriminate|exact Hall].
Qed.

(** X4. The header that [ca_format_time_float4] writes is read back by
    three calls of [ca_parse_integer]: they return the start time, the
    interval and the number of samples, and leave the pointer at the
    samples, four bytes each. *)
Theorem time_float4_header_roundtrip
  (start_time interval : Z) (sample_values rest : list Z) :
  0 <= start_time < 2 ^ 64 -> 0 <= interval < 2 ^ 32 ->
  zlength sample_values < 2 ^ 64 ->
  exists bytes,
    ca_format_time_float4 start_time interval sample_values = Ret bytes /\
    ('(t, p) <- Varint.ca_parse_integer (bytes ++ rest) ;;
     '(i, p) <- Varint.ca_parse_integer p ;;
     '(c, p) <- Varint.ca_parse_integer p ;;
     Ret (t, i, c, p))
    = Ret (start_time, interval, zlength sample_values,
           concat (map (le_bytes 4) sample_values) ++ rest) /\
    zlength (concat (map (le_bytes 4) sample_values))
    = 4 * zlength sample_values.
Proof.
  intros Ht Hi Hc. unfold ca_format_time_float4.
  pose proof (zlength_nonneg sample_values) as Hnn.
  destruct (VarintMore.format_parse start_time Ht) as (bt & Ft & Pt).
  destruct (VarintMore.format_parse interval ltac:(lia)) as (bi & Fi & Pi).
  destruct (VarintMore.format_parse (zlength sample_values) ltac:(lia))
    as (bc & Fc & Pc).
  rewrite Ft, Fi, Fc. cbn [bind].
  eexists. split; [reflexivity|]. split.
  - rewrite <- !app_assoc. rewrite Pt. cbn [bind].
    rewrite Pi. cbn [bind]. rewrite Pc. cbn [bind]. reflexivity.
  - clear. induction sample_values as [|s l IH].
    + reflexivity.
    + cbn [map concat]. rewrite zlength_app, IH, zlength_cons.
      change (zlength (le_bytes 4 s)) with 4. lia.
Qed.

(** A series of two samples that starts at 1000000 with interval 300. *)
Lemma time_float4_header_roundtrip_witness :
  exists bytes,
    ca_format_time_float4 1000000 300 [0x3f800000; 0x40000000] = Ret bytes /\
    ('(t, p) <- Varint.ca_parse_integer (bytes ++ [9]) ;;
     '(i, p) <- Varint.ca_parse_integer p ;;
     '(c, p) <- Varint.ca_parse_integer p ;;
     Ret (t, i, c, p))
    = Ret (1000000, 300, 2, [0; 0; 128; 63; 0; 0; 0; 64; 9]).
Proof.
  destruct (time_float4_header_roundtrip 1000000 300
              [0x3f800000; 0x40000000] [9]) as (bytes & Hf & Hp & _);
    [lia|lia|vm_compute; reflexivity|].
  exists bytes. split; [exact Hf|exact Hp].
Defined.

(** X5. [ca_parse_string] returns the bytes in front of the first NUL and
    leaves the pointer behind that NUL; on an input without NUL it runs
    off the end. *)
Theorem ca_parse_string_splits_at_nul (s rest : list Z) :
  Forall (fun b => b <> 0) s ->
  ca_parse_string (s ++ 0 :: rest) = Ret (s, rest) /\
  ca_parse_string s = Fault.
Proof.
  induction 1 as [|b s Hb _ [IH1 IH2]]; [split; reflexivity|].
  cbn [app ca_parse_string].
  destruct (Z.eqb_spec b 0); [contradiction|].
  rewrite IH1, IH2. split; reflexivity.
Qed.

Lemma ca_parse_string_splits_at_nul_witness :
  ca_parse_string ([97; 98] ++ 0 :: [99]) = Ret ([97; 98], [99]) /\
  ca_parse_string [97; 98] = Fault.
Proof.
  apply (ca_parse_string_splits_at_nul [97; 98] [99]).
  repeat constructor; discriminate.
Defined.

(** ** The reader: the cursor *)

Lemma u64_small (n : Z) : 0 <= n < 2 ^ 64 -> u64 n = n.
Proof. intros H. unfold u64. apply Z.mod_small. exact H. Qed.

Lemma KJ_REQUIRE_inv (cond : bool) (what : string) (u : unit) :
  KJ_REQUIRE cond what = Ret u -> cond = true.
Proof. destruct cond; [reflexivity|discriminate]. Qed.

(** What a successful [Seek] has checked and done. *)
Lemma Seek_inv (tb tb' : WriteOnceTable.t) (rel_offset : Z) (w : whence) :
  WriteOnceTable.Seek tb rel_offset w = Ret tb' ->
  exists new_offset,
    tb' = WriteOnceTable.set_offset tb new_offset /\
    sizeof_CA_wo_header <= new_offset
      <= index_offset (WriteOnceTable.header tb) /\
    match w with
    | SEEK_SET => 0 <= rel_offset /\
                  new_offset = u64 (sizeof_CA_wo_header + rel_offset)
    | SEEK_CUR => new_offset = u64 (WriteOnceTable.offset_ tb + rel_offset)
    | SEEK_END => rel_offset <= 0 /\
                  new_offset
                  = u64 (index_offset (WriteOnceTable.header tb) - rel_offset)
    end.
Proof.
  unfold WriteOnceTable.Seek. intros H.
  inv_bind H. inv_bind H. inv_bind H. injection H as <-.
  apply KJ_REQUIRE_inv in E0, E1.
  apply Z.geb_le in E0. apply Z.leb_le in E1.
  exists a. split; [reflexivity|]. split; [lia|].
  destruct w.
  - inv_bind E. apply KJ_REQUIRE_inv in E2. apply Z.geb_le in E2.
    injection E as <-. auto.
  - injection E as <-. reflexivity.
  - inv_bind E. apply KJ_REQUIRE_inv in E2. apply Z.leb_le in E2.
    injection E as <-. auto.
Qed.

(** X6. A successful [Seek] leaves the cursor between the end of the
    header and [index_offset], whatever the origin and the relative
    offset are, and changes nothing but the cursor. *)
Theorem Seek_keeps_cursor_in_data_region
  (tb tb' : WriteOnceTable.t) (rel_offset : Z) (w : whence) :
  WriteOnceTable.Seek tb rel_offset w = Ret tb' ->
  sizeof_CA_wo_header <= WriteOnceTable.offset_ tb'
    <= index_offset (WriteOnceTable.header tb') /\
  tb' = WriteOnceTable.set_offset tb (WriteOnceTable.offset_ tb').
Proof.
  intros H. apply Seek_inv in H. destruct H as (n & -> & Hn & _).
  cbn [WriteOnceTable.set_offset WriteOnceTable.offset_ WriteOnceTable.header].
  split; [exact Hn|reflexivity].
Qed.

Lemma i64_small (n : Z) : 0 <= n < 2 ^ 63 -> i64 n = n.
Proof. intros H. unfold i64. rewrite Z.mod_small; lia. Qed.

(** [Seek] with [SEEK_SET] to a place of the data region. *)
Lemma Seek_SET_to (tb : WriteOnceTable.t) (n : Z) :
  0 <= n ->
  sizeof_CA_wo_header + n <= index_offset (WriteOnceTable.header tb) ->
  index_offset (WriteOnceTable.header tb) < 2 ^ 64 ->
  WriteOnceTable.Seek tb n SEEK_SET
  = Ret (WriteOnceTable.set_offset tb (sizeof_CA_wo_header + n)).
Proof.
  unfold sizeof_CA_wo_header. intros Hn Hle Hio.
  unfold WriteOnceTable.Seek, sizeof_CA_wo_header.
  destruct (Z.geb_spec n 0); [|lia]. cbn [KJ_REQUIRE bind].
  rewrite u64_small by lia.
  destruct (Z.geb_spec (24 + n) 24); [|lia]. cbn [KJ_REQUIRE bind].
  destruct (Z.leb_spec (24 + n) (index_offset (WriteOnceTable.header tb)));
    [|lia].
  reflexivity.
Qed.

(** [Seek] with [SEEK_CUR] to a place of the data region. *)
Lemma Seek_CUR_to (tb : WriteOnceTable.t) (n : Z) :
  0 <= n ->
  sizeof_CA_wo_header + n <= index_offset (WriteOnceTable.header tb) ->
  index_offset (WriteOnceTable.header tb) < 2 ^ 64 ->
  WriteOnceTable.Seek tb
    (sizeof_CA_wo_header + n - WriteOnceTable.offset_ tb) SEEK_CUR
  = Ret (WriteOnceTable.set_offset tb (sizeof_CA_wo_header + n)).
Proof.
  unfold sizeof_CA_wo_header. intros Hn Hle Hio.
  unfold WriteOnceTable.Seek, sizeof_CA_wo_header. cbn [bind].
  replace (WriteOnceTable.offset_ tb
           + (24 + n - WriteOnceTable.offset_ tb)) with (24 + n) by lia.
  rewrite u64_small by lia.
  destruct (Z.geb_spec (24 + n) 24); [|lia]. cbn [KJ_REQUIRE bind].
  destruct (Z.leb_spec (24 + n) (index_offset (WriteOnceTable.header tb)));
    [|lia].
  reflexivity.
Qed.

(** X7. Seeking to a place [n] of the data region that an [off_t] can
    hold ([n] below 2^63) and asking for the offset: with [SEEK_SET], and
    with [SEEK_CUR] and the distance from the cursor (an [off_t] as
    well), [Seek] succeeds and [Offset] then returns the place, counted
    from the end of the header. *)
Theorem Seek_then_Offset (tb : WriteOnceTable.t) (n : Z) :
  0 <= n < 2 ^ 63 ->
  sizeof_CA_wo_header + n <= index_offset (WriteOnceTable.header tb) ->
  index_offset (WriteOnceTable.header tb) < 2 ^ 64 ->
  - 2 ^ 63 <= sizeof_CA_wo_header + n - WriteOnceTable.offset_ tb < 2 ^ 63 ->
  (exists tb',
      WriteOnceTable.Seek tb n SEEK_SET = Ret tb' /\
      WriteOnceTable.Offset tb' = n) /\
  (exists tb',
      WriteOnceTable.Seek tb
        (sizeof_CA_wo_header + n - WriteOnceTable.offset_ tb) SEEK_CUR
      = Ret tb' /\
      WriteOnceTable.Offset tb' = n).
Proof.
  intros Hn Hle Hio _.
  assert (Hoff : WriteOnceTable.Offset
                   (WriteOnceTable.set_offset tb (sizeof_CA_wo_header + n))
                 = n).
  { unfold WriteOnceTable.Offset.
    cbn [WriteOnceTable.set_offset WriteOnceTable.offset_].
    replace (sizeof_CA_wo_header + n - sizeof_CA_wo_header) with n by lia.
    rewrite u64_small by lia. apply i64_small. exact Hn. }
  split; eexists; (split; [|exact Hoff]).
  - apply Seek_SET_to; [lia|exact Hle|exact Hio].
  - apply Seek_CUR_to; [lia|exact Hle|exact Hio].
Qed.

(** X8. In a table whose [index_offset] is below 2^63, [Seek] with
    [SEEK_END] and a relative offset that is an [off_t] (not below -2^63):
    the relative offset must not be positive and is subtracted from
    [index_offset], so every negative offset aims behind the end of the
    data.  The only call that succeeds is the one with offset 0, which
    puts the cursor on [index_offset]: the data region cannot be entered
    from its end. *)
Theorem Seek_from_end_accepts_only_zero
  (tb tb' : WriteOnceTable.t) (rel_offset : Z) :
  0 <= index_offset (WriteOnceTable.header tb) < 2 ^ 63 ->
  - 2 ^ 63 <= rel_offset ->
  WriteOnceTable.Seek tb rel_offset SEEK_END = Ret tb' ->
  rel_offset = 0 /\
  WriteOnceTable.offset_ tb' = index_offset (WriteOnceTable.header tb).
Proof.
  intros Hio Hrel H. apply Seek_inv in H.
  destruct H as (n & -> & Hn & Hle & ->).
  cbn [WriteOnceTable.set_offset WriteOnceTable.offset_].
  rewrite u64_small in * by lia. lia.
Qed.

Lemma open_sample_file : WriteOnceTable.open 1 sample_file = Ret sample_table.
Proof. vm_compute. reflexivity. Qed.

(** In the sample table, a seek to the second record. *)
Lemma Seek_keeps_cursor_in_data_region_witness :
  WriteOnceTable.Seek sample_table 6 SEEK_CUR
  = Ret (WriteOnceTable.set_offset sample_table 30) /\
  sizeof_CA_wo_header <= 30 <= 34.
Proof.
  assert (H : WriteOnceTable.Seek sample_table 6 SEEK_CUR
              = Ret (WriteOnceTable.set_offset sample_table 30))
    by (vm_compute; reflexivity).
  split; [exact H|].
  exact (proj1 (Seek_keeps_cursor_in_data_region _ _ _ _ H)).
Defined.

Lemma Seek_then_Offset_witness :
  (exists tb',
      WriteOnceTable.Seek sample_table 6 SEEK_SET = Ret tb' /\
      WriteOnceTable.Offset tb' = 6) /\
  (exists tb',
      WriteOnceTable.Seek sample_table
        (sizeof_CA_wo_header + 6 - WriteOnceTable.offset_ sample_table)
        SEEK_CUR
      = Ret tb' /\
      WriteOnceTable.Offset tb' = 6).
Proof.
  apply (Seek_then_Offset sample_table 6);
    [lia|vm_compute; congruence|vm_compute; reflexivity
    |vm_compute; split; congruence].
Defined.

(** In the sample table, whose data end at offset 34: the seek to the end
    succeeds and is a seek by 0. *)
Lemma Seek_from_end_accepts_only_zero_witness :
  WriteOnceTable.Seek sample_table 0 SEEK_END
  = Ret (WriteOnceTable.set_offset sample_table 34) /\
  WriteOnceTable.Seek sample_table (-4) SEEK_END
  = Throw "attempt to seek past end of table" /\
  0 = 0 /\
  WriteOnceTable.offset_ (WriteOnceTable.set_offset sample_table 34) = 34.
Proof.
  assert (H : WriteOnceTable.Seek sample_table 0 SEEK_END
              = Ret (WriteOnceTable.set_offset sample_table 34))
    by (vm_compute; reflexivity).
  split; [exact H|]. split; [vm_compute; reflexivity|].
  apply (Seek_from_end_accepts_only_zero sample_table _ 0);
    [vm_compute; split; congruence|lia|exact H].
Defined.

(** ** The reader: rows of the data region *)

Lemma c_str_app (k : list Z) (rest : list Z) :
  Forall (fun b => b <> 0) k -> c_str (k ++ 0 :: rest) = Ret k.
Proof.
  induction 1 as [|b k Hb _ IH]; [reflexivity|].
  cbn [app c_str]. destruct (Z.eqb_spec b 0); [contradiction|].
  rewrite IH. reflexivity.
Qed.

Lemma load_middle (pre l post : list Z) :
  load (pre ++ l ++ post) (zlength pre) (length l) = Ret l.
Proof.
  unfold load. rewrite !zlength_app.
  pose proof (zlength_nonneg pre). pose proof (zlength_nonneg post).
  destruct (Z.leb_spec 0 (zlength pre)); [|lia].
  destruct (Z.leb_spec (zlength pre + Z.of_nat (length l))
              (zlength pre + (zlength l + zlength post)));
    [|unfold zlength in *; lia].
  cbn [andb]. rewrite skipn_app_exact by reflexivity.
  f_equal. rewrite firstn_app, firstn_all, Nat.sub_diag, firstn_O.
  apply app_nil_r.
Qed.

Lemma ptr_at_middle (pre rest : list Z) :
  ptr_at (pre ++ rest) (zlength pre) = Ret rest.
Proof.
  unfold ptr_at. rewrite zlength_app.
  pose proof (zlength_nonneg pre). pose proof (zlength_nonneg rest).
  destruct (Z.leb_spec 0 (zlength pre)); [|lia].
  destruct (Z.leb_spec (zlength pre) (zlength pre + zlength rest)); [|lia].
  cbn [andb]. now rewrite skipn_app_exact.
Qed.

(** The encoding of a value that is not zero does not begin with a zero
    byte. *)
Lemma format_first_byte (v : Z) (bs : list Z) :
  1 <= v < 2 ^ 64 ->
  Varint.ca_format_integer v = Ret bs ->
  exists b bs', bs = b :: bs' /\ b <> 0.
Proof.
  intros Hv H. unfold Varint.ca_format_integer in H.
  assert (Hs : 0 <= Z.shiftr v 7) by (apply Z.shiftr_nonneg; lia).
  destruct (VarintFacts.format_loop_shape 9 _ _ _ Hs H)
    as (front & Hbs & Hall & _).
  destruct front as [|b front].
  - pose proof (VarintMore.format_loop_length 9 _ _ _ 0 Hs H) as Hl.
    rewrite Hbs in Hl. simpl in Hl.
    assert (Hz : Z.shiftr v 7 < 1) by (apply Hl; lia).
    rewrite Z.shiftr_div_pow2 in Hz by lia. change (2 ^ 7) with 128 in Hz.
    exists (Z.land v 0x7f), []. split; [exact Hbs|].
    rewrite land_ones_7.
    pose proof (Z.div_mod v 128 ltac:(lia)).
    assert (v / 128 = 0) by (pose proof (Z.div_pos v 128); lia).
    lia.
  - exists b, (front ++ [Z.land v 0x7f]). split; [exact Hbs|].
    inversion Hall; subst. lia.
Qed.

(** The bytes of a record. *)
Lemma record_bytes_eq (k v : list Z) :
  zlength k + 1 + zlength v < 2 ^ 64 ->
  exists b sz,
    b <> 0 /\
    record_bytes (k, v) = (b :: sz) ++ k ++ [0] ++ v /\
    forall rest,
      Varint.ca_parse_integer ((b :: sz) ++ rest)
      = Ret (zlength k + 1 + zlength v, rest).
Proof.
  intros Hsz. pose proof (zlength_nonneg k). pose proof (zlength_nonneg v).
  destruct (VarintMore.format_parse (zlength k + 1 + zlength v) ltac:(lia))
    as (bs & Hfmt & Hparse).
  destruct (format_first_byte (zlength k + 1 + zlength v) bs ltac:(lia) Hfmt)
    as (b & sz & -> & Hb).
  exists b, sz. split; [exact Hb|]. split; [|exact Hparse].
  unfold record_bytes. cbn [fst snd]. rewrite Hfmt. reflexivity.
Qed.

Ltac zlengths :=
  repeat (rewrite zlength_app || rewrite zlength_cons);
  change (zlength (@nil Z)) with 0.

Section RowFacts.
Import WriteOnceTable.

(** [ReadRow] with the cursor on a record. *)
Lemma ReadRow_record (tb : t) (pre post k v : list Z) :
  buffer tb = pre ++ record_bytes (k, v) ++ post ->
  offset_ tb = zlength pre ->
  sizeof_CA_wo_header <= offset_ tb < index_offset (header tb) ->
  record_row (k, v) ->
  zlength (buffer tb) < 2 ^ 64 ->
  ReadRow tb
  = Ret (Some (k, {| sv_data := v ++ post; sv_size := zlength v |}),
         set_offset tb (offset_ tb + zlength (record_bytes (k, v)))).
Proof.
  intros Hbuf Hoff Hrange [Hnz Hsz] Hlen. cbn [fst snd] in Hnz, Hsz.
  destruct (record_bytes_eq k v Hsz) as (b & sz & Hb & Hrec & Hparse).
  pose proof (zlength_nonneg k). pose proof (zlength_nonneg v).
  pose proof (zlength_nonneg pre). pose proof (zlength_nonneg post).
  pose proof (zlength_nonneg sz).
  assert (Hload : load (buffer tb) (offset_ tb) 1 = Ret [b]).
  { rewrite Hbuf, Hoff, Hrec. rewrite <- !app_assoc.
    exact (load_middle pre [b] (sz ++ k ++ 0 :: v ++ post)). }
  assert (Hptr : ptr_at (buffer tb) (offset_ tb)
                 = Ret ((b :: sz) ++ k ++ 0 :: v ++ post)).
  { rewrite Hbuf, Hoff, Hrec. rewrite <- !app_assoc.
    apply ptr_at_middle. }
  assert (Hzbuf : zlength (buffer tb)
                  = zlength pre + (zlength sz + 1) + zlength k + 1
                    + zlength v + zlength post).
  { rewrite Hbuf, Hrec. cbn [app].
    zlengths. lia. }
  assert (Hzrec : zlength (record_bytes (k, v))
                  = zlength sz + 1 + zlength k + 1 + zlength v).
  { rewrite Hrec. cbn [app].
    zlengths. lia. }
  unfold ReadRow.
  destruct (Z.geb_spec (offset_ tb) sizeof_CA_wo_header); [|lia].
  cbn [KJ_REQUIRE bind].
  destruct (Z.geb_spec (offset_ tb) (index_offset (header tb))); [lia|].
  rewrite Hload. cbn [bind le_value].
  destruct (Z.eqb_spec (b + 256 * 0) 0); [lia|].
  rewrite Hptr. cbn [bind]. rewrite Hparse. cbn [bind].
  rewrite (c_str_app k (v ++ post) Hnz). cbn [bind].
  destruct (Z.gtb_spec (zlength k + 1 + zlength v) (zlength k)); [|lia].
  cbn [KJ_REQUIRE bind].
  f_equal. f_equal.
  - f_equal. f_equal. f_equal.
    + replace (k ++ 0 :: v ++ post) with ((k ++ [0]) ++ v ++ post)
        by (rewrite <- app_assoc; reflexivity).
      apply skipn_app_exact. zlengths. lia.
    + lia.
  - f_equal. rewrite Hzbuf, Hzrec. zlengths.
    rewrite u64_small by lia. lia.
Qed.

Lemma read_rows_S (fuel : nat) (tb : t) :
  read_rows (S fuel) tb
  = ('(row, tb) <- ReadRow tb ;;
     match row with
     | None => Ret []
     | Some (key, value) =>
         v <- sv_bytes value ;;
         rows <- read_rows fuel tb ;;
         Ret ((key, v) :: rows)
     end).
Proof. reflexivity. Qed.

(** [ReadRow] until it returns false, from a cursor in front of a
    sequence of records that ends where the data end. *)
Lemma read_rows_records (post : list Z) (rows : list (list Z * list Z)) :
  forall (tb : t) (pre : list Z),
    buffer tb = pre ++ concat (map record_bytes rows) ++ post ->
    offset_ tb = zlength pre ->
    sizeof_CA_wo_header <= offset_ tb ->
    index_offset (header tb)
    = zlength pre + zlength (concat (map record_bytes rows)) ->
    Forall record_row rows ->
    zlength (buffer tb) < 2 ^ 64 ->
    read_rows (S (length rows)) tb = Ret rows.
Proof.
  induction rows as [|[k v] rows IH];
    intros tb pre Hbuf Hoff Hstart Hend Hrows Hlen.
  - cbn [read_rows]. unfold ReadRow.
    destruct (Z.geb_spec (offset_ tb) sizeof_CA_wo_header); [|lia].
    cbn [KJ_REQUIRE bind]. cbn [map concat] in Hend.
    rewrite zlength_nil in Hend.
    destruct (Z.geb_spec (offset_ tb) (index_offset (header tb))); [|lia].
    reflexivity.
  - inversion Hrows as [|? ? Hrow Hrows']; subst.
    cbn [map concat] in Hbuf, Hend. rewrite <- app_assoc in Hbuf.
    rewrite zlength_app in Hend.
    pose proof (zlength_nonneg (concat (map record_bytes rows))).
    assert (Hpos : 0 < zlength (record_bytes (k, v))).
    { destruct Hrow as [_ Hsz]. cbn [fst snd] in Hsz.
      destruct (record_bytes_eq k v Hsz) as (b & sz & _ & -> & _).
      zlengths. pose proof (zlength_nonneg sz).
      pose proof (zlength_nonneg k). pose proof (zlength_nonneg v). lia. }
    change (length ((k, v) :: rows)) with (S (length rows)).
    rewrite read_rows_S.
    rewrite (ReadRow_record tb pre _ k v Hbuf Hoff ltac:(lia) Hrow Hlen).
    cbn [bind].
    rewrite (sv_bytes_exact _ v (concat (map record_bytes rows) ++ post)
               (zlength v) eq_refl eq_refl).
    cbn [bind].
    rewrite (IH (set_offset tb (offset_ tb + zlength (record_bytes (k, v))))
               (pre ++ record_bytes (k, v))).
    + reflexivity.
    + cbn [set_offset buffer]. rewrite Hbuf, <- app_assoc. reflexivity.
    + cbn [set_offset offset_]. rewrite zlength_app. lia.
    + cbn [set_offset offset_]. lia.
    + cbn [set_offset header]. rewrite Hend, zlength_app. lia.
    + exact Hrows'.
    + exact Hlen.
Qed.

Lemma parse_loop_skip_size (rest : list Z) :
  forall r cur v q,
    Varint.parse_loop r cur rest = Ret (v, q) ->
    skip_size (cur :: rest) = Ret q.
Proof.
  induction rest as [|b rest IH]; intros r cur v q H; simpl in H |- *;
    destruct (Z.land cur 128 =? 0); try discriminate H.
  - injection H as _ <-. reflexivity.
  - injection H as _ <-. reflexivity.
  - exact (IH _ _ _ _ H).
Qed.

End RowFacts.

(** X9. [ReadRow] with the cursor on a record (the size of what follows
    as a varint, the key, a NUL, the value) returns the key and the value
    of the record and moves the cursor to the byte behind the record. *)
Theorem ReadRow_reads_record
  (tb : WriteOnceTable.t) (pre post k v : list Z) :
  WriteOnceTable.buffer tb = pre ++ record_bytes (k, v) ++ post ->
  WriteOnceTable.offset_ tb = zlength pre ->
  sizeof_CA_wo_header <= WriteOnceTable.offset_ tb
    < index_offset (WriteOnceTable.header tb) ->
  record_row (k, v) ->
  zlength (WriteOnceTable.buffer tb) < 2 ^ 64 ->
  exists value tb',
    WriteOnceTable.ReadRow tb = Ret (Some (k, value), tb') /\
    sv_bytes value = Ret v /\
    tb' = WriteOnceTable.set_offset tb
            (zlength (pre ++ record_bytes (k, v))).
Proof.
  intros Hbuf Hoff Hrange Hrow Hlen.
  eexists. eexists. split; [|split].
  - apply (ReadRow_record tb pre post k v); assumption.
  - apply (sv_bytes_exact _ v post); reflexivity.
  - rewrite zlength_app, Hoff. reflexivity.
Qed.

(** The first record of the sample file. *)
Lemma ReadRow_reads_record_witness :
  exists value tb',
    WriteOnceTable.ReadRow sample_table
    = Ret (Some (bytes_of "a", value), tb') /\
    sv_bytes value = Ret (bytes_of "xyz") /\
    tb' = WriteOnceTable.set_offset sample_table 30.
Proof.
  apply (ReadRow_reads_record sample_table (header_bytes sample_header)
           (record_bytes (row "b" "q")
            ++ le_bytes 8 24 ++ le_bytes 8 30 ++ le_bytes 8 0 ++ le_bytes 8 0)
           (bytes_of "a") (bytes_of "xyz")).
  - reflexivity.
  - reflexivity.
  - vm_compute. split; congruence.
  - split; [repeat constructor; discriminate|vm_compute; reflexivity].
  - vm_compute. reflexivity.
Defined.

(** X10. A scan reads back the records: when the data region, from the
    end of the header to [index_offset], is a sequence of records,
    [SeekToFirst] and then [ReadRow] until it returns false yield the
    rows of the records, all of them and in the order of the file. *)
Theorem scan_reads_all_records
  (tb : WriteOnceTable.t) (hdr post : list Z) (rows : list (list Z * list Z)) :
  WriteOnceTable.buffer tb = hdr ++ concat (map record_bytes rows) ++ post ->
  zlength hdr = sizeof_CA_wo_header ->
  index_offset (WriteOnceTable.header tb)
  = sizeof_CA_wo_header + zlength (concat (map record_bytes rows)) ->
  Forall record_row rows ->
  zlength (WriteOnceTable.buffer tb) < 2 ^ 64 ->
  WriteOnceTable.scan (S (length rows)) tb = Ret rows.
Proof.
  intros Hbuf Hhdr Hend Hrows Hlen.
  pose proof (zlength_nonneg (concat (map record_bytes rows))) as Hnn.
  assert (Hbound : index_offset (WriteOnceTable.header tb) < 2 ^ 64).
  { rewrite Hbuf, !zlength_app in Hlen.
    pose proof (zlength_nonneg post). lia. }
  unfold WriteOnceTable.scan, WriteOnceTable.SeekToFirst.
  rewrite (Seek_SET_to tb 0 ltac:(lia) ltac:(lia) Hbound). cbn [bind].
  rewrite Z.add_0_r.
  apply (read_rows_records post rows _ hdr).
  - exact Hbuf.
  - cbn [WriteOnceTable.set_offset WriteOnceTable.offset_]. congruence.
  - cbn [WriteOnceTable.set_offset WriteOnceTable.offset_]. lia.
  - cbn [WriteOnceTable.set_offset WriteOnceTable.header]. rewrite Hhdr.
    exact Hend.
  - exact Hrows.
  - exact Hlen.
Qed.

(** The sample file is opened and scanned. *)
Lemma scan_reads_all_records_witness :
  WriteOnceTable.open 1 sample_file = Ret sample_table /\
  WriteOnceTable.scan 3 sample_table = Ret [row "a" "xyz"; row "b" "q"].
Proof.
  split; [vm_compute; reflexivity|].
  apply (scan_reads_all_records sample_table (header_bytes sample_header)
           (le_bytes 8 24 ++ le_bytes 8 30 ++ le_bytes 8 0 ++ le_bytes 8 0)
           sample_rows).
  - reflexivity.
  - reflexivity.
  - vm_compute. reflexivity.
  - repeat constructor; try discriminate; vm_compute; reflexivity.
  - vm_compute. reflexivity.
Defined.

(** X11. A lookup and then a read: when [SeekToKey (k)] has returned true
    and the following [ReadRow] returns a row, the key of that row is
    [k]. *)
Theorem ReadRow_after_SeekToKey_has_the_key
  (Hash : list Z -> Z) (madvise : Z -> Z -> bool) (fuel : nat)
  (tb tb' tb'' : WriteOnceTable.t) (k key : list Z) (value : string_view) :
  WriteOnceTable.SeekToKey Hash madvise fuel tb k = Ret (true, tb') ->
  WriteOnceTable.ReadRow tb' = Ret (Some (key, value), tb'') ->
  key = k.
Proof.
  intros Hseek Hread.
  apply SeekToKey_true in Hseek.
  destruct Hseek as (_ & p & data & Hp & Hskip & Hk).
  unfold WriteOnceTable.ReadRow in Hread.
  inv_bind Hread.
  destruct (WriteOnceTable.offset_ tb'
            >=? index_offset (WriteOnceTable.header tb'));
    [discriminate Hread|].
  inv_bind Hread.
  destruct (le_value a0 =? 0); [discriminate Hread|].
  rewrite Hp in Hread. cbn [bind] in Hread.
  destruct (Varint.ca_parse_integer p) as [[size q]| | |] eqn:Hparse;
    cbn [bind] in Hread; try discriminate Hread.
  assert (Hq : WriteOnceTable.skip_size p = Ret q).
  { destruct p as [|b p]; [discriminate Hparse|].
    exact (parse_loop_skip_size _ _ _ _ _ Hparse). }
  rewrite Hskip in Hq. injection Hq as <-.
  rewrite Hk in Hread. cbn [bind] in Hread.
  inv_bind Hread. injection Hread as <- _ _. reflexivity.
Qed.

(** In the sample table: the lookup of the key b, then the read. *)
Lemma ReadRow_after_SeekToKey_has_the_key_witness :
  exists tb' value tb'',
    WriteOnceTable.SeekToKey (fun _ => 0) (fun _ _ => true) 2 sample_table
      (bytes_of "b") = Ret (true, tb') /\
    WriteOnceTable.ReadRow tb' = Ret (Some (bytes_of "b", value), tb'').
Proof.
  destruct (WriteOnceTable.SeekToKey (fun _ => 0) (fun _ _ => true) 2
              sample_table (bytes_of "b")) as [[found tb']| | |] eqn:Hseek;
    try (vm_compute in Hseek; discriminate Hseek).
  destruct found; [|vm_compute in Hseek; discriminate Hseek].
  destruct (WriteOnceTable.ReadRow tb') as [[[[key value]|] tb'']| | |]
    eqn:Hread;
    try (vm_compute in Hseek; injection Hseek as <-;
         vm_compute in Hread; discriminate Hread).
  exists tb', value, tb''. split; [reflexivity|].
  rewrite Hread.
  rewrite (ReadRow_after_SeekToKey_has_the_key _ _ _ _ _ _ _ _ _
             Hseek Hread).
  reflexivity.
Defined.

(** ** A scan of a built file *)

Section GarbageScan.
Import WriteOnceTable.

(** [SeekToFirst] asks only whether the data region has room for the
    cursor. *)
Lemma SeekToFirst_cases (tb : t) :
  SeekToFirst tb
  = if sizeof_CA_wo_header <=? index_offset (header tb)
    then Ret (set_offset tb sizeof_CA_wo_header)
    else Throw "attempt to seek past end of table".
Proof.
  unfold SeekToFirst, Seek. cbn [KJ_REQUIRE bind Z.geb Z.compare].
  change (u64 (sizeof_CA_wo_header + 0)) with sizeof_CA_wo_header.
  change (sizeof_CA_wo_header >=? sizeof_CA_wo_header) with true.
  cbn [KJ_REQUIRE bind].
  destruct (sizeof_CA_wo_header <=? index_offset (header tb)); reflexivity.
Qed.

(** [ReadRow] with the cursor at or behind [index_offset]. *)
Lemma ReadRow_at_end (tb : t) :
  sizeof_CA_wo_header <= offset_ tb ->
  index_offset (header tb) <= offset_ tb ->
  ReadRow tb = Ret (None, tb).
Proof.
  intros Hlo Hhi. unfold ReadRow.
  destruct (Z.geb_spec (offset_ tb) sizeof_CA_wo_header); [|lia].
  cbn [KJ_REQUIRE bind].
  destruct (Z.geb_spec (offset_ tb) (index_offset (header tb))); [|lia].
  reflexivity.
Qed.

(** [ReadRow] with the cursor on a zero byte. *)
Lemma ReadRow_zero_byte (tb : t) (pre post : list Z) :
  buffer tb = pre ++ 0 :: post ->
  offset_ tb = zlength pre ->
  sizeof_CA_wo_header <= offset_ tb ->
  ReadRow tb = Ret (None, tb).
Proof.
  intros Hbuf Hoff Hlo. unfold ReadRow.
  destruct (Z.geb_spec (offset_ tb) sizeof_CA_wo_header); [|lia].
  cbn [KJ_REQUIRE bind].
  destruct (offset_ tb >=? index_offset (header tb)); [reflexivity|].
  rewrite Hbuf, Hoff.
  pose proof (load_middle pre [0] post) as Hload.
  cbn [app length] in Hload. rewrite Hload. reflexivity.
Qed.

(** A scan over a mapping that has the bytes 4 1 0 0 0 1 0 0 behind the
    header, as a block of four rows with keys of one byte begins.
    [ReadRow] takes them for a record of four bytes with the key 1, a
    record of one byte with the empty key, and the end of the data; how
    far the scan gets depends on [index_offset]. *)
Lemma scan_of_block_bytes (tb : t) (hdr post : list Z) :
  buffer tb
  = hdr ++ record_bytes ([1], [0; 0]) ++ record_bytes ([], []) ++ 0 :: post ->
  zlength hdr = sizeof_CA_wo_header ->
  zlength (buffer tb) < 2 ^ 64 ->
  (forall fuel,
      In (scan (3 + fuel) tb)
         [Throw "attempt to seek past end of table"; Ret [];
          Ret [([1], [0; 0])]; Ret [([1], [0; 0]); ([], [])]]) /\
  (forall fuel rows,
      scan fuel tb = Ret rows ->
      In rows [[]; [([1], [0; 0])]; [([1], [0; 0]); ([], [])]]).
Proof.
  intros Hbuf Hhdr Hlen.
  set (io := index_offset (header tb)).
  set (tb1 := set_offset tb sizeof_CA_wo_header).
  set (tb2 := set_offset tb1 (offset_ tb1
                              + zlength (record_bytes ([1], [0; 0])))).
  set (tb3 := set_offset tb2 (offset_ tb2
                              + zlength (record_bytes ([], [])))).
  assert (Hrow1 : record_row ([1], [0; 0]))
    by (split; [repeat constructor; discriminate|vm_compute; reflexivity]).
  assert (Hrow2 : record_row ([], []))
    by (split; [constructor|vm_compute; reflexivity]).
  assert (R1 : sizeof_CA_wo_header < io ->
               ReadRow tb1
               = Ret (Some ([1], {| sv_data := [0; 0] ++ record_bytes ([], [])
                                               ++ 0 :: post;
                                    sv_size := zlength [0; 0] |}), tb2)).
  { intros Hio.
    apply (ReadRow_record tb1 hdr _ [1] [0; 0]).
    - exact Hbuf.
    - symmetry. exact Hhdr.
    - split; [reflexivity|exact Hio].
    - exact Hrow1.
    - exact Hlen. }
  assert (R2 : 29 < io ->
               ReadRow tb2
               = Ret (Some ([], {| sv_data := [] ++ 0 :: post;
                                   sv_size := zlength (@nil Z) |}), tb3)).
  { intros Hio.
    apply (ReadRow_record tb2 (hdr ++ record_bytes ([1], [0; 0])) _ [] []).
    - cbn [set_offset buffer tb2 tb1]. rewrite Hbuf, <- !app_assoc.
      reflexivity.
    - cbn [set_offset offset_ tb2 tb1]. rewrite zlength_app, Hhdr.
      reflexivity.
    - cbn [set_offset offset_ header tb2 tb1]. split; [|exact Hio].
      vm_compute. discriminate.
    - exact Hrow2.
    - exact Hlen. }
  assert (E1 : io <= sizeof_CA_wo_header -> ReadRow tb1 = Ret (None, tb1)).
  { intros Hio. apply ReadRow_at_end; [reflexivity|exact Hio]. }
  assert (E2 : io <= 29 -> ReadRow tb2 = Ret (None, tb2)).
  { intros Hio. apply ReadRow_at_end; [vm_compute; discriminate|exact Hio]. }
  assert (E3 : ReadRow tb3 = Ret (None, tb3)).
  { apply (ReadRow_zero_byte tb3
             (hdr ++ record_bytes ([1], [0; 0]) ++ record_bytes ([], []))
             post).
    - cbn [set_offset buffer tb3 tb2 tb1]. rewrite Hbuf, <- !app_assoc.
      reflexivity.
    - cbn [set_offset offset_ tb3 tb2 tb1]. rewrite !zlength_app, Hhdr.
      reflexivity.
    - vm_compute. discriminate. }
  assert (V1 : sv_bytes {| sv_data := [0; 0] ++ record_bytes ([], [])
                                      ++ 0 :: post;
                           sv_size := zlength [0; 0] |} = Ret [0; 0])
    by (eapply sv_bytes_exact; reflexivity).
  assert (V2 : sv_bytes {| sv_data := [] ++ 0 :: post;
                           sv_size := zlength (@nil Z) |} = Ret [])
    by (eapply sv_bytes_exact; reflexivity).
  unfold scan. rewrite SeekToFirst_cases. fold io. fold tb1.
  destruct (Z.leb_spec sizeof_CA_wo_header io) as [H24|H24].
  2: { split; [intros fuel; left; reflexivity|discriminate]. }
  cbn [bind].
  destruct (Z.eq_dec io sizeof_CA_wo_header) as [Heq|Hne].
  { specialize (E1 ltac:(lia)). split.
    - intros fuel. change (3 + fuel)%nat with (S (2 + fuel)).
      rewrite read_rows_S, E1. right. left. reflexivity.
    - intros [|fuel] rows H; [discriminate H|].
      rewrite read_rows_S, E1 in H. injection H as <-. left. reflexivity. }
  specialize (R1 ltac:(lia)).
  destruct (Z.le_gt_cases io 29) as [H29|H29].
  { specialize (E2 H29). split.
    - intros fuel. change (3 + fuel)%nat with (S (S (S fuel))).
      rewrite read_rows_S, R1. cbn [bind]. rewrite V1. cbn [bind].
      rewrite read_rows_S, E2. right. right. left. reflexivity.
    - intros [|[|fuel]] rows H; [discriminate H| |];
        rewrite read_rows_S, R1 in H; cbn [bind] in H;
        rewrite V1 in H; cbn [bind] in H.
      + discriminate H.
      + rewrite read_rows_S, E2 in H. injection H as <-.
        right. left. reflexivity. }
  specialize (R2 ltac:(lia)). split.
  - intros fuel. change (3 + fuel)%nat with (S (S (S fuel))).
    rewrite read_rows_S, R1. cbn [bind]. rewrite V1. cbn [bind].
    rewrite read_rows_S, R2. cbn [bind]. rewrite V2. cbn [bind].
    rewrite read_rows_S, E3. right. right. right. left. reflexivity.
  - intros [|[|[|fuel]]] rows H; [discriminate H| | |];
      rewrite read_rows_S, R1 in H; cbn [bind] in H;
      rewrite V1 in H; cbn [bind] in H;
      try discriminate H;
      rewrite read_rows_S, R2 in H; cbn [bind] in H;
      rewrite V2 in H; cbn [bind] in H;
      try discriminate H.
    rewrite read_rows_S, E3 in H. injection H as <-.
    right. right. left. reflexivity.
Qed.

End GarbageScan.

(** C1. The rows of the test [CanWriteThenRead], ("a", "xxx"),
    ("b", "yyy"), ("c", "zzz") and ("d", "www"), are added, the table is
    built and the file is reopened, whatever the stack held where
    [index_offset] lies.  The builder has written a block, which begins
    with the number of its rows and their key sizes, where [ReadRow]
    expects records.  [SeekToFirst] and [ReadRow] until it returns false
    then throw "attempt to seek past end of table", or yield no row, or
    the row with the key 1 and the value 0 0, or this row and a row with
    an empty key and an empty value.  They never yield the four rows
    added, in any order. *)
Theorem scan_of_built_table_loses_the_rows (uninit : Z) :
  exists file tb,
    build_table 1 255 plain_options spec_value_encode uninit rows_sorted
    = Ret file /\
    WriteOnceTable.open 1 file = Ret tb /\
    (forall fuel,
        In (WriteOnceTable.scan (3 + fuel) tb)
           [Throw "attempt to seek past end of table"; Ret [];
            Ret [([1], [0; 0])]; Ret [([1], [0; 0]); ([], [])]]) /\
    (forall fuel rows,
        WriteOnceTable.scan fuel tb = Ret rows ->
        ~ Permutation rows rows_sorted).
Proof.
  set (body := blocks_bytes spec_value_encode [rows_sorted]
               ++ WriteOnceIndex.Marshal spec_value_encode
                    (index_of_groups spec_value_encode [rows_sorted])).
  destruct (open_built_file fresh_builder uninit body eq_refl eq_refl)
    as (tb & Hopen & Hbuf & _).
  exists (header_bytes (built_header fresh_builder uninit) ++ body), tb.
  split; [apply build_rows_sorted|]. split; [exact Hopen|].
  assert (Hbody : body = record_bytes ([1], [0; 0]) ++ record_bytes ([], [])
                         ++ 0 :: skipn 8 body)
    by (vm_compute; reflexivity).
  rewrite Hbody in Hbuf.
  destruct (scan_of_block_bytes tb _ _ Hbuf (zlength_header_bytes _))
    as (Hall & Hret).
  { rewrite Hbuf, zlength_app, zlength_header_bytes.
    vm_compute. reflexivity. }
  split; [exact Hall|].
  intros fuel rows Hscan Hperm.
  apply Permutation_length in Hperm.
  apply Hret in Hscan.
  destruct Hscan as [<-|[<-|[<-|[]]]]; discriminate Hperm.
Qed.

(** ** The reader: the hash index *)

Lemma stored_key_at_fun (buffer : list Z) (off : Z) (k1 k2 : list Z) :
  stored_key_at buffer off k1 -> stored_key_at buffer off k2 -> k1 = k2.
Proof.
  intros (p1 & d1 & Hp1 & Hs1 & Hc1) (p2 & d2 & Hp2 & Hs2 & Hc2).
  congruence.
Qed.

Section ProbeFacts.
Import WriteOnceTable.

(** A probe that ends without the key has not touched the table. *)
Lemma probe_false (fuel : nat) :
  forall tb key hash min_offset max_offset fib0 fib1 collisions tb',
    probe fuel tb key hash min_offset max_offset fib0 fib1 collisions
    = Ret (false, tb') ->
    tb' = tb.
Proof.
  induction fuel as [|fuel IH];
    intros tb key hash min_offset max_offset fib0 fib1 collisions tb' H.
  - discriminate H.
  - cbn [probe] in H.
    destruct (slot tb hash) as [tmp_offset| | |] eqn:Hslot;
      cbn [bind] in H; try discriminate H.
    destruct (tmp_offset =? 0); [injection H as <-; reflexivity|].
    destruct ((tmp_offset >=? min_offset) && (tmp_offset <=? max_offset)).
    + destruct (ptr_at (buffer tb) tmp_offset) as [p| | |] eqn:Hp;
        cbn [bind] in H; try discriminate H.
      destruct (skip_size p) as [data| | |] eqn:Hdata;
        cbn [bind] in H; try discriminate H.
      destruct (c_str data) as [stored| | |] eqn:Hstored;
        cbn [bind] in H; try discriminate H.
      destruct (sv_compare key stored =? 0); cbn [bind] in H;
        [discriminate H|].
      destruct (sv_compare key stored <? 0); cbn [bind] in H;
        destruct (major_version (header tb) >=? 3);
        try (apply IH in H; exact H);
        destruct (Z.land (u32 (collisions + 1)) 1 =? 0);
        apply IH in H; exact H.
    + cbn [bind] in H.
      destruct (major_version (header tb) >=? 3);
        try (apply IH in H; exact H).
      destruct (Z.land (u32 (collisions + 1)) 1 =? 0);
        apply IH in H; exact H.
Qed.

Section Linear.
Variable tb : t.
Variable key : list Z.
Hypothesis Hver : 3 <= major_version (header tb).
Hypothesis Hsize : 0 < index_size tb < 2 ^ 64.

Lemma probe_slot_range (h d : Z) : 0 <= probe_slot tb h d < index_size tb.
Proof. unfold probe_slot. apply Z.mod_pos_bound. lia. Qed.

Lemma probe_slot_next (h d : Z) :
  (if u64 (probe_slot tb h d + 1) =? index_size tb then 0
   else u64 (probe_slot tb h d + 1))
  = probe_slot tb h (d + 1).
Proof.
  pose proof (probe_slot_range h d) as Hr.
  rewrite u64_small by lia.
  assert (Hnext : probe_slot tb h (d + 1)
                  = (probe_slot tb h d + 1) mod index_size tb).
  { unfold probe_slot. rewrite Z.add_mod_idemp_l by lia.
    f_equal. lia. }
  rewrite Hnext.
  destruct (Z.eqb_spec (probe_slot tb h d + 1) (index_size tb)) as [->|Hne].
  - now rewrite Z.mod_same by lia.
  - rewrite Z.mod_small by lia. reflexivity.
Qed.

(** One turn of the loop on a slot that holds nothing. *)
Lemma probe_empty_slot (fuel : nat) (hash min_offset max_offset f0 f1 c : Z) :
  slot tb hash = Ret 0 ->
  probe (S fuel) tb key hash min_offset max_offset f0 f1 c = Ret (false, tb).
Proof. intros Hslot. cbn [probe]. rewrite Hslot. reflexivity. Qed.

(** One turn of the loop on a slot that holds the offset of a record. *)
Lemma probe_taken_slot (fuel : nat) (h j min_offset max_offset f0 f1 c : Z)
  (v : Z) (stored : list Z) :
  slot tb (probe_slot tb h j) = Ret v -> v <> 0 ->
  stored_key_at (buffer tb) v stored ->
  probe (S fuel) tb key (probe_slot tb h j) min_offset max_offset f0 f1 c
  = if (v >=? min_offset) && (v <=? max_offset) then
      if sv_compare key stored =? 0 then Ret (true, set_offset tb v)
      else if sv_compare key stored <? 0 then
        probe fuel tb key (probe_slot tb h (j + 1)) min_offset
          (if IsSorted tb then v else max_offset) f0 f1 c
      else
        probe fuel tb key (probe_slot tb h (j + 1))
          (if IsSorted tb then v else min_offset) max_offset f0 f1 c
    else
      probe fuel tb key (probe_slot tb h (j + 1)) min_offset max_offset
        f0 f1 c.
Proof.
  intros Hslot Hnz (p & data & Hp & Hdata & Hstored).
  cbn [probe]. rewrite Hslot. cbn [bind].
  destruct (Z.eqb_spec v 0); [contradiction|].
  destruct (Z.geb_spec (major_version (header tb)) 3); [|lia].
  rewrite probe_slot_next. unfold IsSorted.
  destruct ((v >=? min_offset) && (v <=? max_offset)); cbn [bind].
  - rewrite Hp. cbn [bind]. rewrite Hdata. cbn [bind].
    rewrite Hstored. cbn [bind].
    destruct (sv_compare key stored =? 0); cbn [bind]; [reflexivity|].
    destruct (sv_compare key stored <? 0); cbn [bind]; reflexivity.
  - reflexivity.
Qed.

Hypothesis Hwf : index_well_formed tb.

Section Hit.
Variables h d o : Z.
Hypothesis Hasc : IsSorted tb = true -> index_ascending tb.
Hypothesis Hchain : chain_taken tb h d.
Hypothesis Hslot : slot tb (probe_slot tb h d) = Ret o.
Hypothesis Ho : o <> 0.
Hypothesis Hkey : stored_key_at (buffer tb) o key.

(** The probe sequence reaches the slot of the key, unless it finds the
    key before. *)
Lemma probe_finds (m : nat) :
  forall (j min_offset max_offset : Z) (fuel : nat) (f0 f1 c : Z),
    0 <= j -> j + Z.of_nat m = d ->
    min_offset <= o <= max_offset ->
    (m < fuel)%nat ->
    exists tb',
      probe fuel tb key (probe_slot tb h j) min_offset max_offset f0 f1 c
      = Ret (true, tb') /\
      stored_key_at (buffer tb) (offset_ tb') key.
Proof.
  induction m as [|m IH];
    intros j min_offset max_offset fuel f0 f1 c Hj Hd Hbounds Hfuel;
    (destruct fuel as [|fuel]; [lia|]).
  - replace j with d by lia.
    rewrite (probe_taken_slot fuel h d _ _ _ _ _ o key Hslot Ho Hkey).
    destruct (Z.geb_spec o min_offset); [|lia].
    destruct (Z.leb_spec o max_offset); [|lia].
    cbn [andb]. rewrite sv_compare_refl. cbn [Z.eqb].
    eexists. split; [reflexivity|exact Hkey].
  - destruct (Hchain j ltac:(lia)) as (v & Hv & Hnz).
    destruct (Hwf _ (probe_slot_range h j)) as (v' & Hv' & Hrec).
    rewrite Hv in Hv'. injection Hv' as <-.
    destruct Hrec as [|(stored & Hstored)]; [contradiction|].
    rewrite (probe_taken_slot fuel h j _ _ _ _ _ v stored Hv Hnz Hstored).
    destruct ((v >=? min_offset) && (v <=? max_offset)).
    + destruct (Z.eqb_spec (sv_compare key stored) 0) as [Heq|Hne].
      * apply sv_compare_eq in Heq. subst stored.
        eexists. split; [reflexivity|exact Hstored].
      * assert (Horder : IsSorted tb = true ->
                         (v <= o -> sv_compare key stored >= 0) /\
                         (o <= v -> sv_compare key stored <= 0)).
        { intros Hs. specialize (Hasc Hs). split; intros Hle.
          - pose proof (Hasc _ _ _ _ _ _ (probe_slot_range h j)
                          (probe_slot_range h d) Hv Hnz Hslot Ho
                          Hstored Hkey Hle) as Hk.
            unfold key_le in Hk. rewrite sv_compare_antisym in Hk. lia.
          - pose proof (Hasc _ _ _ _ _ _ (probe_slot_range h d)
                          (probe_slot_range h j) Hslot Ho Hv Hnz
                          Hkey Hstored Hle) as Hk.
            exact Hk. }
        destruct (Z.ltb_spec (sv_compare key stored) 0) as [Hlt|Hge].
        -- apply IH; try lia.
           destruct (IsSorted tb); [|lia].
           destruct (Horder eq_refl) as [H1 _].
           destruct (Z.le_gt_cases o v); [lia|].
           specialize (H1 ltac:(lia)). lia.
        -- apply IH; try lia.
           destruct (IsSorted tb); [|lia].
           destruct (Horder eq_refl) as [_ H2].
           destruct (Z.le_gt_cases v o); [lia|].
           specialize (H2 ltac:(lia)). lia.
    + apply IH; try lia.
Qed.

End Hit.

Section Miss.
Variables h d : Z.
Hypothesis Hchain : chain_taken tb h d.
Hypothesis Hslot : slot tb (probe_slot tb h d) = Ret 0.
Hypothesis Hother :
  forall j v stored,
    0 <= j < d -> slot tb (probe_slot tb h j) = Ret v ->
    stored_key_at (buffer tb) v stored -> stored <> key.

(** The probe sequence reaches the empty slot. *)
Lemma probe_misses (m : nat) :
  forall (j min_offset max_offset : Z) (fuel : nat) (f0 f1 c : Z),
    0 <= j -> j + Z.of_nat m = d ->
    (m < fuel)%nat ->
    probe fuel tb key (probe_slot tb h j) min_offset max_offset f0 f1 c
    = Ret (false, tb).
Proof.
  induction m as [|m IH];
    intros j min_offset max_offset fuel f0 f1 c Hj Hd Hfuel;
    (destruct fuel as [|fuel]; [lia|]).
  - replace j with d by lia. apply probe_empty_slot. exact Hslot.
  - destruct (Hchain j ltac:(lia)) as (v & Hv & Hnz).
    destruct (Hwf _ (probe_slot_range h j)) as (v' & Hv' & Hrec).
    rewrite Hv in Hv'. injection Hv' as <-.
    destruct Hrec as [|(stored & Hstored)]; [contradiction|].
    rewrite (probe_taken_slot fuel h j _ _ _ _ _ v stored Hv Hnz Hstored).
    assert (Hne : (sv_compare key stored =? 0) = false).
    { apply Z.eqb_neq. intros Heq. apply sv_compare_eq in Heq.
      apply (Hother j v stored); [lia|exact Hv|exact Hstored|].
      symmetry. exact Heq. }
    rewrite Hne.
    destruct ((v >=? min_offset) && (v <=? max_offset));
      [destruct (sv_compare key stored <? 0)|]; apply IH; lia.
Qed.

End Miss.

End Linear.

Variable Hash : list Z -> Z.
Variable madvise : Z -> Z -> bool.
Hypothesis madvise_ok : forall start len, madvise start len = true.

(** [SeekToKey] is the probe loop, on the table with the note that the
    index has been advised. *)
Lemma SeekToKey_probe (fuel : nat) (tb : t) (key : list Z) :
  2 <= major_version (header tb) ->
  index_size tb <> 0 ->
  exists tb1,
    SeekToKey Hash madvise fuel tb key
    = probe fuel tb1 key (Hash key mod index_size tb) 0 (buffer_fill tb)
        2 1 0 /\
    (tb1 = tb \/ tb1 = set_madvised tb).
Proof.
  intros Hver Hnz. unfold SeekToKey.
  destruct (has_madvised_index tb).
  - cbn [bind]. destruct (Z.ltb_spec (major_version (header tb)) 2); [lia|].
    destruct (Z.eqb_spec (index_size tb) 0); [contradiction|].
    exists tb. auto.
  - unfold MAdviseIndex. rewrite madvise_ok. cbn [bind].
    cbn [set_madvised header index_size buffer_fill].
    destruct (Z.ltb_spec (major_version (header tb)) 2); [lia|].
    destruct (Z.eqb_spec (index_size tb) 0); [contradiction|].
    exists (set_madvised tb). auto.
Qed.

End ProbeFacts.

(** X12. The lookup finds what the index holds.  In a table of format
    version 3 or later whose slots hold zero or offsets of records, and
    whose records are in ascending order of keys when the header says so:
    when linear probing from the slot of the hash of [key] passes only
    taken slots and reaches, within [d] steps, a slot with the offset of a
    record with the key [key], then [SeekToKey (key)] returns true, with
    the cursor on a record with this key. *)
Theorem SeekToKey_finds_stored_key
  (Hash : list Z -> Z) (madvise : Z -> Z -> bool)
  (tb : WriteOnceTable.t) (key : list Z) (d o : Z) (fuel : nat) :
  (forall start len, madvise start len = true) ->
  3 <= major_version (WriteOnceTable.header tb) ->
  0 < WriteOnceTable.index_size tb < 2 ^ 64 ->
  index_well_formed tb ->
  (WriteOnceTable.IsSorted tb = true -> index_ascending tb) ->
  0 <= d ->
  chain_taken tb (Hash key mod WriteOnceTable.index_size tb) d ->
  WriteOnceTable.slot tb
    (probe_slot tb (Hash key mod WriteOnceTable.index_size tb) d) = Ret o ->
  0 < o <= WriteOnceTable.buffer_fill tb ->
  stored_key_at (WriteOnceTable.buffer tb) o key ->
  (Z.to_nat d < fuel)%nat ->
  exists tb',
    WriteOnceTable.SeekToKey Hash madvise fuel tb key = Ret (true, tb') /\
    stored_key_at (WriteOnceTable.buffer tb) (WriteOnceTable.offset_ tb') key.
Proof.
  intros Hadv Hver Hsize Hwf Hasc Hd Hchain Hslot Ho Hkey Hfuel.
  destruct (SeekToKey_probe Hash madvise Hadv fuel tb key ltac:(lia)
              ltac:(lia)) as (tb1 & -> & Htb1).
  set (h := Hash key mod WriteOnceTable.index_size tb) in *.
  assert (Hzero : probe_slot tb h 0 = h).
  { unfold probe_slot. rewrite Z.add_0_r. unfold h.
    apply Z.mod_mod. lia. }
  rewrite <- Hzero.
  destruct Htb1 as [->| ->].
  - apply (probe_finds tb key Hver Hsize Hwf h d o Hasc Hchain Hslot
             ltac:(lia) Hkey (Z.to_nat d)); lia.
  - apply (probe_finds (WriteOnceTable.set_madvised tb) key Hver Hsize Hwf
             h d o Hasc Hchain Hslot ltac:(lia) Hkey (Z.to_nat d)); lia.
Qed.

(** X13. The lookup misses what the index does not hold.  In a table of
    format version 3 or later whose slots hold zero or offsets of records:
    when linear probing from the slot of the hash of [key] passes taken
    slots, none of them with a record of the key [key], and reaches an
    empty slot within [d] steps, then [SeekToKey (key)] returns false. *)
Theorem SeekToKey_misses_absent_key
  (Hash : list Z -> Z) (madvise : Z -> Z -> bool)
  (tb : WriteOnceTable.t) (key : list Z) (d : Z) (fuel : nat) :
  (forall start len, madvise start len = true) ->
  3 <= major_version (WriteOnceTable.header tb) ->
  0 < WriteOnceTable.index_size tb < 2 ^ 64 ->
  index_well_formed tb ->
  0 <= d ->
  chain_taken tb (Hash key mod WriteOnceTable.index_size tb) d ->
  WriteOnceTable.slot tb
    (probe_slot tb (Hash key mod WriteOnceTable.index_size tb) d) = Ret 0 ->
  (forall j v stored,
      0 <= j < d ->
      WriteOnceTable.slot tb
        (probe_slot tb (Hash key mod WriteOnceTable.index_size tb) j)
      = Ret v ->
      stored_key_at (WriteOnceTable.buffer tb) v stored -> stored <> key) ->
  (Z.to_nat d < fuel)%nat ->
  exists tb',
    WriteOnceTable.SeekToKey Hash madvise fuel tb key = Ret (false, tb') /\
    WriteOnceTable.offset_ tb' = WriteOnceTable.offset_ tb.
Proof.
  intros Hadv Hver Hsize Hwf Hd Hchain Hslot Hother Hfuel.
  destruct (SeekToKey_probe Hash madvise Hadv fuel tb key ltac:(lia)
              ltac:(lia)) as (tb1 & -> & Htb1).
  set (h := Hash key mod WriteOnceTable.index_size tb) in *.
  assert (Hzero : probe_slot tb h 0 = h).
  { unfold probe_slot. rewrite Z.add_0_r. unfold h.
    apply Z.mod_mod. lia. }
  rewrite <- Hzero.
  destruct Htb1 as [->| ->].
  - exists tb. split; [|reflexivity].
    apply (probe_misses tb key Hver Hsize Hwf h d Hchain Hslot Hother
             (Z.to_nat d)); lia.
  - exists (WriteOnceTable.set_madvised tb). split; [|reflexivity].
    apply (probe_misses (WriteOnceTable.set_madvised tb) key Hver Hsize Hwf
             h d Hchain Hslot Hother (Z.to_nat d)); lia.
Qed.

(** X14. A lookup that fails does not move the cursor: when [SeekToKey]
    returns false, the table is as before, but for the note that the
    index has been advised to the operating system. *)
Theorem failed_SeekToKey_leaves_cursor
  (Hash : list Z -> Z) (madvise : Z -> Z -> bool) (fuel : nat)
  (tb tb' : WriteOnceTable.t) (key : list Z) :
  WriteOnceTable.SeekToKey Hash madvise fuel tb key = Ret (false, tb') ->
  (tb' = tb \/ tb' = WriteOnceTable.set_madvised tb) /\
  WriteOnceTable.offset_ tb' = WriteOnceTable.offset_ tb.
Proof.
  unfold WriteOnceTable.SeekToKey. intros H.
  destruct (WriteOnceTable.has_madvised_index tb).
  - cbn [bind] in H.
    destruct (WriteOnceTable.index_size tb =? 0); [discriminate H|].
    apply probe_false in H. subst tb'. auto.
  - unfold WriteOnceTable.MAdviseIndex in H.
    destruct (madvise _ _); cbn [bind] in H; [|discriminate H].
    destruct (WriteOnceTable.index_size (WriteOnceTable.set_madvised tb) =? 0);
      [discriminate H|].
    apply probe_false in H. subst tb'. auto.
Qed.

(** The sample table: its records and its index. *)
Lemma sample_record_a : stored_key_at sample_file 24 (bytes_of "a").
Proof.
  eexists. eexists.
  split; [vm_compute; reflexivity|].
  split; vm_compute; reflexivity.
Qed.

Lemma sample_record_b : stored_key_at sample_file 30 (bytes_of "b").
Proof.
  eexists. eexists.
  split; [vm_compute; reflexivity|].
  split; vm_compute; reflexivity.
Qed.

Lemma sample_slot_cases (h : Z) :
  0 <= h < WriteOnceTable.index_size sample_table ->
  h = 0 \/ h = 1 \/ h = 2 \/ h = 3.
Proof. change (WriteOnceTable.index_size sample_table) with 4. lia. Qed.

Lemma sample_slots (h v : Z) :
  0 <= h < WriteOnceTable.index_size sample_table ->
  WriteOnceTable.slot sample_table h = Ret v ->
  v = 0 \/ v = 24 \/ v = 30.
Proof.
  intros Hh Hv.
  destruct (sample_slot_cases h Hh) as [->|[->|[->| ->]]];
    vm_compute in Hv; injection Hv as <-; auto.
Qed.

Lemma sample_index_well_formed : index_well_formed sample_table.
Proof.
  intros h Hh.
  destruct (sample_slot_cases h Hh) as [->|[->|[->| ->]]].
  - exists 24. split; [vm_compute; reflexivity|].
    right. exists (bytes_of "a"). exact sample_record_a.
  - exists 30. split; [vm_compute; reflexivity|].
    right. exists (bytes_of "b"). exact sample_record_b.
  - exists 0. split; [vm_compute; reflexivity|]. left. reflexivity.
  - exists 0. split; [vm_compute; reflexivity|]. left. reflexivity.
Qed.

Lemma sample_index_ascending : index_ascending sample_table.
Proof.
  intros h1 h2 v1 v2 k1 k2 H1 H2 S1 N1 S2 N2 K1 K2 Hle.
  destruct (sample_slots h1 v1 H1 S1) as [->|[->| ->]]; [contradiction| |];
    destruct (sample_slots h2 v2 H2 S2) as [->|[->| ->]];
    try contradiction; try lia.
  - rewrite (stored_key_at_fun _ _ _ _ K1 sample_record_a).
    rewrite (stored_key_at_fun _ _ _ _ K2 sample_record_a).
    vm_compute. discriminate.
  - rewrite (stored_key_at_fun _ _ _ _ K1 sample_record_a).
    rewrite (stored_key_at_fun _ _ _ _ K2 sample_record_b).
    vm_compute. discriminate.
  - rewrite (stored_key_at_fun _ _ _ _ K1 sample_record_b).
    rewrite (stored_key_at_fun _ _ _ _ K2 sample_record_b).
    vm_compute. discriminate.
Qed.

(** In the sample table both keys hash to slot 0: the key b is found
    after one step. *)
Lemma SeekToKey_finds_stored_key_witness :
  exists tb',
    WriteOnceTable.SeekToKey (fun _ => 0) (fun _ _ => true) 2 sample_table
      (bytes_of "b") = Ret (true, tb') /\
    stored_key_at (WriteOnceTable.buffer sample_table)
      (WriteOnceTable.offset_ tb') (bytes_of "b").
Proof.
  apply (SeekToKey_finds_stored_key (fun _ => 0) (fun _ _ => true)
           sample_table (bytes_of "b") 1 30 2).
  - reflexivity.
  - vm_compute. discriminate.
  - change (WriteOnceTable.index_size sample_table) with 4. lia.
  - exact sample_index_well_formed.
  - intros _. exact sample_index_ascending.
  - lia.
  - intros j Hj. assert (j = 0) by lia. subst j.
    exists 24. split; [vm_compute; reflexivity|discriminate].
  - vm_compute. reflexivity.
  - change (WriteOnceTable.buffer_fill sample_table) with 66. lia.
  - exact sample_record_b.
  - simpl. lia.
Defined.

(** In the sample table the key c is not found: the slots 0 and 1 hold
    the records of a and b, and slot 2 is empty. *)
Lemma SeekToKey_misses_absent_key_witness :
  exists tb',
    WriteOnceTable.SeekToKey (fun _ => 0) (fun _ _ => true) 3 sample_table
      (bytes_of "c") = Ret (false, tb') /\
    WriteOnceTable.offset_ tb' = WriteOnceTable.offset_ sample_table.
Proof.
  apply (SeekToKey_misses_absent_key (fun _ => 0) (fun _ _ => true)
           sample_table (bytes_of "c") 2 3).
  - reflexivity.
  - vm_compute. discriminate.
  - change (WriteOnceTable.index_size sample_table) with 4. lia.
  - exact sample_index_well_formed.
  - lia.
  - intros j Hj. assert (Hc : j = 0 \/ j = 1) by lia.
    destruct Hc as [->| ->].
    + exists 24. split; [vm_compute; reflexivity|discriminate].
    + exists 30. split; [vm_compute; reflexivity|discriminate].
  - vm_compute. reflexivity.
  - intros j v stored Hj Hv Hs. assert (Hc : j = 0 \/ j = 1) by lia.
    destruct Hc as [->| ->]; vm_compute in Hv; injection Hv as <-.
    + rewrite (stored_key_at_fun _ _ _ _ Hs sample_record_a). discriminate.
    + rewrite (stored_key_at_fun _ _ _ _ Hs sample_record_b). discriminate.
  - simpl. lia.
Defined.

Lemma failed_SeekToKey_leaves_cursor_witness :
  WriteOnceTable.SeekToKey (fun _ => 0) (fun _ _ => true) 3 sample_table
    (bytes_of "c")
  = Ret (false, WriteOnceTable.set_madvised sample_table) /\
  WriteOnceTable.offset_ (WriteOnceTable.set_madvised sample_table)
  = WriteOnceTable.offset_ sample_table.
Proof.
  assert (H : WriteOnceTable.SeekToKey (fun _ => 0) (fun _ _ => true) 3
                sample_table (bytes_of "c")
              = Ret (false, WriteOnceTable.set_madvised sample_table))
    by (vm_compute; reflexivity).
  split; [exact H|].
  exact (proj2 (failed_SeekToKey_leaves_cursor _ _ _ _ _ _ H)).
Defined.

(** ** The reader: the geometry of the index *)

Lemma slot_loads (tb : WriteOnceTable.t) (h w : Z) (width : nat) :
  Z.of_nat width = w -> 0 < w ->
  0 <= index_offset (WriteOnceTable.header tb)
    <= zlength (WriteOnceTable.buffer tb) ->
  0 <= h < u64 (zlength (WriteOnceTable.buffer tb)
                - index_offset (WriteOnceTable.header tb)) / w ->
  exists b,
    load (WriteOnceTable.buffer tb)
      (index_offset (WriteOnceTable.header tb) + Z.of_nat width * h) width
    = Ret b.
Proof.
  intros Hw Hpos Hio Hh. unfold load. rewrite Hw.
  set (io := index_offset (WriteOnceTable.header tb)) in *.
  set (len := zlength (WriteOnceTable.buffer tb)) in *.
  assert (Hu : u64 (len - io) <= len - io)
    by (unfold u64; apply Z.mod_le; lia).
  assert (Hdiv : u64 (len - io) / w <= (len - io) / w)
    by (apply Z.div_le_mono; lia).
  pose proof (Z.mul_div_le (len - io) w Hpos) as Hmul.
  assert (Hfit : w * (h + 1) <= len - io) by nia.
  destruct (Z.leb_spec 0 (io + w * h)); [|nia].
  destruct (Z.leb_spec (io + w * h + w) len); [|nia].
  cbn [andb]. eexists. reflexivity.
Qed.

(** X15. The slots of the hash index lie inside the mapping: in a table
    that has been opened from a file whose [index_offset] is not behind
    the end of the file, every slot below [index_size] can be read,
    whatever the width of the slots is. *)
Theorem index_slots_lie_in_the_mapping
  (kLast : Z) (file : list Z) (tb : WriteOnceTable.t) (h : Z) :
  WriteOnceTable.open kLast file = Ret tb ->
  0 <= index_offset (WriteOnceTable.header tb) <= zlength file ->
  0 <= h < WriteOnceTable.index_size tb ->
  exists v, WriteOnceTable.slot tb h = Ret v.
Proof.
  intros Hopen Hio Hh. unfold WriteOnceTable.open in Hopen.
  inv_bind Hopen. inv_bind Hopen.
  destruct (negb _); [discriminate Hopen|]. injection Hopen as <-.
  unfold WriteOnceTable.MemoryMap in E.
  inv_bind E. inv_bind E. inv_bind E. inv_bind E. injection E as <-.
  cbn [WriteOnceTable.set_compression WriteOnceTable.header
       WriteOnceTable.index_size WriteOnceTable.index_bits] in Hio, Hh.
  unfold WriteOnceTable.slot.
  cbn [WriteOnceTable.set_compression WriteOnceTable.header
       WriteOnceTable.buffer WriteOnceTable.index_bits].
  match type of Hio with
  | 0 <= index_offset ?hd <= _ =>
      set (tb0 := {| WriteOnceTable.buffer := file;
                     WriteOnceTable.buffer_size := zlength file;
                     WriteOnceTable.buffer_fill := zlength file;
                     WriteOnceTable.header := hd;
                     WriteOnceTable.index_size := 0;
                     WriteOnceTable.index_bits := 64;
                     WriteOnceTable.has_madvised_index := false;
                     WriteOnceTable.compression_ := 0;
                     WriteOnceTable.offset_ := 0 |});
      destruct (major_version hd >=? 3);
      [|destruct (Z.land (index_offset hd) (Z.lnot 65535) =? 0);
        [|destruct (Z.land (index_offset hd) (Z.lnot 4294967295) =? 0)]]
  end; cbn [Z.eqb Pos.eqb].
  - destruct (slot_loads tb0 h 8 8 eq_refl ltac:(lia) Hio Hh) as (b & Hload).
    cbn [tb0 WriteOnceTable.buffer WriteOnceTable.header] in Hload.
    rewrite Hload. cbn [bind]. eexists. reflexivity.
  - destruct (slot_loads tb0 h 2 2 eq_refl ltac:(lia) Hio Hh) as (b & Hload).
    cbn [tb0 WriteOnceTable.buffer WriteOnceTable.header] in Hload.
    rewrite Hload. cbn [bind]. eexists. reflexivity.
  - destruct (slot_loads tb0 h 4 4 eq_refl ltac:(lia) Hio Hh) as (b & Hload).
    cbn [tb0 WriteOnceTable.buffer WriteOnceTable.header] in Hload.
    rewrite Hload. cbn [bind]. eexists. reflexivity.
  - destruct (slot_loads tb0 h 8 8 eq_refl ltac:(lia) Hio Hh) as (b & Hload).
    cbn [tb0 WriteOnceTable.buffer WriteOnceTable.header] in Hload.
    rewrite Hload. cbn [bind]. eexists. reflexivity.
Qed.

(** The four slots of the sample file. *)
Lemma index_slots_lie_in_the_mapping_witness :
  exists v, WriteOnceTable.slot sample_table 3 = Ret v.
Proof.
  apply (index_slots_lie_in_the_mapping 1 sample_file sample_table 3).
  - vm_compute. reflexivity.
  - vm_compute. split; congruence.
  - vm_compute. split; congruence.
Defined.

(** ** The builder: what it accepts and what it keeps *)

(** X16. [InsertRow] accepts exactly the rows whose key and value are not
    empty and not longer than a [uint32_t] can tell.  A key or value that
    is too long is refused before anything is recorded; an empty key or
    value makes [fwrite] report that it has written no item, which the
    builder takes for a failed write. *)
Theorem InsertRow_accepts_exactly_nonempty_rows
  (b : WriteOnceBuilder.t) (k v : list Z) :
  ((exists b', InsertRow b k v = Ret b') <->
   (0 < zlength k <= UINT32_MAX /\ 0 < zlength v <= UINT32_MAX)) /\
  (UINT32_MAX < zlength k -> InsertRow b k v = Throw "too long key") /\
  (zlength k <= UINT32_MAX -> UINT32_MAX < zlength v ->
   InsertRow b k v = Throw "too long value") /\
  (zlength k <= UINT32_MAX -> zlength v <= UINT32_MAX ->
   zlength k = 0 \/ zlength v = 0 ->
   InsertRow b k v = Throw "fwrite").
Proof.
  split; [split|].
  - intros (b' & H). apply InsertRow_inv in H. tauto.
  - intros [Hk Hv]. apply InsertRow_total; assumption.
  - unfold InsertRow, WriteOnceBuilder.Add, WriteOnceBuilder.AddEntry.
    cbn [sv_of sv_size sv_data].
    split; [|split].
    + intros Hk. destruct (Z.leb_spec (zlength k) UINT32_MAX); [lia|].
      reflexivity.
    + intros Hk Hv. destruct (Z.leb_spec (zlength k) UINT32_MAX); [|lia].
      destruct (Z.leb_spec (zlength v) UINT32_MAX); [lia|].
      reflexivity.
    + intros Hk Hv Hempty.
      destruct (Z.leb_spec (zlength k) UINT32_MAX); [|lia].
      destruct (Z.leb_spec (zlength v) UINT32_MAX); [|lia].
      cbn [KJ_REQUIRE bind]. rewrite firstn_prefix. cbn [bind].
      unfold WriteOnceBuilder.WriteEntryData, WriteOnceBuilder.fwrite1.
      cbn [sv_of sv_size sv_data WriteOnceBuilder.set_index
           WriteOnceBuilder.raw_stream_ WriteOnceBuilder.raw_fd_].
      destruct (Z.eqb_spec (zlength k) 0) as [Hk0|Hk0].
      * cbn [bind]. reflexivity.
      * fold (sv_of k). rewrite sv_bytes_of. cbn [bind].
        change (1 =? 0) with false. cbv iota.
        destruct (Z.eqb_spec (zlength v) 0) as [Hv0|Hv0]; [|lia].
        cbn [bind]. reflexivity.
Qed.

(** X17. What the builder holds after a sequence of insertions: the
    spill stream is the concatenation of the keys and values in the order
    of insertion, the running offset is its length, there is one entry
    per row, in the order of insertion, and every entry satisfies the
    entry invariant: its bytes lie inside the spill stream, they are the
    key and the value of its row, and its prefix is the first 24 bytes of
    its key.  The recorded maximum bounds the size of every key. *)
Theorem inserted_rows_are_recorded
  (kLast kDefault : Z) (options : TableOptions)
  (rows : list (list Z * list Z)) (b : WriteOnceBuilder.t) :
  zlength (flat rows) < 2 ^ 63 ->
  create_and_fill kLast kDefault options rows = Ret b ->
  WriteOnceBuilder.raw_stream_ b = flat rows /\
  WriteOnceBuilder.offset_ b = zlength (WriteOnceBuilder.raw_stream_ b) /\
  map (entry_row (WriteOnceBuilder.raw_stream_ b)) (WriteOnceBuilder.index_ b)
  = rows /\
  Forall (Entry_invariant (WriteOnceBuilder.raw_stream_ b))
         (WriteOnceBuilder.index_ b) /\
  Forall (fun e => WriteOnceBuilder.key_size e
                   <= WriteOnceBuilder.key_size_max_ b)
         (WriteOnceBuilder.index_ b).
Proof.
  intros Hlt H.
  destruct (create_and_fill_ingested _ _ _ _ _ Hlt H)
    as ((Hraw & Hoff & Hrows & Hinv & Hmax) & _).
  rewrite Hraw. repeat split; try assumption.
  eapply Forall_impl; [|exact Hmax]. cbv beta. tauto.
Qed.

Lemma inserted_rows_are_recorded_witness :
  exists b,
    create_and_fill 1 255 plain_options rows_unsorted = Ret b /\
    WriteOnceBuilder.raw_stream_ b = flat rows_unsorted /\
    map (entry_row (WriteOnceBuilder.raw_stream_ b))
        (WriteOnceBuilder.index_ b) = rows_unsorted.
Proof.
  destruct (create_and_fill 1 255 plain_options rows_unsorted)
    as [b| | |] eqn:Hb;
    try (vm_compute in Hb; discriminate Hb).
  assert (Hlt : zlength (flat rows_unsorted) < 2 ^ 63)
    by (vm_compute; reflexivity).
  destruct (inserted_rows_are_recorded _ _ _ _ _ Hlt Hb)
    as (Hraw & _ & Hrows & _).
  exists b. auto.
Defined.

(** ** The builder: the order of rows with equal keys *)

Section StableFacts.
Context {A : Type}.
Variable lt : A -> A -> bool.
Variable same : A -> bool.
Hypothesis same_not_lt :
  forall a b, same a = true -> same b = true -> lt a b = false.

Lemma insert_by_stable (x : A) (l : list A) :
  filter same (insert_by lt x l) = filter same (x :: l).
Proof.
  induction l as [|y l IH]; [reflexivity|].
  cbn [insert_by]. destruct (lt y x) eqn:Hyx; [|reflexivity].
  cbn [filter] in *. rewrite IH.
  destruct (same y) eqn:Hy, (same x) eqn:Hx; try reflexivity.
  rewrite (same_not_lt y x Hy Hx) in Hyx. discriminate Hyx.
Qed.

Lemma sort_by_stable (l : list A) :
  filter same (sort_by lt l) = filter same l.
Proof.
  induction l as [|x l IH]; [reflexivity|].
  cbn [sort_by]. rewrite insert_by_stable. cbn [filter].
  now rewrite IH.
Qed.

End StableFacts.

Lemma filter_map_swap {A B : Type} (f : A -> B) (p : B -> bool) (l : list A) :
  filter p (map f l) = map f (filter (fun a => p (f a)) l).
Proof.
  induction l as [|a l IH]; [reflexivity|].
  cbn [map filter]. destruct (p (f a)); cbn [map]; now rewrite IH.
Qed.

Lemma filter_filter_swap {A : Type} (p q : A -> bool) (l : list A) :
  filter p (filter q l) = filter q (filter p l).
Proof.
  induction l as [|a l IH]; [reflexivity|].
  cbn [filter]. destruct (p a) eqn:Hp, (q a) eqn:Hq; cbn [filter];
    rewrite ?Hp, ?Hq, IH; reflexivity.
Qed.

Section OrderFacts.
Import WriteOnceBuilder.
Variable value_encode : Z -> list Z.

(** [SortEntries] is the stable sorted rearrangement by the full keys. *)
Lemma SortEntries_sort_by (b : t) (rows : list (list Z * list Z)) :
  ingested b rows ->
  raw_fd_ b = flat rows ->
  zlength (flat rows) < 2 ^ 63 ->
  SortEntries b
  = Ret (set_index b
           (sort_by (fun e1 e2 => sv_lt (entry_key (flat rows) e1)
                                        (entry_key (flat rows) e2))
                    (index_ b))
           (offset_ b) (key_size_max_ b)).
Proof.
  intros (_ & _ & _ & Hinv & Hmax) Hfd Hlt.
  unfold SortEntries. rewrite Hfd.
  rewrite (stable_sort_pure
             (fun e1 e2 => sv_lt (entry_key (flat rows) e1)
                                 (entry_key (flat rows) e2)));
    [reflexivity|].
  intros e1 e2 H1 H2. rewrite Forall_forall in Hinv, Hmax.
  apply Compare_sv_lt; auto; apply Hmax; assumption.
Qed.

(** The rows of the blocks that [Build] writes, in the order of the
    file: the small ones among the rows, stably sorted by key. *)
Lemma Build_rows_in_order (b : t) (rows : list (list Z * list Z))
  (uninit : Z) (file : list Z) :
  ingested b rows ->
  zlength (flat rows) < 2 ^ 63 ->
  Build value_encode uninit b = Ret file ->
  exists groups,
    file = header_bytes (built_header b uninit)
           ++ blocks_bytes value_encode groups
           ++ WriteOnceIndex.Marshal value_encode
                (index_of_groups value_encode groups) /\
    concat groups
    = filter small
        (sort_by (fun r1 r2 => sv_lt (fst r1) (fst r2)) rows).
Proof.
  intros Hing Hlt H. unfold Build, FlushEntryData in H. cbn [bind] in H.
  pose proof Hing as (Hraw & Hoff & Hrows & Hinv & Hmax).
  set (b1 := set_raw b (raw_stream_ b) (raw_stream_ b)) in *.
  assert (Hing1 : ingested b1 rows) by exact Hing.
  assert (Hfd1 : raw_fd_ b1 = flat rows) by exact Hraw.
  rewrite (SortEntries_sort_by b1 rows Hing1 Hfd1 Hlt) in H.
  cbn [bind] in H.
  set (lt := fun e1 e2 => sv_lt (entry_key (flat rows) e1)
                                (entry_key (flat rows) e2)) in *.
  unfold CreateFile in H.
  destruct (Z.land (GetFileFlags (options_ _)) (Z.lnot O_CLOEXEC) =? 0);
    cbn [KJ_REQUIRE bind] in H; [|discriminate H].
  match type of H with
  | bind (WriteFinalData _ ?b3) _ = _ =>
      destruct (WriteFinalData value_encode b3)
        as [[[b4 count] large]| | |] eqn:Hfinal
  end; cbn [bind] in H; try discriminate H.
  unfold CommitFile in H. injection H as <-.
  assert (Hperm : Permutation (sort_by lt (index_ b)) (index_ b))
    by apply sort_by_perm.
  apply WriteFinalData_inv in Hfinal.
  - cbn [set_fd set_index set_raw fd_ raw_fd_ index_ options_ compression_ b1]
      in Hfinal.
    destruct Hfinal as (groups & Hfile & Hcat & _).
    rewrite Hraw in *.
    exists groups. split; [exact Hfile|].
    rewrite Hcat. f_equal.
    rewrite <- Hrows at 2.
    clear. induction (index_ b) as [|e l IH]; [reflexivity|].
    cbn [sort_by map]. rewrite <- IH.
    generalize (sort_by lt l). intros s.
    induction s as [|y s IHs]; [reflexivity|].
    cbn [insert_by map]. unfold lt at 1. cbn [entry_row fst].
    destruct (sv_lt (entry_key (flat rows) y) (entry_key (flat rows) e));
      cbn [map]; [now rewrite IHs|reflexivity].
  - cbn [set_fd set_index set_raw raw_fd_ index_ b1].
    rewrite Hraw. eapply Permutation_Forall; [|exact Hinv].
    symmetry. exact Hperm.
  - cbn [set_fd set_index set_raw raw_fd_ index_ b1].
    eapply Permutation_Forall; [symmetry; exact Hperm|].
    eapply Forall_impl; [|exact Hmax]. cbv beta. tauto.
Qed.

End OrderFacts.

(** X18. Rows with equal keys keep the order of their insertion: for
    every key [k], the rows with the key [k] stand in the blocks of the
    built file, from the first block to the last, in the order in which
    they were inserted (those of more than [kEntrySizeLimit] bytes left
    out). *)
Theorem build_keeps_insertion_order_of_equal_keys
  (kLast kDefault : Z) (options : TableOptions)
  (value_encode : Z -> list Z) (uninit : Z)
  (rows : list (list Z * list Z)) (file : list Z) (k : list Z) :
  zlength (flat rows) < 2 ^ 63 ->
  build_table kLast kDefault options value_encode uninit rows = Ret file ->
  exists header groups,
    file = header_bytes header
           ++ blocks_bytes value_encode groups
           ++ WriteOnceIndex.Marshal value_encode
                (index_of_groups value_encode groups) /\
    filter (has_key k) (concat groups)
    = filter (has_key k) (filter small rows).
Proof.
  intros Hlt H. unfold build_table in H.
  destruct (create_and_fill kLast kDefault options rows) as [b| | |] eqn:Hb;
    cbn [bind] in H; try discriminate H.
  destruct (create_and_fill_ingested _ _ _ _ _ Hlt Hb) as (Hing & _).
  destruct (Build_rows_in_order value_encode b rows uninit file Hing Hlt H)
    as (groups & Hfile & Hcat).
  exists (built_header b uninit), groups. split; [exact Hfile|].
  rewrite Hcat.
  rewrite filter_filter_swap, (filter_filter_swap (has_key k) small rows).
  f_equal. apply sort_by_stable.
  intros r1 r2 H1 H2. unfold has_key in H1, H2.
  apply Z.eqb_eq in H1, H2. apply sv_compare_eq in H1, H2.
  unfold sv_lt. rewrite <- H1, <- H2, sv_compare_refl. reflexivity.
Qed.

(** Two rows with the key k, inserted around a row with the key a. *)
Lemma build_keeps_insertion_order_of_equal_keys_witness :
  exists file header groups,
    build_table 1 255 plain_options spec_value_encode 0
      [row "k" "1"; row "a" "x"; row "k" "2"] = Ret file /\
    file = header_bytes header
           ++ blocks_bytes spec_value_encode groups
           ++ WriteOnceIndex.Marshal spec_value_encode
                (index_of_groups spec_value_encode groups) /\
    filter (has_key (bytes_of "k")) (concat groups)
    = [row "k" "1"; row "k" "2"].
Proof.
  destruct (build_table 1 255 plain_options spec_value_encode 0
              [row "k" "1"; row "a" "x"; row "k" "2"])
    as [file| | |] eqn:Hbuild;
    try (vm_compute in Hbuild; discriminate Hbuild).
  assert (Hlt : zlength (flat [row "k" "1"; row "a" "x"; row "k" "2"])
                < 2 ^ 63)
    by (vm_compute; reflexivity).
  destruct (build_keeps_insertion_order_of_equal_keys _ _ _ _ _ _ _
              (bytes_of "k") Hlt Hbuild)
    as (header & groups & Hfile & Horder).
  exists file, header, groups. split; [reflexivity|].
  split; [exact Hfile|]. rewrite Horder. vm_compute. reflexivity.
Defined.

(** ** The builder: when a build succeeds and when it cannot *)

(** X19. A table handle that is created with options that the
    constructor and [CreateFile] accept, filled with rows that have a key
    and a value and are shorter than 4 GiB, and synced: every insertion
    and the build succeed, and a file is written. *)
Theorem build_succeeds_on_accepted_rows
  (kLast kDefault : Z) (options : TableOptions)
  (value_encode : Z -> list Z) (uninit : Z)
  (rows : list (list Z * list Z)) (b0 : WriteOnceBuilder.t) :
  WriteOnceBuilder.new kLast kDefault options = Ret b0 ->
  Z.land (GetFileFlags options) (Z.lnot O_CLOEXEC) = 0 ->
  Forall (fun r => 0 < zlength (fst r) /\ 0 < zlength (snd r) /\
                   row_size r < 2 ^ 32) rows ->
  zlength (flat rows) < 2 ^ 63 ->
  exists b file,
    create_and_fill kLast kDefault options rows = Ret b /\
    build_table kLast kDefault options value_encode uninit rows = Ret file.
Proof.
  intros Hnew Hflags Hrows Hlt.
  destruct (build_table_succeeds kLast kDefault options value_encode uninit
              rows b0 Hnew Hflags Hrows Hlt) as (file & Hfile).
  unfold build_table in Hfile.
  destruct (create_and_fill kLast kDefault options rows) as [b| | |] eqn:Hb;
    cbn [bind] in Hfile; try discriminate Hfile.
  exists b, file. split; [reflexivity|].
  unfold build_table. rewrite Hb. exact Hfile.
Qed.

Lemma build_succeeds_on_accepted_rows_witness :
  exists b file,
    create_and_fill 1 255 plain_options rows_unsorted = Ret b /\
    build_table 1 255 plain_options spec_value_encode 0 rows_unsorted
    = Ret file.
Proof.
  apply (build_succeeds_on_accepted_rows 1 255 plain_options
           spec_value_encode 0 rows_unsorted fresh_builder).
  - vm_compute. reflexivity.
  - vm_compute. reflexivity.
  - repeat constructor; vm_compute; reflexivity.
  - vm_compute. reflexivity.
Defined.

(** X20. The size of an entry is computed in 32 bits.  An entry whose
    key and value together have 4 GiB or more, and whose size modulo 2^32
    is at most [kEntrySizeLimit], is not counted as large: it is read
    with the wrapped size and offered to the block, which refuses it
    twice, so the iteration of [WriteFinalData] throws, whatever the state
    of the loop is. *)
Theorem emit_entry_fails_on_wrapped_size
  (value_encode : Z -> list Z)
  (l : WriteOnceBuilder.locals) (b : WriteOnceBuilder.t)
  (e : WriteOnceBuilder.Entry) (buffer : list Z) :
  0 <= WriteOnceBuilder.key_size e <= UINT32_MAX ->
  0 <= WriteOnceBuilder.value_size e <= UINT32_MAX ->
  2 ^ 32 <= WriteOnceBuilder.key_size e + WriteOnceBuilder.value_size e ->
  u32 (WriteOnceBuilder.key_size e + WriteOnceBuilder.value_size e)
    <= kEntrySizeLimit ->
  RandomIO.Read (WriteOnceBuilder.raw_fd_ b) (WriteOnceBuilder.offset e)
    (u32 (WriteOnceBuilder.key_size e + WriteOnceBuilder.value_size e))
  = Ret buffer ->
  WriteOnceBuilder.emit_entry value_encode (l, b) e
  = Throw "an entry does not fit a block".
Proof.
  intros Hk Hv Hbig Hwrap Hread. unfold WriteOnceBuilder.emit_entry.
  destruct (Z.gtb_spec
              (u32 (WriteOnceBuilder.key_size e
                    + WriteOnceBuilder.value_size e))
              kEntrySizeLimit); [lia|].
  rewrite Hread. cbn [bind].
  assert (Hmax : kBlockSizeMax < 2 ^ 32) by (vm_compute; reflexivity).
  rewrite Block_Add_too_big by (cbn [sv_size]; lia).
  cbn [bind].
  destruct (WriteOnceBuilder.WriteBlock value_encode b
              (WriteOnceBuilder.block l) (WriteOnceBuilder.index l)
              (WriteOnceBuilder.last_key l)) as [[w i] b1].
  rewrite Block_Add_too_big by (cbn [sv_size]; lia).
  reflexivity.
Qed.

(** An entry with a key and a value of 2 GiB each: the sizes add up to 0
    in 32 bits. *)
Lemma emit_entry_fails_on_wrapped_size_witness :
  WriteOnceBuilder.emit_entry spec_value_encode
    ({| WriteOnceBuilder.index := WriteOnceIndex.empty;
        WriteOnceBuilder.block := WriteOnceBlock.empty;
        WriteOnceBuilder.last_key := [];
        WriteOnceBuilder.block_count := 0;
        WriteOnceBuilder.large_count := 0 |}, fresh_builder)
    {| WriteOnceBuilder.offset := 0;
       WriteOnceBuilder.value_size := 2 ^ 31;
       WriteOnceBuilder.key_size := 2 ^ 31;
       WriteOnceBuilder.prefix := [] |}
  = Throw "an entry does not fit a block".
Proof.
  apply (emit_entry_fails_on_wrapped_size spec_value_encode _ fresh_builder
           _ []); vm_compute; try split; congruence.
Defined.

(** ** The builder: how the blocks are filled and counted *)

Section FillLoop.
Import WriteOnceBuilder.
Variable value_encode : Z -> list Z.
Variables hdr raw : list Z.

Lemma emit_entry_fill (done : list (list (list Z * list Z)))
  (cur : list (list Z * list Z)) (l l' : locals) (b b' : t) (e : Entry) :
  filling value_encode hdr raw done cur (l, b) ->
  Entry_invariant raw e ->
  key_size e <= UINT32_MAX -> value_size e <= UINT32_MAX ->
  emit_entry value_encode (l, b) e = Ret (l', b') ->
  exists done' cur', filling value_encode hdr raw done' cur' (l', b').
Proof.
  intros (Hinv & Hcount & Hfill) He Hku Hvu H.
  destruct (entry_row_sizes raw e He) as (Hklen & Hvlen & Hsize & Hsplit).
  pose proof He as (Ho & Hk & Hv & Hle & _).
  pose proof Hinv as (Hraw & Hfd & Hidx & Hblk & Hlast & Hdone & Hcur).
  cbn [fst snd] in *.
  assert (Hlimit : kEntrySizeLimit <= kBlockSizeMax)
    by (vm_compute; discriminate).
  assert (Hmax32 : kBlockSizeMax < 2 ^ 32) by (vm_compute; reflexivity).
  unfold emit_entry in H.
  destruct (Z.gtb_spec (u32 (key_size e + value_size e)) kEntrySizeLimit)
    as [Hlarge|Hsmall].
  - (* counted as large *)
    injection H as <- <-. exists done, cur.
    split; [|split; assumption].
    unfold emitting. cbn [fst snd index block last_key]. auto 10.
  - rewrite Hraw in H.
    destruct (RandomIO.Read raw (offset e) (u32 (key_size e + value_size e)))
      as [buffer| | |] eqn:Hread; cbn [bind] in H; try discriminate H.
    destruct (Z_lt_dec (key_size e + value_size e) (2 ^ 32)) as [Hnowrap|Hwrap].
    + rewrite u32_small in Hread, Hsmall by lia.
      apply Read_slice in Hread. destruct Hread as (Hbuf & _).
      rewrite Hsplit in Hbuf.
      set (k := entry_key raw e) in *. set (v := entry_value raw e) in *.
      assert (Hkey : sv_bytes {| sv_data := buffer; sv_size := key_size e |}
                     = Ret k)
        by (apply (sv_bytes_exact buffer k v); assumption).
      assert (Hval : sv_bytes
                       {| sv_data := skipn (Z.to_nat (key_size e)) buffer;
                          sv_size := value_size e |} = Ret v).
      { apply (sv_bytes_exact _ v []); [|assumption].
        rewrite Hbuf, skipn_app_exact by assumption.
        now rewrite app_nil_r. }
      rewrite Hblk in *.
      rewrite (Block_Add_rows cur _ _ k v Hkey Hval) in H
        by (cbn [sv_size]; congruence).
      destruct (Z.gtb_spec (block_data_size cur + zlength k + zlength v)
                  kBlockSizeMax) as [Hfull|Hfits]; cbn [bind] in H.
      * (* the block is full: it is written and a new one is begun *)
        assert (Hne : cur <> []).
        { intros ->. unfold block_data_size in Hfull. simpl in Hfull.
          change (zlength (@nil Z)) with 0 in Hfull. lia. }
        unfold WriteBlock in H. rewrite (Marshal_nonempty _ cur Hne) in H.
        unfold WriteOnceBlock.Clear in H.
        change WriteOnceBlock.empty with (block_of_rows []) in H.
        rewrite (Block_Add_rows [] _ _ k v Hkey Hval) in H
          by (cbn [sv_size]; congruence).
        change (block_data_size []) with 0 in H.
        destruct (Z.gtb_spec (0 + zlength k + zlength v) kBlockSizeMax);
          [lia|].
        cbn [bind app] in H. rewrite Hkey in H. cbn [bind] in H.
        injection H as <- <-.
        exists (done ++ [cur]), [(k, v)].
        split; [|split].
        -- unfold emitting.
           cbn [fst snd index block last_key Write set_fd fd_ raw_fd_ last].
           rewrite index_of_groups_snoc, blocks_bytes_snoc, Hfd, Hidx.
           rewrite (Hlast Hne), app_assoc.
           repeat split; try assumption; try reflexivity.
           ++ apply Forall_app. split; [exact Hdone|].
              constructor; [split; assumption|constructor].
           ++ unfold block_data_size. cbn [map concat fst snd].
              rewrite !app_nil_r. lia.
        -- cbn [fst block_count]. rewrite zlength_app, zlength_cons.
           change (zlength (@nil (list (list Z * list Z)))) with 0. lia.
        -- apply Forall_app. split; [exact Hfill|].
           constructor; [|constructor]. lia.
      * (* the entry joins the block under construction *)
        rewrite Hkey in H. cbn [bind] in H. injection H as <- <-.
        exists done, (cur ++ [(k, v)]).
        split; [|split; assumption].
        unfold emitting. cbn [fst snd index block last_key].
        rewrite last_last, block_data_size_snoc.
        repeat split; try assumption; try reflexivity.
    + rewrite Block_Add_too_big in H by (cbn [sv_size]; lia).
      cbn [bind] in H.
      destruct (WriteBlock value_encode b (block l) (index l) (last_key l))
        as [[w i] b1].
      rewrite Block_Add_too_big in H by (cbn [sv_size]; lia).
      cbn [bind] in H. discriminate H.
Qed.

Lemma emit_entries_fill (entries : list Entry) :
  forall done cur l b l' b',
    filling value_encode hdr raw done cur (l, b) ->
    Forall (Entry_invariant raw) entries ->
    Forall (fun e => key_size e <= UINT32_MAX /\ value_size e <= UINT32_MAX)
           entries ->
    emit_entries value_encode (l, b) entries = Ret (l', b') ->
    exists done' cur', filling value_encode hdr raw done' cur' (l', b').
Proof.
  induction entries as [|e entries IH];
    intros done cur l b l' b' Hinv Hok Hsz H.
  - simpl in H. injection H as <- <-. exists done, cur. exact Hinv.
  - cbn [emit_entries] in H.
    destruct (emit_entry value_encode (l, b) e) as [[l1 b1]| | |] eqn:Hstep;
      cbn [bind] in H; try discriminate H.
    inversion Hok as [|? ? He Hok']; subst.
    inversion Hsz as [|? ? [Hku Hvu] Hsz']; subst.
    destruct (emit_entry_fill done cur l l1 b b1 e Hinv He Hku Hvu Hstep)
      as (done1 & cur1 & Hinv1).
    exact (IH done1 cur1 l1 b1 l' b' Hinv1 Hok' Hsz' H).
Qed.

End FillLoop.

Lemma Forall_removelast {A : Type} (P : A -> Prop) (l : list A) :
  Forall P l -> Forall P (removelast l).
Proof.
  induction 1 as [|x l Hx Hl IH]; [constructor|].
  destruct l as [|y l]; [constructor|].
  change (removelast (x :: y :: l)) with (x :: removelast (y :: l)).
  constructor; assumption.
Qed.

Section FillFacts.
Import WriteOnceBuilder.
Variable value_encode : Z -> list Z.

(** What [WriteFinalData] writes and counts. *)
Lemma WriteFinalData_fill (b b' : t) (count large : Z) :
  Forall (Entry_invariant (raw_fd_ b)) (index_ b) ->
  Forall (fun e => key_size e <= UINT32_MAX /\ value_size e <= UINT32_MAX)
         (index_ b) ->
  WriteFinalData value_encode b = Ret (b', count, large) ->
  exists groups,
    fd_ b' = fd_ b ++ blocks_bytes value_encode groups
             ++ WriteOnceIndex.Marshal value_encode
                  (index_of_groups value_encode groups) /\
    count = zlength groups /\
    Forall (fun g => g <> [] /\ block_data_size g <= kBlockSizeMax) groups /\
    Forall (fun g => kBlockSizeMax - kEntrySizeLimit < block_data_size g)
           (removelast groups).
Proof.
  intros Hok Hsz H. unfold WriteFinalData in H.
  destruct (emit_entries value_encode _ (index_ b)) as [[l b1]| | |] eqn:Hloop;
    cbn [bind] in H; try discriminate H.
  assert (Hstart : filling value_encode (fd_ b) (raw_fd_ b) [] []
                     ({| index := WriteOnceIndex.empty;
                         block := WriteOnceBlock.empty;
                         last_key := []; block_count := 0;
                         large_count := 0 |}, b)).
  { split; [apply emitting_start|]. split; [reflexivity|constructor]. }
  destruct (emit_entries_fill value_encode (fd_ b) (raw_fd_ b) (index_ b)
              [] [] _ b l b1 Hstart Hok Hsz Hloop)
    as (done & cur & Hinv & Hcount & Hfill).
  destruct Hinv as (Hraw & Hfd & Hidx & Hblk & Hlast & Hdone & Hcur).
  cbn [fst snd] in *.
  assert (Hwi : forall bb i,
             fd_ (snd (WriteIndex value_encode bb i))
             = fd_ bb ++ WriteOnceIndex.Marshal value_encode i).
  { intros bb i. unfold WriteIndex.
    destruct (Z.eqb_spec (zlength (WriteOnceIndex.Marshal value_encode i)) 0)
      as [Hz|Hz]; cbn [snd].
    - apply zlength_zero_nil in Hz. rewrite Hz. now rewrite app_nil_r.
    - reflexivity. }
  unfold WriteBlock in H. rewrite Hblk in H.
  destruct cur as [|r cur].
  - rewrite Marshal_nil in H. change (zlength (@nil Z) =? 0) with true in H.
    cbv iota in H.
    destruct (WriteIndex value_encode b1 (index l)) as [w b2] eqn:Hw.
    injection H as <- <- <-.
    exists done.
    pose proof (Hwi b1 (index l)) as Hfd2. rewrite Hw in Hfd2.
    cbn [snd] in Hfd2.
    rewrite Hfd2, Hfd, Hidx, <- app_assoc.
    repeat split; try assumption.
    apply Forall_removelast. exact Hfill.
  - rewrite Marshal_nonempty in H by discriminate.
    destruct (WriteIndex value_encode _ _) as [w b2] eqn:Hw in H.
    injection H as <- <- <-.
    exists (done ++ [r :: cur]).
    match type of Hw with
    | WriteIndex _ ?bb ?i = _ => pose proof (Hwi bb i) as Hfd2
    end.
    rewrite Hw in Hfd2. cbn [snd] in Hfd2.
    rewrite Hfd2. cbn [Write set_fd fd_].
    rewrite Hfd, Hidx, (Hlast ltac:(discriminate)).
    rewrite index_of_groups_snoc, blocks_bytes_snoc, <- !app_assoc.
    repeat split.
    + rewrite zlength_app, zlength_cons.
      change (zlength (@nil (list (list Z * list Z)))) with 0. lia.
    + apply Forall_app. split; [exact Hdone|].
      constructor; [split; [discriminate|assumption]|constructor].
    + rewrite removelast_last. exact Hfill.
Qed.

End FillFacts.

(** X21. The blocks are filled in turn and counted: when the rows have
    been added and [WriteFinalData] has succeeded, the counter of blocks
    that it logs is the number of blocks in the file, no block is empty or
    holds more than [kBlockSizeMax] bytes of data, and every block but
    the last holds more than [kBlockSizeMax - kEntrySizeLimit] = 24575
    bytes of data, because a block is closed only when a row of at most
    [kEntrySizeLimit] bytes does not fit any more. *)
Theorem blocks_are_counted_and_filled
  (kLast kDefault : Z) (options : TableOptions)
  (value_encode : Z -> list Z) (uninit : Z)
  (rows : list (list Z * list Z))
  (b : WriteOnceBuilder.t) (block_count large_count : Z) :
  zlength (flat rows) < 2 ^ 63 ->
  emit_table kLast kDefault options value_encode uninit rows
  = Ret (b, block_count, large_count) ->
  kBlockSizeMax - kEntrySizeLimit = 24575 /\
  exists header groups,
    WriteOnceBuilder.fd_ b
    = header_bytes header
      ++ blocks_bytes value_encode groups
      ++ WriteOnceIndex.Marshal value_encode
           (index_of_groups value_encode groups) /\
    block_count = zlength groups /\
    Forall (fun g => g <> [] /\ block_data_size g <= kBlockSizeMax) groups /\
    Forall (fun g => kBlockSizeMax - kEntrySizeLimit < block_data_size g)
           (removelast groups).
Proof.
  intros Hlt H. split; [reflexivity|].
  unfold emit_table in H.
  destruct (create_and_fill kLast kDefault options rows) as [b0| | |] eqn:Hb;
    cbn [bind] in H; try discriminate H.
  destruct (create_and_fill_ingested _ _ _ _ _ Hlt Hb) as (Hing & _).
  pose proof Hing as (Hraw & Hoff & Hrows & Hinv & Hmax).
  unfold WriteOnceBuilder.FlushEntryData in H. cbn [bind] in H.
  set (b1 := WriteOnceBuilder.set_raw b0 (WriteOnceBuilder.raw_stream_ b0)
               (WriteOnceBuilder.raw_stream_ b0)) in *.
  assert (Hing1 : ingested b1 rows) by exact Hing.
  assert (Hfd1 : WriteOnceBuilder.raw_fd_ b1 = flat rows) by exact Hraw.
  destruct (SortEntries_ingested b1 rows Hing1 Hfd1 Hlt)
    as (se & Hsort & Hperm & _).
  rewrite Hsort in H. cbn [bind] in H.
  unfold WriteOnceBuilder.CreateFile in H.
  destruct (Z.land (GetFileFlags (WriteOnceBuilder.options_ _))
              (Z.lnot O_CLOEXEC) =? 0);
    cbn [KJ_REQUIRE bind] in H; [|discriminate H].
  apply WriteFinalData_fill in H.
  - cbn [WriteOnceBuilder.set_fd WriteOnceBuilder.fd_] in H.
    destruct H as (groups & Hfile & Hcount & Hgroups & Hfill).
    eexists. exists groups. split; [exact Hfile|]. auto.
  - cbn [WriteOnceBuilder.set_fd WriteOnceBuilder.set_index
         WriteOnceBuilder.set_raw WriteOnceBuilder.raw_fd_
         WriteOnceBuilder.index_ b1].
    rewrite Hraw. eapply Permutation_Forall; [|exact Hinv].
    symmetry. exact Hperm.
  - cbn [WriteOnceBuilder.set_fd WriteOnceBuilder.set_index
         WriteOnceBuilder.set_raw WriteOnceBuilder.raw_fd_
         WriteOnceBuilder.index_ b1].
    eapply Permutation_Forall; [symmetry; exact Hperm|].
    eapply Forall_impl; [|exact Hmax]. cbv beta. tauto.
Qed.

(** Five rows of 8001 bytes: two blocks, the first with four rows. *)
Lemma blocks_are_counted_and_filled_witness :
  exists b header groups,
    emit_table 1 255 plain_options spec_value_encode 0 rows_two_blocks
    = Ret (b, 2, 0) /\
    WriteOnceBuilder.fd_ b
    = header_bytes header
      ++ blocks_bytes spec_value_encode groups
      ++ WriteOnceIndex.Marshal spec_value_encode
           (index_of_groups spec_value_encode groups) /\
    2 = zlength groups /\
    Forall (fun g => kBlockSizeMax - kEntrySizeLimit < block_data_size g)
           (removelast groups).
Proof.
  assert (Hobs : match emit_table 1 255 plain_options spec_value_encode 0
                         rows_two_blocks with
                 | Ret (_, c, l) => Some (c, l)
                 | _ => None
                 end = Some (2, 0))
    by (vm_compute; reflexivity).
  destruct (emit_table 1 255 plain_options spec_value_encode 0
              rows_two_blocks)
    as [[[b block_count] large_count]| | |] eqn:Hemit;
    try discriminate Hobs.
  injection Hobs as -> ->.
  assert (Hlt : zlength (flat rows_two_blocks) < 2 ^ 63)
    by (vm_compute; reflexivity).
  destruct (blocks_are_counted_and_filled _ _ _ _ _ _ _ _ _ Hlt Hemit)
    as (_ & header & groups & Hfile & Hcount & _ & Hfill).
  exists b, header, groups. auto.
Defined.

(** ** The builder: the block index *)

Lemma StronglySorted_app_inv {A : Type} (R : A -> A -> Prop) (l1 l2 : list A) :
  StronglySorted R (l1 ++ l2) ->
  StronglySorted R l1 /\ StronglySorted R l2 /\
  forall x y, In x l1 -> In y l2 -> R x y.
Proof.
  induction l1 as [|a l1 IH]; cbn [app]; intros H.
  - split; [constructor|]. split; [exact H|]. intros x y [].
  - inversion H as [|? ? Hs Hall]; subst.
    destruct (IH Hs) as (H1 & H2 & H12).
    rewrite Forall_app in Hall. destruct Hall as [Ha1 Ha2].
    split; [constructor; assumption|]. split; [exact H2|].
    intros x y [<-|Hx] Hy.
    + rewrite Forall_forall in Ha2. apply Ha2. exact Hy.
    + apply H12; assumption.
Qed.

Lemma StronglySorted_last {A : Type} (R : A -> A -> Prop) (d : A) (l : list A) :
  (forall x, R x x) ->
  StronglySorted R l -> forall x, In x l -> R x (last l d).
Proof.
  intros Hrefl. induction 1 as [|a l Hs IH Hall]; intros x Hx; [destruct Hx|].
  destruct l as [|b l].
  - destruct Hx as [<-|[]]. apply Hrefl.
  - change (last (a :: b :: l) d) with (last (b :: l) d).
    destruct Hx as [<-|Hx]; [|apply IH; exact Hx].
    rewrite Forall_forall in Hall. apply Hall.
    clear. generalize b. induction l as [|c l IHl]; intros b'.
    + now left.
    + right. change (last (b' :: c :: l) d) with (last (c :: l) d).
      apply IHl.
Qed.

Lemma last_in {A : Type} (d : A) (l : list A) : l <> [] -> In (last l d) l.
Proof.
  induction l as [|a l IH]; [congruence|]. intros _.
  destruct l as [|b l]; [now left|].
  right. change (last (a :: b :: l) d) with (last (b :: l) d).
  apply IH. discriminate.
Qed.

Lemma key_in_block_size (g : list (list Z * list Z)) (r : list Z * list Z) :
  In r g -> zlength (fst r) <= block_data_size g.
Proof.
  unfold block_data_size.
  pose proof (zlength_nonneg (concat (map snd g))) as Hv.
  assert (Hk : In r g -> zlength (fst r) <= zlength (concat (map fst g))).
  { clear. induction g as [|a g IH]; intros []; cbn [map concat];
      rewrite zlength_app.
    - subst. pose proof (zlength_nonneg (concat (map fst g))). lia.
    - pose proof (zlength_nonneg (fst a)). specialize (IH H). lia. }
  intros Hr. specialize (Hk Hr). lia.
Qed.

Section IndexFacts.
Variable value_encode : Z -> list Z.

(** The three vectors of the block index of a sequence of blocks. *)
Lemma index_of_groups_lists (groups : list (list (list Z * list Z))) :
  index_of_groups value_encode groups
  = {| WriteOnceIndex.block_size_ :=
         map (fun g => u32 (zlength (WriteOnceBlock.Marshal value_encode
                                       (block_of_rows g)))) groups;
       WriteOnceIndex.key_size_ :=
         map (fun g => u32 (zlength (last_key_of g))) groups;
       WriteOnceIndex.key_data_ := concat (map last_key_of groups) |}.
Proof.
  induction groups as [|g groups IH] using rev_ind; [reflexivity|].
  rewrite index_of_groups_snoc, IH. unfold WriteOnceIndex.Add.
  cbn [WriteOnceIndex.block_size_ WriteOnceIndex.key_size_
       WriteOnceIndex.key_data_].
  rewrite !map_app, concat_app. cbn [map concat].
  rewrite app_nil_r. reflexivity.
Qed.

(** The last keys of blocks whose rows are in the order of the keys. *)
Lemma last_keys_sorted (groups : list (list (list Z * list Z))) :
  Forall (fun g => g <> []) groups ->
  StronglySorted (fun r1 r2 => key_le (fst r1) (fst r2)) (concat groups) ->
  Sorted key_le (map last_key_of groups) /\
  forall g r, In g groups -> In r g -> key_le (fst r) (last_key_of g).
Proof.
  assert (Hrefl : forall r : list Z * list Z, key_le (fst r) (fst r))
    by (intros r; unfold key_le; rewrite sv_compare_refl; lia).
  induction 1 as [|g groups Hg Hne IH]; cbn [concat map]; intros Hs.
  - split; [constructor|]. intros g r [].
  - apply StronglySorted_app_inv in Hs. destruct Hs as (H1 & H2 & H12).
    destruct (IH H2) as (IHs & IHin).
    split.
    + constructor; [exact IHs|].
      destruct groups as [|g' groups]; [constructor|].
      cbn [map]. constructor. unfold last_key_of.
      apply H12; [apply last_in; exact Hg|].
      cbn [concat]. apply in_or_app. left.
      apply last_in. inversion Hne; assumption.
    + intros g0 r [<-|Hg0] Hr.
      * unfold last_key_of.
        apply (StronglySorted_last _ ([], []) g Hrefl H1 r Hr).
      * apply IHin; assumption.
Qed.

End IndexFacts.

(** X22. The block index of a built file has one entry per block, in the
    order of the file: the size of the marshalled block (as a
    [uint32_t]), and the size and the bytes of the last key of the block.
    That key is the greatest key of its block, and the keys of the index
    are in non-decreasing order, so that the block of a key can be found
    by comparing with them. *)
Theorem block_index_lists_blocks_in_key_order
  (kLast kDefault : Z) (options : TableOptions)
  (value_encode : Z -> list Z) (uninit : Z)
  (rows : list (list Z * list Z)) (file : list Z) :
  zlength (flat rows) < 2 ^ 63 ->
  build_table kLast kDefault options value_encode uninit rows = Ret file ->
  exists header groups idx,
    file = header_bytes header
           ++ blocks_bytes value_encode groups
           ++ WriteOnceIndex.Marshal value_encode idx /\
    WriteOnceIndex.block_size_ idx
    = map (fun g => u32 (zlength (WriteOnceBlock.Marshal value_encode
                                    (block_of_rows g)))) groups /\
    WriteOnceIndex.key_size_ idx
    = map (fun g => zlength (last_key_of g)) groups /\
    WriteOnceIndex.key_data_ idx = concat (map last_key_of groups) /\
    Sorted key_le (map last_key_of groups) /\
    (forall g r, In g groups -> In r g -> key_le (fst r) (last_key_of g)).
Proof.
  intros Hlt H.
  destruct (build_table_inv _ _ _ _ _ _ _ Hlt H)
    as (b & groups & sorted & _ & Hfile & _ & Hsorted & Hcat & Hgroups).
  exists (built_header b uninit), groups,
    (index_of_groups value_encode groups).
  split; [exact Hfile|].
  rewrite index_of_groups_lists.
  cbn [WriteOnceIndex.block_size_ WriteOnceIndex.key_size_
       WriteOnceIndex.key_data_].
  split; [reflexivity|]. split; [|split; [reflexivity|]].
  - apply map_ext_in. intros g Hg. apply u32_small.
    rewrite Forall_forall in Hgroups. destruct (Hgroups g Hg) as [Hne Hsz].
    pose proof (key_in_block_size g (last g ([], []))
                  (last_in _ g Hne)) as Hk.
    pose proof (zlength_nonneg (last_key_of g)).
    assert (kBlockSizeMax < 2 ^ 32) by (vm_compute; reflexivity).
    unfold last_key_of in *. lia.
  - apply last_keys_sorted.
    + eapply Forall_impl; [|exact Hgroups]. cbv beta. tauto.
    + rewrite Hcat.
      apply Sorted_StronglySorted in Hsorted;
        [|intros r1 r2 r3; apply key_le_trans].
      clear - Hsorted.
      induction Hsorted as [|r l Hs IH Hall]; cbn [filter]; [constructor|].
      destruct (small r); [|exact IH].
      constructor; [exact IH|].
      rewrite Forall_forall in *. intros r' Hr'.
      apply filter_In in Hr'. apply Hall. tauto.
Qed.

(** The unsorted scenario: one block, whose last key is d. *)
Lemma block_index_lists_blocks_in_key_order_witness :
  exists file header groups idx,
    build_table 1 255 plain_options spec_value_encode 0 rows_unsorted
    = Ret file /\
    file = header_bytes header
           ++ blocks_bytes spec_value_encode groups
           ++ WriteOnceIndex.Marshal spec_value_encode idx /\
    WriteOnceIndex.key_data_ idx = concat (map last_key_of groups) /\
    Sorted key_le (map last_key_of groups).
Proof.
  destruct (build_table 1 255 plain_options spec_value_encode 0
              rows_unsorted) as [file| | |] eqn:Hbuild;
    try (vm_compute in Hbuild; discriminate Hbuild).
  assert (Hlt : zlength (flat rows_unsorted) < 2 ^ 63)
    by (vm_compute; reflexivity).
  destruct (block_index_lists_blocks_in_key_order _ _ _ _ _ _ _ Hlt Hbuild)
    as (header & groups & idx & Hfile & _ & _ & Hdata & Hsorted & _).
  exists file, header, groups, idx. auto.
Defined.

(** ** The run-length reader *)

Lemma byte_at_inv (mem : list Z) (i b : Z) :
  byte_at mem i = Ret b -> 0 <= i < zlength mem.
Proof.
  unfold byte_at.
  destruct (Z.leb_spec 0 i); [|discriminate].
  destruct (Z.ltb_spec i (zlength mem)); [|discriminate].
  intros _. lia.
Qed.

Lemma byte_at_middle (pre post : list Z) (b : Z) :
  byte_at (pre ++ b :: post) (zlength pre) = Ret b.
Proof.
  unfold byte_at. rewrite zlength_app, zlength_cons.
  pose proof (zlength_nonneg pre). pose proof (zlength_nonneg post).
  destruct (Z.leb_spec 0 (zlength pre)); [|lia].
  destruct (Z.ltb_spec (zlength pre) (zlength pre + (zlength post + 1)));
    [|lia].
  cbn [andb]. f_equal. unfold zlength. rewrite Nat2Z.id.
  rewrite app_nth2, Nat.sub_diag by lia. reflexivity.
Qed.

Section RLEFacts.
Import RLE.

(** After a successful read the pointer is inside the input or just
    behind it. *)
Lemma ReadRLEByte_advanced (ctx ctx' : CA_rle_context) (b : Z) :
  ReadRLEByte ctx = Ret (b, ctx') ->
  input ctx' = input ctx /\
  1 <= advanced ctx' <= zlength (input ctx').
Proof.
  unfold ReadRLEByte. intros H. inv_bind H. inv_bind H.
  injection H as _ <-.
  unfold data_at in E0. apply byte_at_inv in E0.
  split; [|lia].
  destruct (negb (run ctx =? 0)).
  - injection E as <-. reflexivity.
  - inv_bind E. destruct (Z.land 192 a1 =? 192); injection E as <-;
      reflexivity.
Qed.

Lemma read_mask_advanced (n : nat) :
  forall (ctx ctx' : CA_rle_context) (bs : list Z),
    0 <= advanced ctx <= zlength (input ctx) ->
    OffsetScore.read_mask n ctx = Ret (bs, ctx') ->
    input ctx' = input ctx /\
    0 <= advanced ctx' <= zlength (input ctx') /\
    length bs = n.
Proof.
  induction n as [|n IH]; intros ctx ctx' bs Hctx H.
  - simpl in H. injection H as <- <-. auto.
  - cbn [OffsetScore.read_mask] in H.
    destruct (ReadRLEByte ctx) as [[b ctx1]| | |] eqn:Hread;
      cbn [bind] in H; try discriminate H.
    destruct (OffsetScore.read_mask n ctx1) as [[bs1 ctx2]| | |] eqn:Hrest;
      cbn [bind] in H; try discriminate H.
    injection H as <- <-.
    apply ReadRLEByte_advanced in Hread. destruct Hread as (Hin & Hadv).
    destruct (IH ctx1 ctx2 bs1 ltac:(lia) Hrest) as (Hin2 & Hadv2 & Hlen).
    split; [congruence|]. split; [exact Hadv2|]. simpl. lia.
Qed.

(** A run: a byte with the two top bits set and a count of [n] in its
    low bits, followed by a byte, is this byte [n + 1] times. *)
Lemma read_mask_run (n : nat) :
  forall (pre post : list Z) (b : Z) (r : Z),
    r = Z.of_nat n ->
    OffsetScore.read_mask n
      {| input := pre ++ b :: post; advanced := zlength pre + 1; run := r |}
    = Ret (repeat b n,
           {| input := pre ++ b :: post; advanced := zlength pre + 1;
              run := 0 |}).
Proof.
  induction n as [|n IH]; intros pre post b r Hr.
  - subst r. reflexivity.
  - cbn [OffsetScore.read_mask]. unfold ReadRLEByte at 1.
    cbn [run input advanced].
    destruct (Z.eqb_spec r 0); [lia|]. cbn [negb bind].
    unfold data_at. cbn [input advanced].
    replace (zlength pre + 1 + -1) with (zlength pre) by lia.
    rewrite byte_at_middle. cbn [bind].
    rewrite (IH pre post b (r - 1) ltac:(lia)). reflexivity.
Qed.

End RLEFacts.

(** X23. The run-length code that [ReadRLEByte] reads: a byte below
    [0xc0] stands for itself; a byte with the two top bits set announces,
    in its six low bits, a number [n] of repetitions, and the byte behind
    it is then returned [n + 1] times, after which the reader stands
    behind these two bytes with no run left. *)
Theorem ReadRLEByte_expands_runs (pre post : list Z) (m b : Z) :
  0 <= m < 256 ->
  (m < 0xc0 ->
   RLE.ReadRLEByte
     {| RLE.input := pre ++ m :: post; RLE.advanced := zlength pre;
        RLE.run := 0 |}
   = Ret (m, {| RLE.input := pre ++ m :: post;
                RLE.advanced := zlength pre + 1; RLE.run := 0 |})) /\
  (0xc0 <= m ->
   OffsetScore.read_mask (S (Z.to_nat (m - 0xc0)))
     {| RLE.input := pre ++ m :: b :: post; RLE.advanced := zlength pre;
        RLE.run := 0 |}
   = Ret (repeat b (S (Z.to_nat (m - 0xc0))),
          {| RLE.input := pre ++ m :: b :: post;
             RLE.advanced := zlength pre + 2; RLE.run := 0 |})).
Proof.
  intros Hm.
  assert (Hbits : Z.land 0xc0 m = 0xc0 <-> 0xc0 <= m).
  { assert (Hcases : forall x, 0 <= x < 256 ->
                       (Z.land 192 x =? 192) = (192 <=? x)).
    { intros x Hx.
      assert (Hall : forallb (fun k => Bool.eqb (Z.land 192 k =? 192)
                                                (192 <=? k))
                       (map Z.of_nat (seq 0 256)) = true)
        by (vm_compute; reflexivity).
      rewrite forallb_forall in Hall.
      apply Bool.eqb_prop. apply Hall.
      apply in_map_iff. exists (Z.to_nat x). split; [lia|].
      apply in_seq. lia. }
    specialize (Hcases m Hm).
    split; intros H.
    - apply Z.eqb_eq in H. rewrite Hcases in H. apply Z.leb_le in H. exact H.
    - apply Z.leb_le in H. rewrite <- Hcases in H. apply Z.eqb_eq. exact H. }
  split.
  - intros Hlow. unfold RLE.ReadRLEByte. cbn [RLE.run negb Z.eqb].
    unfold RLE.data_at at 1. cbn [RLE.input RLE.advanced].
    rewrite Z.add_0_r, byte_at_middle. cbn [bind].
    destruct (Z.eqb_spec (Z.land 192 m) 192) as [Heq|Hne];
      [apply Hbits in Heq; lia|].
    cbn [bind]. unfold RLE.data_at. cbn [RLE.input RLE.advanced].
    replace (zlength pre + 1 + -1) with (zlength pre) by lia.
    rewrite byte_at_middle. reflexivity.
  - intros Hhigh. cbn [OffsetScore.read_mask].
    unfold RLE.ReadRLEByte at 1. cbn [RLE.run negb Z.eqb].
    unfold RLE.data_at at 1. cbn [RLE.input RLE.advanced].
    rewrite Z.add_0_r, byte_at_middle. cbn [bind].
    destruct (Z.eqb_spec (Z.land 192 m) 192) as [Heq|Hne];
      [|exfalso; apply Hne; apply Hbits; exact Hhigh].
    cbn [bind]. unfold RLE.data_at. cbn [RLE.input RLE.advanced].
    replace (pre ++ m :: b :: post) with ((pre ++ [m]) ++ b :: post)
      by (rewrite <- app_assoc; reflexivity).
    replace (zlength pre + 2 + -1) with (zlength (pre ++ [m]))
      by (rewrite zlength_app, zlength_cons;
          change (zlength (@nil Z)) with 0; lia).
    rewrite byte_at_middle. cbn [bind].
    replace (zlength pre + 2) with (zlength (pre ++ [m]) + 1)
      by (rewrite zlength_app, zlength_cons;
          change (zlength (@nil Z)) with 0; lia).
    rewrite (read_mask_run (Z.to_nat (m - 192)) (pre ++ [m]) post b).
    + reflexivity.
    + assert (Hlow : Z.land m 63 = m - 192).
      { assert (Hall : forallb (fun k => Z.land k 63 =? k - 192)
                         (map Z.of_nat (seq 192 64)) = true)
          by (vm_compute; reflexivity).
        rewrite forallb_forall in Hall.
        apply Z.eqb_eq. apply Hall.
        apply in_map_iff. exists (Z.to_nat m). split; [lia|].
        apply in_seq. lia. }
      rewrite Hlow. lia.
Qed.

(** The bytes 0xc2 0x07: three times 7. *)
Lemma ReadRLEByte_expands_runs_witness :
  OffsetScore.read_mask 3
    {| RLE.input := [1] ++ 0xc2 :: 7 :: [9]; RLE.advanced := 1;
       RLE.run := 0 |}
  = Ret ([7; 7; 7],
         {| RLE.input := [1] ++ 0xc2 :: 7 :: [9]; RLE.advanced := 3;
            RLE.run := 0 |}).
Proof.
  apply (proj2 (ReadRLEByte_expands_runs [1] [9] 0xc2 7 ltac:(lia))).
  lia.
Defined.

(** ** The offset/score parser with predictions *)

Lemma last_cons_default {A : Type} (a d : A) (l : list A) :
  last (a :: l) d = last l a.
Proof.
  revert a d. induction l as [|b l IH]; intros a d; [reflexivity|].
  change (last (a :: b :: l) d) with (last (b :: l) d).
  rewrite (IH b d), (IH b a). reflexivity.
Qed.

Lemma parse_loop_range (rest : list Z) :
  forall r cur v q,
    0 <= r < 2 ^ 64 ->
    Varint.parse_loop r cur rest = Ret (v, q) ->
    0 <= v < 2 ^ 64.
Proof.
  induction rest as [|b rest IH]; intros r cur v q Hr H; simpl in H;
    destruct (Z.land cur 128 =? 0); try discriminate H.
  - injection H as <- _. exact Hr.
  - injection H as <- _. exact Hr.
  - apply (IH _ _ _ _ (VarintMore.accumulate_range r b) H).
Qed.

Lemma ca_parse_integer_range (input q : list Z) (v : Z) :
  Varint.ca_parse_integer input = Ret (v, q) -> 0 <= v < 2 ^ 64.
Proof.
  destruct input as [|b rest]; [discriminate|]. cbn [Varint.ca_parse_integer].
  apply parse_loop_range. rewrite land_ones_7.
  pose proof (Z.mod_pos_bound b 128 ltac:(lia)). lia.
Qed.

Section PredictionFacts.
Import RLE OffsetScore.

Lemma read_float_eq (begin : list Z) :
  read_float begin
  = if 4 <=? zlength begin
    then Ret (le_value (firstn 4 begin), skipn 4 begin)
    else Fault.
Proof.
  unfold read_float, load. cbn [Z.leb Z.compare andb Z.of_nat Z.add].
  change (Z.of_nat 4) with 4. cbn [Z.add].
  change (Pos.of_succ_nat 3) with 4%positive.
  destruct (4 <=? zlength begin); reflexivity.
Qed.

Lemma ptr_at_eq (begin : list Z) (n : Z) :
  0 <= n ->
  ptr_at begin n
  = if n <=? zlength begin then Ret (skipn (Z.to_nat n) begin) else Fault.
Proof.
  intros Hn. unfold ptr_at. destruct (Z.leb_spec 0 n); [|lia]. reflexivity.
Qed.

Lemma skip_one_float (begin : list Z) :
  ptr_at begin 4 = ('(f, b) <- read_float begin ;; Ret b).
Proof.
  rewrite read_float_eq, ptr_at_eq by lia.
  destruct (4 <=? zlength begin); reflexivity.
Qed.

Lemma read_float_cases (begin : list Z) :
  (4 <= zlength begin /\
   zlength (skipn 4 begin) = zlength begin - 4 /\
   exists f, read_float begin = Ret (f, skipn 4 begin)) \/
  (zlength begin < 4 /\ read_float begin = Fault).
Proof.
  rewrite read_float_eq.
  destruct (Z.leb_spec 4 (zlength begin)) as [Hlen|Hlen].
  - left. split; [exact Hlen|]. split; [|eexists; reflexivity].
    change 4%nat with (Z.to_nat 4). apply zlength_skipn. lia.
  - right. auto.
Qed.

Lemma skip_four_floats (begin : list Z) :
  ptr_at begin 16
  = ('(f1, b) <- read_float begin ;;
     '(f2, b) <- read_float b ;;
     '(f3, b) <- read_float b ;;
     '(f4, b) <- read_float b ;;
     Ret b).
Proof.
  rewrite ptr_at_eq by lia.
  destruct (read_float_cases begin) as [(H1 & L1 & f1 & ->)|[H1 ->]];
    cbn [bind];
    [|destruct (Z.leb_spec 16 (zlength begin)); [lia|reflexivity]].
  destruct (read_float_cases (skipn 4 begin))
    as [(H2 & L2 & f2 & ->)|[H2 ->]]; cbn [bind];
    [|destruct (Z.leb_spec 16 (zlength begin)); [lia|reflexivity]].
  destruct (read_float_cases (skipn 4 (skipn 4 begin)))
    as [(H3 & L3 & f3 & ->)|[H3 ->]]; cbn [bind];
    [|destruct (Z.leb_spec 16 (zlength begin)); [lia|reflexivity]].
  destruct (read_float_cases (skipn 4 (skipn 4 (skipn 4 begin))))
    as [(H4 & L4 & f4 & ->)|[H4 ->]]; cbn [bind];
    [|destruct (Z.leb_spec 16 (zlength begin)); [lia|reflexivity]].
  destruct (Z.leb_spec 16 (zlength begin)); [|lia].
  rewrite !skipn_skipn. reflexivity.
Qed.

(** The loops of [GetMaxOffsetWithPrediction] follow the loops of the
    parser and keep the last offset. *)
Lemma max_by_index_offsets (n : nat) (steps : list Z) :
  forall res begin,
    max_by_index n steps res begin
    = ('(offs, b) <- offsets_by_index n steps res begin ;;
       Ret (last offs res, b)).
Proof.
  induction n as [|n IH]; intros res begin; [reflexivity|].
  cbn [max_by_index offsets_by_index].
  destruct (Varint.ca_parse_integer begin) as [[si b1]| | |];
    cbn [bind]; try reflexivity.
  destruct (si <? zlength steps); cbn [KJ_REQUIRE bind]; [|reflexivity].
  rewrite IH.
  destruct (offsets_by_index n steps _ b1) as [[offs b2]| | |];
    cbn [bind]; try reflexivity.
  rewrite last_cons_default. reflexivity.
Qed.

Lemma max_by_delta_offsets (n : nat) :
  forall res begin,
    max_by_delta n res begin
    = ('(offs, b) <- offsets_by_delta n res begin ;;
       Ret (last offs res, b)).
Proof.
  induction n as [|n IH]; intros res begin; [reflexivity|].
  cbn [max_by_delta offsets_by_delta].
  destruct (Varint.ca_parse_integer begin) as [[d b1]| | |];
    cbn [bind]; try reflexivity.
  rewrite IH.
  destruct (offsets_by_delta n _ b1) as [[offs b2]| | |];
    cbn [bind]; try reflexivity.
  rewrite last_cons_default. reflexivity.
Qed.

Lemma offsets_by_index_length (n : nat) (steps : list Z) :
  forall res begin offs b,
    offsets_by_index n steps res begin = Ret (offs, b) -> length offs = n.
Proof.
  induction n as [|n IH]; intros res begin offs b H.
  - injection H as <- _. reflexivity.
  - cbn [offsets_by_index] in H. inv_bind H. destruct a as [si b1].
    inv_bind H. inv_bind H. destruct a0 as [offs1 b2].
    injection H as <- _. simpl. f_equal. eapply IH. exact E1.
Qed.

Lemma offsets_by_delta_length (n : nat) :
  forall res begin offs b,
    offsets_by_delta n res begin = Ret (offs, b) -> length offs = n.
Proof.
  induction n as [|n IH]; intros res begin offs b H.
  - injection H as <- _. reflexivity.
  - cbn [offsets_by_delta] in H. inv_bind H. destruct a as [d b1].
    inv_bind H. destruct a as [offs1 b2].
    injection H as <- _. simpl. f_equal. eapply IH. exact E0.
Qed.

Lemma skip_scores_read_scores (offsets : list Z) (prob_mask : list Z) :
  forall i begin,
    skip_scores (length offsets) i prob_mask begin
    = ('(values, b) <- read_scores i offsets prob_mask begin ;; Ret b).
Proof.
  induction offsets as [|off offsets IH]; intros i begin; [reflexivity|].
  cbn [length skip_scores read_scores].
  rewrite skip_one_float.
  destruct (read_float begin) as [[s b1]| | |]; cbn [bind]; try reflexivity.
  destruct (has_prediction prob_mask i) as [p| | |]; cbn [bind];
    try reflexivity.
  destruct p.
  - rewrite skip_four_floats.
    destruct (read_float b1) as [[p5 b2]| | |]; cbn [bind]; try reflexivity.
    destruct (read_float b2) as [[p25 b3]| | |]; cbn [bind]; try reflexivity.
    destruct (read_float b3) as [[p75 b4]| | |]; cbn [bind]; try reflexivity.
    destruct (read_float b4) as [[p95 b5]| | |]; cbn [bind]; try reflexivity.
    rewrite IH.
    destruct (read_scores (i + 1) offsets prob_mask b5) as [[vs b6]| | |];
      reflexivity.
  - cbn [bind]. rewrite IH.
    destruct (read_scores (i + 1) offsets prob_mask b1) as [[vs b6]| | |];
      reflexivity.
Qed.

Lemma read_scores_offsets (offsets : list Z) (prob_mask : list Z) :
  forall i begin values b,
    read_scores i offsets prob_mask begin = Ret (values, b) ->
    map offset values = offsets.
Proof.
  induction offsets as [|off offsets IH]; intros i begin values b H.
  - injection H as <- _. reflexivity.
  - cbn [read_scores] in H.
    destruct (read_float begin) as [[s b1]| | |]; cbn [bind] in H;
      try discriminate H.
    destruct (has_prediction prob_mask i) as [p| | |]; cbn [bind] in H;
      try discriminate H.
    destruct p.
    + destruct (read_float b1) as [[p5 b2]| | |]; cbn [bind] in H;
        try discriminate H.
      destruct (read_float b2) as [[p25 b3]| | |]; cbn [bind] in H;
        try discriminate H.
      destruct (read_float b3) as [[p75 b4]| | |]; cbn [bind] in H;
        try discriminate H.
      destruct (read_float b4) as [[p95 b5]| | |]; cbn [bind] in H;
        try discriminate H.
      destruct (read_scores (i + 1) offsets prob_mask b5)
        as [[vs b6]| | |] eqn:Hrest; cbn [bind] in H; try discriminate H.
      injection H as <- _. cbn [map offset]. f_equal.
      eapply IH. exact Hrest.
    + cbn [bind] in H.
      destruct (read_scores (i + 1) offsets prob_mask b1)
        as [[vs b6]| | |] eqn:Hrest; cbn [bind] in H; try discriminate H.
      injection H as <- _. cbn [map offset]. f_equal.
      eapply IH. exact Hrest.
Qed.

Lemma data_after_mask (n : nat) (begin mask : list Z)
  (rle : CA_rle_context) :
  read_mask n (InitRLE begin) = Ret (mask, rle) ->
  exists p, data rle = Ret p.
Proof.
  intros H. apply read_mask_advanced in H.
  - destruct H as (_ & Hadv & _). unfold data. rewrite ptr_at_eq by lia.
    destruct (Z.leb_spec (advanced rle) (zlength (input rle))); [|lia].
    eexists. reflexivity.
  - cbn [InitRLE advanced input]. pose proof (zlength_nonneg begin). lia.
Qed.

(** The parser appends to the vector that it is given. *)
Lemma Parse_appends (begin end_ b1 : list Z) (count : Z)
  (output : list ca_offset_score) :
  Varint.ca_parse_integer begin = Ret (count, b1) ->
  count <> 0 ->
  ParseOffsetScoreWithPrediction begin end_ output
  = match ParseOffsetScoreWithPrediction begin end_ [] with
    | Ret (b, values) => Ret (b, output ++ values)
    | Throw what => Throw what
    | Fault => Fault
    | Diverge => Diverge
    end.
Proof.
  intros Hparse Hcount. unfold ParseOffsetScoreWithPrediction.
  rewrite Hparse. cbn [bind].
  destruct (Z.eqb_spec count 0); [contradiction|].
  destruct (Varint.ca_parse_integer b1) as [[first b2]| | |];
    cbn [bind]; try reflexivity.
  destruct (read_step_table count b2) as [[steps b3]| | |];
    cbn [bind]; try reflexivity.
  destruct (if negb (zlength steps =? 0)
            then offsets_by_index (Z.to_nat (count - 1)) steps first b3
            else offsets_by_delta (Z.to_nat (count - 1)) first b3)
    as [[offs b4]| | |]; cbn [bind]; try reflexivity.
  destruct (read_mask (Z.to_nat (u64 (count + 7) / 8)) (InitRLE b4))
    as [[mask rle]| | |]; cbn [bind]; try reflexivity.
  destruct (run rle =? 0); cbn [KJ_REQUIRE bind]; try reflexivity.
  destruct (data rle) as [p| | |]; cbn [bind]; try reflexivity.
  destruct (read_scores 0 (first :: offs) mask p) as [[values b5]| | |];
    cbn [bind]; reflexivity.
Qed.

(** [GetMaxOffsetWithPrediction] fails where the parser fails, and
    returns the last offset where the parser returns values. *)
Lemma GetMax_follows_Parse (begin end_ b1 : list Z) (count : Z) :
  Varint.ca_parse_integer begin = Ret (count, b1) ->
  count <> 0 ->
  GetMaxOffsetWithPrediction begin
  = match ParseOffsetScoreWithPrediction begin end_ [] with
    | Ret (b, values) => Ret (last (map offset values) 0, b)
    | Throw what => Throw what
    | Fault => Fault
    | Diverge => Diverge
    end /\
  forall b values,
    ParseOffsetScoreWithPrediction begin end_ [] = Ret (b, values) ->
    values <> [].
Proof.
  intros Hparse Hcount.
  pose proof (ca_parse_integer_range _ _ _ Hparse) as Hrange.
  unfold GetMaxOffsetWithPrediction, ParseOffsetScoreWithPrediction.
  rewrite Hparse. cbn [bind].
  destruct (Z.eqb_spec count 0); [contradiction|].
  destruct (Z.gtb_spec count 0); [|lia]. cbn [KJ_REQUIRE bind].
  destruct (Varint.ca_parse_integer b1) as [[first b2]| | |];
    cbn [bind]; [|split; [reflexivity|discriminate]..].
  destruct (read_step_table count b2) as [[steps b3]| | |];
    cbn [bind]; [|split; [reflexivity|discriminate]..].
  assert (Hloops :
    exists r,
      (if negb (zlength steps =? 0)
       then offsets_by_index (Z.to_nat (count - 1)) steps first b3
       else offsets_by_delta (Z.to_nat (count - 1)) first b3) = r /\
      (if negb (zlength steps =? 0)
       then max_by_index (Z.to_nat (count - 1)) steps first b3
       else max_by_delta (Z.to_nat (count - 1)) first b3)
      = ('(offs, b) <- r ;; Ret (last offs first, b)) /\
      forall offs b, r = Ret (offs, b) ->
        length offs = Z.to_nat (count - 1)).
  { destruct (negb (zlength steps =? 0)); eexists;
      (split; [reflexivity|]); split.
    - apply max_by_index_offsets.
    - intros offs b. apply offsets_by_index_length.
    - apply max_by_delta_offsets.
    - intros offs b. apply offsets_by_delta_length. }
  destruct Hloops as (r & -> & -> & Hlen).
  destruct r as [[offs b4]| | |]; cbn [bind];
    [|split; [reflexivity|discriminate]..].
  specialize (Hlen offs b4 eq_refl).
  destruct (read_mask (Z.to_nat (u64 (count + 7) / 8)) (InitRLE b4))
    as [[mask rle]| | |] eqn:Hmask; cbn [bind];
    [|split; [reflexivity|discriminate]..].
  destruct (data_after_mask _ _ _ _ Hmask) as (p & ->). cbn [bind].
  destruct (run rle =? 0); cbn [KJ_REQUIRE bind];
    [|split; [reflexivity|discriminate]].
  replace (Z.to_nat count) with (length (first :: offs))
    by (cbn [length]; lia).
  rewrite skip_scores_read_scores.
  destruct (read_scores 0 (first :: offs) mask p) as [[values b5]| | |]
    eqn:Hscores; cbn [bind]; [|split; [reflexivity|discriminate]..].
  apply read_scores_offsets in Hscores.
  split.
  - cbn [app]. rewrite Hscores, last_cons_default. reflexivity.
  - intros b values' Hret. injection Hret as _ <-.
    destruct values; [discriminate Hscores|discriminate].
Qed.

End PredictionFacts.

(** X24. [GetMaxOffsetWithPrediction] and the parser agree: on the same
    bytes, [GetMaxOffsetWithPrediction] returns a result exactly when
    [ParseOffsetScoreWithPrediction] appends at least one value; the
    result is then the offset of the last value that the parser appends,
    and both leave the pointer at the same place. *)
Theorem GetMaxOffset_is_last_parsed_offset
  (begin end_ begin' : list Z) (output : list OffsetScore.ca_offset_score)
  (m : Z) :
  OffsetScore.GetMaxOffsetWithPrediction begin = Ret (m, begin') <->
  exists values v,
    OffsetScore.ParseOffsetScoreWithPrediction begin end_ output
    = Ret (begin', output ++ values ++ [v]) /\
    OffsetScore.offset v = m.
Proof.
  destruct (Varint.ca_parse_integer begin) as [[count b1]| | |] eqn:Hparse.
  2-4: (split;
        [intros H; unfold OffsetScore.GetMaxOffsetWithPrediction in H;
         rewrite Hparse in H; discriminate H
        |intros (values & v & H & _);
         unfold OffsetScore.ParseOffsetScoreWithPrediction in H;
         rewrite Hparse in H; discriminate H]).
  destruct (Z.eq_dec count 0) as [->|Hcount].
  - split.
    + intros H. unfold OffsetScore.GetMaxOffsetWithPrediction in H.
      rewrite Hparse in H. discriminate H.
    + intros (values & v & H & _).
      unfold OffsetScore.ParseOffsetScoreWithPrediction in H.
      rewrite Hparse in H. cbn [bind Z.eqb] in H.
      destruct (zlength b1 =? zlength end_); [|discriminate H].
      cbn [KJ_REQUIRE bind] in H. injection H as _ Hout.
      rewrite <- (app_nil_r output) in Hout at 1.
      apply app_inv_head in Hout. destruct values; discriminate Hout.
  - destruct (GetMax_follows_Parse begin end_ b1 count Hparse Hcount)
      as (Hmax & Hne).
    rewrite Hmax, (Parse_appends begin end_ b1 count output Hparse Hcount).
    destruct (OffsetScore.ParseOffsetScoreWithPrediction begin end_ [])
      as [[b values]| | |].
    2-4: (split; [discriminate|intros (vs & v & H & _); discriminate H]).
    specialize (Hne b values eq_refl).
    destruct (exists_last Hne) as (vs & v & ->).
    rewrite map_app. cbn [map]. rewrite last_last.
    split.
    + intros H. injection H as <- <-. exists vs, v. auto.
    + intros (vs' & v' & H & <-). injection H as <- Hout.
      apply app_inv_head in Hout. apply app_inj_tail in Hout.
      destruct Hout as [_ <-]. reflexivity.
Qed.

(** Two values with the offsets 10 and 15, no predictions. *)
Lemma GetMaxOffset_is_last_parsed_offset_witness :
  OffsetScore.GetMaxOffsetWithPrediction
    ([2; 10; 0; 5; 0] ++ le_bytes 4 0x3f800000 ++ le_bytes 4 0x40000000
     ++ [9])
  = Ret (15, [9]) /\
  exists values v,
    OffsetScore.ParseOffsetScoreWithPrediction
      ([2; 10; 0; 5; 0] ++ le_bytes 4 0x3f800000 ++ le_bytes 4 0x40000000
       ++ [9]) [] []
    = Ret ([9], [] ++ values ++ [v]) /\
    OffsetScore.offset v = 15.
Proof.
  assert (H : OffsetScore.GetMaxOffsetWithPrediction
                ([2; 10; 0; 5; 0] ++ le_bytes 4 0x3f800000
                 ++ le_bytes 4 0x40000000 ++ [9])
              = Ret (15, [9]))
    by (vm_compute; reflexivity).
  split; [exact H|].
  apply (proj1 (GetMaxOffset_is_last_parsed_offset _ [] _ [] _) H).
Defined.

(** ** The writer of time series *)

Lemma ca_format_integer_length (v : Z) (bs : list Z) :
  0 <= v ->
  Varint.ca_format_integer v = Ret bs ->
  0 < zlength bs <= 10.
Proof.
  intros Hv H. unfold Varint.ca_format_integer in H.
  assert (Hs : 0 <= Z.shiftr v 7) by (apply Z.shiftr_nonneg; lia).
  destruct (VarintFacts.format_loop_shape 9 _ _ _ Hs H)
    as (front & -> & _ & Hlen).
  unfold zlength. rewrite length_app. simpl. lia.
Qed.

(** X25. [ca_table_write_time_float4] builds its header in an array of
    64 bytes and never writes behind it: the three varints take at most
    30 bytes.  The row that it hands to [ca_table_insert_row] has three
    pieces, the key with its NUL, the header and the samples, and the
    header followed by the samples is what [ca_format_time_float4] writes
    for the same series. *)
Theorem write_time_float4_header_fits
  (ca_table_insert_row : list (list Z) -> result Z)
  (k rest : list Z) (start_time interval : Z) (sample_values : list Z) :
  Forall (fun b => b <> 0) k ->
  0 <= start_time < 2 ^ 64 -> 0 <= interval < 2 ^ 32 ->
  zlength sample_values < 2 ^ 64 ->
  exists header,
    zlength header <= 30 /\
    ca_format_time_float4 start_time interval sample_values
    = Ret (header ++ concat (map (le_bytes 4) sample_values)) /\
    TableWrite.ca_table_write_time_float4 ca_table_insert_row
      (k ++ 0 :: rest) start_time interval sample_values
    = ca_table_insert_row
        [k ++ [0]; header; concat (map (le_bytes 4) sample_values)].
Proof.
  intros Hk Ht Hi Hc.
  pose proof (zlength_nonneg sample_values) as Hnn.
  destruct (VarintMore.format_parse start_time Ht) as (bt & Ft & _).
  destruct (VarintMore.format_parse interval ltac:(lia)) as (bi & Fi & _).
  destruct (VarintMore.format_parse (zlength sample_values) ltac:(lia))
    as (bc & Fc & _).
  pose proof (ca_format_integer_length start_time bt ltac:(lia) Ft) as Lt.
  pose proof (ca_format_integer_length interval bi ltac:(lia) Fi) as Li.
  pose proof (ca_format_integer_length _ _ Hnn Fc) as Lc.
  exists (bt ++ bi ++ bc).
  split; [rewrite !zlength_app; lia|]. split.
  - unfold ca_format_time_float4. rewrite Ft, Fi, Fc. cbn [bind].
    rewrite <- !app_assoc. reflexivity.
  - unfold TableWrite.ca_table_write_time_float4, TableWrite.CA_put_integer,
      MAX_HEADER_SIZE.
    unfold Varint.ca_format_integer in Ft, Fi, Fc.
    rewrite Ft. cbn [bind app].
    change (zlength (@nil Z)) with 0.
    destruct (Z.leb_spec (0 + zlength bt) 64); [|lia].
    cbn [bind]. rewrite Fi. cbn [bind].
    destruct (Z.leb_spec (zlength bt + zlength bi) 64); [|lia].
    cbn [bind]. rewrite Fc. cbn [bind].
    rewrite zlength_app.
    destruct (Z.leb_spec (zlength bt + zlength bi + zlength bc) 64); [|lia].
    cbn [bind]. rewrite c_str_app by exact Hk. cbn [bind].
    rewrite <- app_assoc. reflexivity.
Qed.

(** The series of the key cpu that starts at 1000000 with interval 300,
    for an insertion that answers with the number of pieces. *)
Lemma write_time_float4_header_fits_witness :
  exists header : list Z,
    zlength header <= 30 /\
    TableWrite.ca_table_write_time_float4
      (fun row : list (list Z) => Ret (zlength row))
      (bytes_of "cpu" ++ 0 :: [7]) 1000000 300 [0x3f800000; 0x40000000]
    = Ret 3.
Proof.
  destruct (write_time_float4_header_fits
              (fun row : list (list Z) => Ret (zlength row))
              (bytes_of "cpu") [7] 1000000 300 [0x3f800000; 0x40000000])
    as (header & Hlen & _ & Hrow).
  - repeat constructor; discriminate.
  - lia.
  - lia.
  - vm_compute. reflexivity.
  - exists header. split; [exact Hlen|]. rewrite Hrow. reflexivity.
Defined.

(** ** [ev::StringRef] *)

Lemma sv_compare_common (a : list Z) :
  forall b,
    let m := Nat.min (length a) (length b) in
    sv_compare (firstn m a) (firstn m b) = 0 ->
    sv_compare a b
    = (if zlength a <? zlength b then -1
       else if zlength a >? zlength b then 1 else 0).
Proof.
  induction a as [|x a IH]; intros [|y b]; cbn [length Nat.min firstn].
  - reflexivity.
  - intros _. cbn [sv_compare]. rewrite zlength_cons.
    change (zlength (@nil Z)) with 0.
    pose proof (zlength_nonneg b).
    destruct (Z.ltb_spec 0 (zlength b + 1)); [reflexivity|lia].
  - intros _. cbn [sv_compare]. rewrite zlength_cons.
    change (zlength (@nil Z)) with 0.
    pose proof (zlength_nonneg a).
    destruct (Z.ltb_spec (zlength a + 1) 0); [lia|].
    destruct (Z.gtb_spec (zlength a + 1) 0); [reflexivity|lia].
  - cbn [sv_compare]. destruct (x <? y); [discriminate|].
    destruct (y <? x); [discriminate|].
    intros H. rewrite (IH b H), !zlength_cons.
    destruct (Z.ltb_spec (zlength a) (zlength b)),
      (Z.ltb_spec (zlength a + 1) (zlength b + 1)); try lia;
      try reflexivity.
    destruct (Z.gtb_spec (zlength a) (zlength b)),
      (Z.gtb_spec (zlength a + 1) (zlength b + 1)); try lia; reflexivity.
Qed.

Lemma sv_bytes_inv (v : string_view) (a : list Z) :
  sv_bytes v = Ret a ->
  a = firstn (Z.to_nat (sv_size v)) (sv_data v) /\
  zlength a = sv_size v /\ 0 <= sv_size v <= zlength (sv_data v).
Proof.
  unfold sv_bytes.
  destruct (Z.leb_spec 0 (sv_size v)); [|discriminate].
  destruct (Z.leb_spec (sv_size v) (zlength (sv_data v))); [|discriminate].
  cbn [andb]. intros Hret. injection Hret as <-. split; [reflexivity|].
  split; [|lia]. rewrite zlength_firstn by lia. lia.
Qed.

(** The first [m] bytes of a view whose bytes are readable. *)
Lemma sv_bytes_shorter (v : string_view) (a : list Z) (m : Z) :
  sv_bytes v = Ret a -> 0 <= m <= sv_size v ->
  sv_bytes {| sv_data := sv_data v; sv_size := m |}
  = Ret (firstn (Z.to_nat m) a).
Proof.
  intros H Hm. apply sv_bytes_inv in H. destruct H as (-> & _ & Hsz).
  unfold sv_bytes. cbn [sv_data sv_size].
  destruct (Z.leb_spec 0 m); [|lia].
  destruct (Z.leb_spec m (zlength (sv_data v))); [|lia].
  cbn [andb]. rewrite firstn_firstn. f_equal. f_equal. lia.
Qed.

(** [compare] on views whose bytes are readable. *)
Lemma StringRef_compare_bytes (lhs rhs : StringRef.t) (a b : list Z) :
  sv_bytes lhs = Ret a -> sv_bytes rhs = Ret b ->
  StringRef.compare lhs rhs = Ret (sv_compare a b).
Proof.
  intros Ha Hb.
  pose proof (sv_bytes_inv _ _ Ha) as (_ & Hla & Hra).
  pose proof (sv_bytes_inv _ _ Hb) as (_ & Hlb & Hrb).
  unfold StringRef.compare.
  rewrite (sv_bytes_shorter lhs a _ Ha) by lia.
  rewrite (sv_bytes_shorter rhs b _ Hb) by lia.
  cbn [bind].
  assert (Hmin : Z.to_nat (Z.min (sv_size lhs) (sv_size rhs))
                 = Nat.min (length a) (length b))
    by (unfold zlength in *; lia).
  rewrite Hmin.
  destruct (Z.eqb_spec
              (sv_compare (firstn (Nat.min (length a) (length b)) a)
                          (firstn (Nat.min (length a) (length b)) b)) 0)
    as [Hz|Hnz]; cbn [negb].
  - rewrite (sv_compare_common a b Hz), Hla, Hlb. reflexivity.
  - f_equal.
    destruct (Nat.le_ge_cases (length a) (length b)) as [Hle|Hle].
    + rewrite Nat.min_l in * by exact Hle.
      rewrite <- (sv_compare_firstn (length a) a b).
      * reflexivity.
      * rewrite firstn_all in *. exact Hnz.
    + rewrite Nat.min_r in * by exact Hle.
      rewrite <- (sv_compare_firstn (length b) a b).
      * reflexivity.
      * rewrite (firstn_all b) in *. exact Hnz.
Qed.

(** The bytes of a readable view are the front of what its pointer
    addresses. *)
Lemma sv_bytes_front (v : string_view) (a : list Z) :
  sv_bytes v = Ret a ->
  exists rest,
    sv_data v = a ++ rest /\ Z.to_nat (sv_size v) = length a.
Proof.
  intros H. apply sv_bytes_inv in H. destruct H as (-> & Hl & Hr).
  exists (skipn (Z.to_nat (sv_size v)) (sv_data v)).
  split; [symmetry; apply firstn_skipn|].
  rewrite length_firstn. unfold zlength in Hr. lia.
Qed.

(** [std::lexicographical_compare] on [char]s that compare as their bytes
    do. *)
Lemma lexicographical_compare_bytes (signed : bool) (a : list Z) :
  forall b r1 r2,
    Forall (fun x => StringRef.char_value signed x = x) a ->
    Forall (fun x => StringRef.char_value signed x = x) b ->
    StringRef.lexicographical_compare signed (length a) (length b)
      (a ++ r1) (b ++ r2)
    = Ret (sv_compare a b <? 0).
Proof.
  induction a as [|x a IH]; intros [|y b] r1 r2 Ha Hb;
    cbn [length app StringRef.lexicographical_compare sv_compare];
    try reflexivity.
  inversion Ha as [|? ? Hx Ha']; inversion Hb as [|? ? Hy Hb']; subst.
  rewrite Hx, Hy.
  destruct (x <? y); [reflexivity|].
  destruct (y <? x); [reflexivity|].
  apply IH; assumption.
Qed.

(** [std::lexicographical_compare] after a common prefix. *)
Lemma lexicographical_compare_prefix (signed : bool) (p : list Z) :
  forall n1 n2 r1 r2,
    StringRef.lexicographical_compare signed
      (length p + n1) (length p + n2) (p ++ r1) (p ++ r2)
    = StringRef.lexicographical_compare signed n1 n2 r1 r2.
Proof.
  induction p as [|c p IH]; intros n1 n2 r1 r2; [reflexivity|].
  cbn [length app Nat.add StringRef.lexicographical_compare].
  rewrite Z.ltb_irrefl. apply IH.
Qed.

Lemma sv_compare_prefix (p : list Z) :
  forall a b, sv_compare (p ++ a) (p ++ b) = sv_compare a b.
Proof.
  induction p as [|c p IH]; intros a b; [reflexivity|].
  cbn [app sv_compare]. rewrite Z.ltb_irrefl. apply IH.
Qed.

(** The loop of [operator== (const char* )] on a string without NUL
    bytes and a NUL-terminated string. *)
Lemma eq_c_str_loop_spec (a : list Z) :
  forall rest rhs s,
    Forall (fun c => c <> 0) a -> c_str rhs = Ret s ->
    StringRef.eq_c_str_loop (length a) (a ++ rest) rhs
    = Ret (sv_compare a s =? 0).
Proof.
  induction a as [|x a IH]; intros rest rhs s Ha Hs;
    destruct rhs as [|r rhs]; try discriminate Hs;
    cbn [c_str] in Hs; cbn [length app StringRef.eq_c_str_loop].
  - destruct (Z.eqb_spec r 0) as [->|Hr].
    + injection Hs as <-. reflexivity.
    + destruct (c_str rhs); try discriminate Hs.
      cbn [bind] in Hs. injection Hs as <-. reflexivity.
  - inversion Ha as [|? ? Hx Ha']; subst.
    destruct (Z.eqb_spec r 0) as [->|Hr].
    + injection Hs as <-.
      destruct (Z.eqb_spec 0 x); [congruence|]. reflexivity.
    + destruct (c_str rhs) as [s'| | |] eqn:Hs'; try discriminate Hs.
      cbn [bind] in Hs. injection Hs as <-.
      cbn [sv_compare].
      destruct (Z.eqb_spec r x) as [->|Hne]; cbn [negb].
      * rewrite Z.ltb_irrefl. apply IH; [exact Ha'|exact Hs'].
      * destruct (Z.ltb_spec x r); [reflexivity|].
        destruct (Z.ltb_spec r x); [reflexivity|lia].
Qed.

(** X26. [StringRef::compare] and [StringRef::operator==] on views whose
    bytes are readable: [compare] returns the sign of the byte-wise
    comparison of the two strings (a proper prefix comes first), and
    [operator==] answers true exactly when [compare] returns 0, which is
    exactly when the two strings are the same bytes. *)
Theorem StringRef_compare_agrees_with_equality
  (lhs rhs : StringRef.t) (a b : list Z) :
  sv_bytes lhs = Ret a -> sv_bytes rhs = Ret b ->
  StringRef.compare lhs rhs = Ret (sv_compare a b) /\
  StringRef.eq lhs rhs = Ret (sv_compare a b =? 0) /\
  (sv_compare a b = 0 <-> a = b).
Proof.
  intros Ha Hb.
  pose proof (sv_bytes_inv _ _ Ha) as (_ & Hla & Hra).
  pose proof (sv_bytes_inv _ _ Hb) as (_ & Hlb & Hrb).
  assert (Hiff : sv_compare a b = 0 <-> a = b).
  { split; [apply sv_compare_eq|intros ->; apply sv_compare_refl]. }
  split; [|split; [|exact Hiff]].
  - apply StringRef_compare_bytes; assumption.
  - unfold StringRef.eq.
    destruct (Z.eqb_spec (sv_size lhs) (sv_size rhs)) as [Heq|Hne];
      cbn [negb].
    + rewrite Ha. cbn [bind]. rewrite Heq.
      replace {| sv_data := sv_data rhs; sv_size := sv_size rhs |} with rhs
        by (destruct rhs; reflexivity).
      rewrite Hb. reflexivity.
    + f_equal. symmetry. apply Z.eqb_neq. intros Hz.
      apply Hiff in Hz. subst b. lia.
Qed.

Lemma StringRef_compare_agrees_with_equality_witness :
  StringRef.compare (sv_of (bytes_of "ab")) (sv_of (bytes_of "abc"))
  = Ret (sv_compare (bytes_of "ab") (bytes_of "abc")) /\
  StringRef.eq (sv_of (bytes_of "ab")) (sv_of (bytes_of "abc"))
  = Ret (sv_compare (bytes_of "ab") (bytes_of "abc") =? 0) /\
  (sv_compare (bytes_of "ab") (bytes_of "abc") = 0
   <-> bytes_of "ab" = bytes_of "abc").
Proof.
  apply StringRef_compare_agrees_with_equality; apply sv_bytes_of.
Defined.

(** X27. [StringRef::operator<] answers as [compare (rhs) < 0] does, on
    views whose bytes are readable, when [char] is unsigned or every byte
    of both strings is below 128. *)
Theorem StringRef_less_agrees_with_compare
  (char_is_signed : bool) (lhs rhs : StringRef.t) (a b : list Z) :
  sv_bytes lhs = Ret a -> sv_bytes rhs = Ret b ->
  char_is_signed = false \/ Forall (fun x => x < 128) (a ++ b) ->
  exists c,
    StringRef.compare lhs rhs = Ret c /\
    StringRef.lt char_is_signed lhs rhs = Ret (c <? 0).
Proof.
  intros Ha Hb Hchar. exists (sv_compare a b).
  split; [apply StringRef_compare_bytes; assumption|].
  destruct (sv_bytes_front _ _ Ha) as (r1 & Hd1 & Hn1).
  destruct (sv_bytes_front _ _ Hb) as (r2 & Hd2 & Hn2).
  unfold StringRef.lt. rewrite Hd1, Hd2, Hn1, Hn2.
  assert (Hval : Forall (fun x => StringRef.char_value char_is_signed x = x)
                   (a ++ b)).
  { destruct Hchar as [->|Hlow].
    - apply Forall_forall. intros x _. reflexivity.
    - eapply Forall_impl; [|exact Hlow]. intros x Hx.
      cbv beta in Hx. unfold StringRef.char_value.
      destruct (Z.leb_spec 128 x); [lia|].
      rewrite Bool.andb_false_r. reflexivity. }
  apply Forall_app in Hval. destruct Hval as [Hva Hvb].
  apply lexicographical_compare_bytes; assumption.
Qed.

Lemma StringRef_less_agrees_with_compare_witness :
  exists c,
    StringRef.compare (sv_of (bytes_of "ab")) (sv_of (bytes_of "b"))
    = Ret c /\
    StringRef.lt true (sv_of (bytes_of "ab")) (sv_of (bytes_of "b"))
    = Ret (c <? 0).
Proof.
  apply (StringRef_less_agrees_with_compare true _ _
           (bytes_of "ab") (bytes_of "b")).
  - apply sv_bytes_of.
  - apply sv_bytes_of.
  - right. repeat constructor.
Defined.

(** X28. Where [char] is signed, [StringRef::operator<] and
    [StringRef::compare] order two strings in opposite ways when the
    first byte in which they differ is 128 or more in the one and below
    128 in the other: [operator<] puts the string with the high byte
    first, [compare] puts it last. *)
Theorem StringRef_less_disagrees_with_compare_on_signed_char
  (p s t : list Z) (x y : Z) :
  128 <= x < 256 -> 0 <= y < 128 ->
  StringRef.lt true (sv_of (p ++ x :: s)) (sv_of (p ++ y :: t)) = Ret true /\
  StringRef.compare (sv_of (p ++ x :: s)) (sv_of (p ++ y :: t)) = Ret 1.
Proof.
  intros Hx Hy. split.
  - unfold StringRef.lt, sv_of. cbn [sv_data sv_size].
    unfold zlength. rewrite !Nat2Z.id, !length_app.
    rewrite lexicographical_compare_prefix.
    cbn [length StringRef.lexicographical_compare].
    unfold StringRef.char_value. cbn [andb].
    destruct (Z.leb_spec 128 x); [|lia].
    destruct (Z.leb_spec 128 y); [lia|].
    destruct (Z.ltb_spec (x - 256) y); [reflexivity|lia].
  - rewrite (StringRef_compare_bytes _ _ (p ++ x :: s) (p ++ y :: t))
      by apply sv_bytes_of.
    rewrite sv_compare_prefix. cbn [sv_compare].
    destruct (Z.ltb_spec x y); [lia|].
    destruct (Z.ltb_spec y x); [reflexivity|lia].
Qed.

Lemma StringRef_less_disagrees_with_compare_on_signed_char_witness :
  StringRef.lt true (sv_of (bytes_of "k" ++ 200 :: []))
                    (sv_of (bytes_of "k" ++ 65 :: bytes_of "z"))
  = Ret true /\
  StringRef.compare (sv_of (bytes_of "k" ++ 200 :: []))
                    (sv_of (bytes_of "k" ++ 65 :: bytes_of "z"))
  = Ret 1.
Proof.
  apply StringRef_less_disagrees_with_compare_on_signed_char; lia.
Defined.

(** X29. [StringRef::operator== (const char* )] on a view whose bytes are
    readable and hold no NUL byte, with a NUL-terminated string: it
    returns, and answers true exactly when the view's bytes are the
    string's bytes. *)
Theorem StringRef_equals_c_string
  (lhs : StringRef.t) (a rhs s : list Z) :
  sv_bytes lhs = Ret a -> c_str rhs = Ret s ->
  Forall (fun c => c <> 0) a ->
  exists r, StringRef.eq_c_str lhs rhs = Ret r /\ (r = true <-> a = s).
Proof.
  intros Ha Hs Hnz.
  destruct (sv_bytes_front _ _ Ha) as (rest & Hd & Hn).
  exists (sv_compare a s =? 0). split.
  - unfold StringRef.eq_c_str. rewrite Hd, Hn.
    apply eq_c_str_loop_spec; assumption.
  - rewrite Z.eqb_eq.
    split; [apply sv_compare_eq|intros ->; apply sv_compare_refl].
Qed.

Lemma StringRef_equals_c_string_witness :
  exists r,
    StringRef.eq_c_str (sv_of (bytes_of "ab")) (bytes_of "ab" ++ [0])
    = Ret r /\
    (r = true <-> bytes_of "ab" = bytes_of "ab").
Proof.
  apply (StringRef_equals_c_string _ _ _ (bytes_of "ab")).
  - apply sv_bytes_of.
  - reflexivity.
  - repeat constructor; discriminate.
Defined.

(** X30. [StringRef::operator== (const char* )] does not stop at the
    terminator of the C string: a view that holds the string's bytes, a
    NUL byte and anything more makes it read the C string beyond its
    terminator, outside the string when the terminator is its last
    byte. *)
Theorem StringRef_equals_c_string_reads_past_terminator
  (s u : list Z) :
  StringRef.eq_c_str (sv_of (s ++ 0 :: u)) (s ++ [0]) = Fault.
Proof.
  unfold StringRef.eq_c_str, sv_of. cbn [sv_data sv_size].
  unfold zlength. rewrite Nat2Z.id.
  induction s as [|c s IH].
  - cbn [app length StringRef.eq_c_str_loop]. cbn [Z.eqb negb].
    destruct (length u); reflexivity.
  - cbn [app length StringRef.eq_c_str_loop].
    rewrite Z.eqb_refl. cbn [negb]. exact IH.
Qed.
